(** * Natural-breaks classification engine of ICIO_tax

    A shallow embedding of the classification code of the repository
    ([jenksBreaks], [varianceWithin], [getClassIndex] of
    [utils/naturalBreaks], [getICIOColor] and [generateColorPalette] of
    [utils/iconLayer]) and the properties its specification states.

    Numbers.  A JavaScript number is modelled as [NaN], an infinity, or a
    rational ([Qc], rationals in lowest terms, so that [===] is Leibniz
    equality); the doubles are among the rationals, and comparisons are
    exact.  The functions that compute with numbers are embedded twice.
    The first embedding adds, multiplies and divides finite numbers
    without rounding; it serves the properties that rounding does not
    touch: filtering, sorting, comparisons, and runs in which every
    intermediate value is a double.  The second one, [Machine], takes the
    arithmetic as a parameter; its instance [binary64] rounds every
    result to the nearest double, ties to even, and overflows to an
    infinity, as IEEE 754 prescribes.  What is proved of [Machine] for
    every arithmetic holds for the code; what the code does on particular
    numbers is computed with [binary64].  The sign of zero is not
    modelled.

    The code around the engine is embedded as well: the breaks, the
    palette, the icon atlas and the total range of [App], [rgbToHex] and
    the coordinate check of [components/CircleMarkers], [convertToGeoJSON]
    of [utils/csvParser], and the calculator of
    [components/ICIOCalculator] with the loading of its build types.

    Strings.  A string is a [string] of the Standard Library.  The
    library functions whose result depends on the text ([toLowerCase],
    [includes], [trim], [parseFloat]) are parameters of the functions that
    call them. *)

From Stdlib Require Import String Ascii DecimalString.
From Stdlib Require Import List ZArith QArith Qcanon Qround Lia Lqa Bool.
From Stdlib Require Import Sorted Permutation.
Import ListNotations.

Close Scope Qc_scope.
Close Scope Q_scope.
Open Scope nat_scope.

(** ** JavaScript numbers and values *)

Inductive number : Type :=
| NaN
| Fin (q : Qc)
| Inf (negative : bool).

Inductive value : Type :=
| Null
| Undefined
| Num (x : number).

Definition qz (z : Z) : Qc := Q2Qc (inject_Z z).
Definition ofZ (z : Z) : number := Fin (qz z).
Definition num (q : Qc) : value := Num (Fin q).
Definition numZ (z : Z) : value := Num (ofZ z).

Module JS.

Definition Qcltb (a b : Qc) : bool :=
  match (a ?= b)%Qc with Lt => true | _ => false end.

Definition Qceqb (a b : Qc) : bool :=
  match (a ?= b)%Qc with Eq => true | _ => false end.

(** [ToNumber]: [null] is 0, [undefined] is NaN. *)
Definition toNumber (v : value) : number :=
  match v with
  | Null => Fin 0%Qc
  | Undefined => NaN
  | Num x => x
  end.

Definition isNaN (v : value) : bool :=
  match toNumber v with NaN => true | _ => false end.

(** [x < y] on numbers; any comparison with NaN is false. *)
Definition ltN (x y : number) : bool :=
  match x, y with
  | NaN, _ | _, NaN => false
  | Fin a, Fin b => Qcltb a b
  | Fin _, Inf neg => negb neg
  | Inf neg, Fin _ => neg
  | Inf n1, Inf n2 => n1 && negb n2
  end.

(** [x >= y] on numbers. *)
Definition geN (x y : number) : bool :=
  match x, y with
  | NaN, _ | _, NaN => false
  | _, _ => negb (ltN x y)
  end.

Definition leN (x y : number) : bool := geN y x.

(** Relational operators on values convert both sides with [ToNumber]. *)
Definition lt (a b : value) : bool := ltN (toNumber a) (toNumber b).
Definition ge (a b : value) : bool := geN (toNumber a) (toNumber b).

Definition negN (x : number) : number :=
  match x with
  | NaN => NaN
  | Fin a => Fin (- a)%Qc
  | Inf neg => Inf (negb neg)
  end.

Definition addN (x y : number) : number :=
  match x, y with
  | NaN, _ | _, NaN => NaN
  | Fin a, Fin b => Fin (a + b)%Qc
  | Fin _, Inf neg | Inf neg, Fin _ => Inf neg
  | Inf n1, Inf n2 => if Bool.eqb n1 n2 then Inf n1 else NaN
  end.

Definition subN (x y : number) : number := addN x (negN y).

Definition isNeg (a : Qc) : bool := Qcltb a 0%Qc.

Definition mulN (x y : number) : number :=
  match x, y with
  | NaN, _ | _, NaN => NaN
  | Fin a, Fin b => Fin (a * b)%Qc
  | Fin a, Inf neg | Inf neg, Fin a =>
      if Qceqb a 0%Qc then NaN else Inf (xorb neg (isNeg a))
  | Inf n1, Inf n2 => Inf (xorb n1 n2)
  end.

(** Division; a zero divisor counts as [+0]. *)
Definition divN (x y : number) : number :=
  match x, y with
  | NaN, _ | _, NaN => NaN
  | Fin a, Fin b =>
      if Qceqb b 0%Qc
      then (if Qceqb a 0%Qc then NaN else Inf (isNeg a))
      else Fin (a / b)%Qc
  | Fin _, Inf _ => Fin 0%Qc
  | Inf neg, Fin b => Inf (xorb neg (isNeg b))
  | Inf _, Inf _ => NaN
  end.

(** [Math.floor]. *)
Definition floor (x : number) : number :=
  match x with
  | Fin a => Fin (qz (Qfloor a))
  | _ => x
  end.

(** [Math.pow(x, 2)]. *)
Definition pow2 (x : number) : number := mulN x x.

(** Strict equality [===]: NaN differs from itself. *)
Definition eqN (x y : number) : bool :=
  match x, y with
  | Fin a, Fin b => Qceqb a b
  | Inf n1, Inf n2 => Bool.eqb n1 n2
  | _, _ => false
  end.

Definition strictEq (a b : value) : bool :=
  match a, b with
  | Null, Null => true
  | Undefined, Undefined => true
  | Num x, Num y => eqN x y
  | _, _ => false
  end.

(** SameValueZero, the equality of [Set]: NaN equals itself. *)
Definition sameValueZero (x y : number) : bool :=
  match x, y with
  | NaN, NaN => true
  | _, _ => eqN x y
  end.

(** Array read [a[i]]: [undefined] outside the array. *)
Definition get (a : list value) (i : Z) : value :=
  if (i <? 0)%Z then Undefined else nth (Z.to_nat i) a Undefined.

Definition len {A : Type} (a : list A) : Z := Z.of_nat (length a).

End JS.

(** ** [getClassIndex] (utils/naturalBreaks) *)

(** The scanning loop [for (i = 0; i < breaks.length - 1; i++)], started at
    [i] with [todo] iterations left; [Some i] is the early return. *)
Fixpoint classScan (v : value) (breaks : list value) (i : Z) (todo : nat)
  : option Z :=
  match todo with
  | O => None
  | S todo' =>
      if JS.ge v (JS.get breaks i) && JS.lt v (JS.get breaks (i + 1))
      then Some i
      else classScan v breaks (i + 1) todo'
  end.

Definition isMissing (v : value) : bool :=
  match v with
  | Null => true
  | Undefined => true
  | _ => JS.isNaN v
  end.

Definition getClassIndex (v : value) (breaks : list value) : Z :=
  if isMissing v then (-1)%Z
  else
    match classScan v breaks 0 (Z.to_nat (JS.len breaks - 1)) with
    | Some i => i
    | None =>
        if JS.ge v (JS.get breaks (JS.len breaks - 2))
        then (JS.len breaks - 2)%Z
        else (-1)%Z
    end.

(** ** [getICIOColor] (utils/iconLayer) *)

Definition rgb : Type := (number * number * number)%type.

Definition gray : rgb := (ofZ 128, ofZ 128, ofZ 128).

(** [breaks] is an array here ([!breaks] is false). *)
Definition getICIOColor (icio : value) (breaks : list value)
  (colors : list rgb) : rgb :=
  if match icio with Null => true | _ => false end
     || JS.isNaN icio
     || (JS.len breaks <? 2)%Z
  then gray
  else
    let classIndex := getClassIndex icio breaks in
    if (classIndex =? -1)%Z || (classIndex >=? JS.len colors)%Z
    then gray
    else nth (Z.to_nat classIndex) colors gray.

(** ** [generateColorPalette] (utils/iconLayer) *)

Definition half : number := Fin (Q2Qc (1 # 2)).

(** The body of the loop: the colour pushed at index [i]. *)
Definition colorAt (numClasses i : Z) : rgb :=
  let ratio := JS.divN (ofZ i) (ofZ (numClasses - 1)) in
  if JS.ltN ratio half then
    let localRatio := JS.mulN ratio (ofZ 2) in
    (JS.floor (JS.mulN localRatio (ofZ 204)), ofZ 200, ofZ 0)
  else
    let localRatio := JS.mulN (JS.subN ratio half) (ofZ 2) in
    (JS.addN (ofZ 204) (JS.floor (JS.mulN localRatio (ofZ 51))),
     JS.subN (ofZ 200) (JS.floor (JS.mulN localRatio (ofZ 200))),
     ofZ 0).

(** [for (i = 0; i < numClasses; i++) colors.push(...)], from index [i]
    with [todo] iterations left. *)
Fixpoint paletteLoop (numClasses i : Z) (todo : nat) (colors : list rgb)
  : list rgb :=
  match todo with
  | O => colors
  | S todo' =>
      paletteLoop numClasses (i + 1) todo' (colors ++ [colorAt numClasses i])
  end.

Definition generateColorPalette (numClasses : Z) : list rgb :=
  paletteLoop numClasses 0 (Z.to_nat numClasses) [].

Definition red (c : rgb) : number := fst (fst c).
Definition green (c : rgb) : number := snd (fst c).
Definition blue (c : rgb) : number := snd c.

(** ** [varianceWithin] (utils/naturalBreaks) *)

(** [data.slice(start, stop)] for indices within the array. *)
Definition slice {A : Type} (data : list A) (start stop : nat) : list A :=
  firstn (stop - start) (skipn start data).

Definition varianceWithin (data : list number) (start end_ : nat) : number :=
  if (end_ <=? start)%nat then ofZ 0
  else
    let subset := slice data start (end_ + 1) in
    let mean :=
      JS.divN (fold_left JS.addN subset (ofZ 0)) (ofZ (JS.len subset)) in
    fold_left (fun sum val => JS.addN sum (JS.pow2 (JS.subN val mean)))
      subset (ofZ 0).

(** ** [jenksBreaks] (utils/naturalBreaks) *)

Inductive outcome (A : Type) : Type :=
| Returns (a : A)
| Throws.
Arguments Returns {A} a.
Arguments Throws {A}.

(** [d !== null && d !== undefined && !isNaN(d)] *)
Definition isValid (d : value) : bool :=
  match d with
  | Null => false
  | Undefined => false
  | _ => negb (JS.isNaN d)
  end.

Definition cleanData (data : list value) : list number :=
  map JS.toNumber (filter isValid data).

(** [sort((a, b) => a - b)]: [x] is placed after [y] when [x - y > 0].
    On the finite numbers the comparator is a total order and every
    sorting algorithm gives this result. *)
Fixpoint insert (x : number) (l : list number) : list number :=
  match l with
  | [] => [x]
  | y :: t =>
      if JS.ltN (ofZ 0) (JS.subN x y) then y :: insert x t else x :: y :: t
  end.

Definition sortNumbers (l : list number) : list number :=
  fold_right insert [] l.

(** [[...new Set(sorted)]]: the values in order of first insertion. *)
Fixpoint setHas (s : list number) (x : number) : bool :=
  match s with
  | [] => false
  | y :: t => JS.sameValueZero y x || setHas t x
  end.

Fixpoint setInsertAll (s : list number) (l : list number) : list number :=
  match l with
  | [] => s
  | x :: t => setInsertAll (if setHas s x then s else s ++ [x]) t
  end.

Definition newSet (l : list number) : list number := setInsertAll [] l.

(** The two matrices, allocated with [dataLength + 1] rows and
    [nClasses + 1] columns of zeros.  Every access of the loops below is
    inside the allocated range; the one read that can leave it (row [-1]
    while backtracking) is guarded in [extractLoop]. *)
Definition table (A : Type) : Type := nat -> nat -> A.

Definition tset {A : Type} (t : table A) (r c : nat) (x : A) : table A :=
  fun r' c' => if (r' =? r)%nat && (c' =? c)%nat then x else t r' c'.

Record matrices : Type := Matrices {
  lowerClassLimits : table nat;
  varianceCombinations : table number
}.

Definition zeros : matrices :=
  Matrices (fun _ _ => O) (fun _ _ => ofZ 0).

Definition setLimit (m : matrices) (r c : nat) (x : nat) : matrices :=
  Matrices (tset (lowerClassLimits m) r c x) (varianceCombinations m).

Definition setVariance (m : matrices) (r c : nat) (x : number) : matrices :=
  Matrices (lowerClassLimits m) (tset (varianceCombinations m) r c x).

(** [for (k = i; k <= j; k++)], from [k] with [todo] iterations left. *)
Fixpoint loopK (sorted : list number) (i j k : nat) (todo : nat)
  (m : matrices) : matrices :=
  match todo with
  | O => m
  | S todo' =>
      let variance :=
        JS.addN (varianceCombinations m (k - 1) (i - 1))
                (varianceWithin sorted (k - 1) (j - 1)) in
      let m' :=
        if JS.ltN variance (varianceCombinations m j i)
        then setVariance (setLimit m j i k) j i variance
        else m in
      loopK sorted i j (k + 1) todo' m'
  end.

(** [for (j = 2; j <= dataLength; j++)], from [j] with [todo] iterations
    left. *)
Fixpoint loopJ (sorted : list number) (i j : nat) (todo : nat)
  (m : matrices) : matrices :=
  match todo with
  | O => m
  | S todo' =>
      let m' :=
        if (i =? 1)%nat
        then setLimit (setVariance m j 1 (varianceWithin sorted 0 (j - 1)))
                      j 1 1
        else loopK sorted i j i (j + 1 - i)
                   (setVariance m j i (Inf false)) in
      loopJ sorted i (j + 1) todo' m'
  end.

(** [for (i = 1; i <= nClasses; i++)], from [i] with [todo] iterations
    left. *)
Fixpoint loopI (sorted : list number) (dataLength : nat) (i : nat)
  (todo : nat) (m : matrices) : matrices :=
  match todo with
  | O => m
  | S todo' =>
      let m1 := setVariance (setLimit m 1 i 1) 1 i (ofZ 0) in
      let m2 := loopJ sorted i 2 (dataLength - 1) m1 in
      loopI sorted dataLength (i + 1) todo' m2
  end.

Definition jenksMatrices (sorted : list number) (nClasses : nat) : matrices :=
  loopI sorted (length sorted) 1 nClasses zeros.

(** Array write [a[i] = x]: writing past the end extends the array.  The
    skipped indices are holes, read as [undefined]; they are all written by
    the time [jenksBreaks] filters the array. *)
Fixpoint aset (a : list value) (i : nat) (x : value) : list value :=
  match i, a with
  | O, [] => [x]
  | O, _ :: t => x :: t
  | S i', [] => Undefined :: aset [] i' x
  | S i', y :: t => y :: aset t i' x
  end.

(** [for (j = nClasses; j >= 1; j--)]: [j] is the loop variable, [k] the row.
    Reading a row of negative index ([undefined[j]]) throws a TypeError. *)
Fixpoint extractLoop (sorted : list number) (limits : table nat) (j : nat)
  (k : Z) (breaks : list value) : outcome (list value) :=
  match j with
  | O => Returns breaks
  | S j' =>
      if (k <? 0)%Z then Throws
      else
        let idx := (Z.of_nat (limits (Z.to_nat k) j) - 1)%Z in
        extractLoop sorted limits j' idx
          (aset breaks j' (JS.get (map Num sorted) idx))
  end.

(** [a.indexOf(v)], scanning from position [i]. *)
Fixpoint indexOfFrom (a : list value) (v : value) (i : Z) : Z :=
  match a with
  | [] => (-1)%Z
  | y :: t => if JS.strictEq y v then i else indexOfFrom t v (i + 1)
  end.

Definition indexOf (a : list value) (v : value) : Z := indexOfFrom a v 0.

(** [l.filter((v, i, a) => a.indexOf(v) === i)], from position [i]. *)
Fixpoint filterFirst (a : list value) (l : list value) (i : Z) : list value :=
  match l with
  | [] => []
  | v :: t =>
      if (indexOf a v =? i)%Z then v :: filterFirst a t (i + 1)
      else filterFirst a t (i + 1)
  end.

Definition removeDuplicates (a : list value) : list value :=
  filterFirst a a 0.

Definition jenksBreaks (data : list value) (nClasses : nat)
  : outcome (list value) :=
  if (length data =? 0)%nat then Returns []
  else
    let cleanData := cleanData data in
    if (length cleanData =? 0)%nat then Returns []
    else
      let sorted := sortNumbers cleanData in
      if (length sorted <=? nClasses)%nat
      then Returns (map Num (newSet sorted))
      else
        let dataLength := length sorted in
        let m := jenksMatrices sorted nClasses in
        match
          extractLoop sorted (lowerClassLimits m) nClasses
            (Z.of_nat dataLength) []
        with
        | Throws => Throws
        | Returns breaks =>
            let breaks := aset breaks 0 (JS.get (map Num sorted) 0) in
            let breaks :=
              aset breaks nClasses
                (JS.get (map Num sorted) (Z.of_nat dataLength - 1)) in
            Returns (removeDuplicates breaks)
        end.

(** ** [naturalBreaks] and [colorPalette] of [App] (App.js)

    [icios] are the [properties.icio] of the features, in order; [None] is
    the [null] that [App] keeps when there is nothing to classify. *)

(** [.filter(v => v !== null && !isNaN(v)).map(Number)] *)
Definition appIcioValues (icios : list value) : list value :=
  map (fun v => Num (JS.toNumber v))
    (filter (fun v => negb (match v with Null => true | _ => false end)
                      && negb (JS.isNaN v)) icios).

Definition appNaturalBreaks (icios : list value)
  : outcome (option (list value)) :=
  if (length icios =? 0)%nat then Returns None
  else
    let icioValues := appIcioValues icios in
    if (length icioValues =? 0)%nat then Returns None
    else
      match jenksBreaks icioValues 12 with
      | Throws => Throws
      | Returns breaks => Returns (Some breaks)
      end.

Definition appColorPalette (naturalBreaks : option (list value)) : list rgb :=
  match naturalBreaks with
  | None => []
  | Some breaks =>
      if (JS.len breaks <? 2)%Z then []
      else generateColorPalette (JS.len breaks - 1)
  end.

(** ** The pin icons of [App] (App.js, [createCustomPinIcons], [iconLayer])

    A color key is the string of the three channels separated by commas.
    Two such strings are equal exactly when the channels are the same
    numbers (NaN prints as the same text every time), so a key is modelled
    by the triple of channels and compared channel by channel.  A [Map]
    keeps its keys in insertion order. *)

Definition colorKey (c : rgb) : rgb := c.

Definition sameKey (c d : rgb) : bool :=
  JS.sameValueZero (red c) (red d)
  && JS.sameValueZero (green c) (green d)
  && JS.sameValueZero (blue c) (blue d).

Fixpoint mapHas {A : Type} (m : list (rgb * A)) (key : rgb) : bool :=
  match m with
  | [] => false
  | (k, _) :: t => sameKey k key || mapHas t key
  end.

(** [m.set(key, x)] and [obj[key] = x]: an existing key keeps its place. *)
Fixpoint mapSet {A : Type} (m : list (rgb * A)) (key : rgb) (x : A)
  : list (rgb * A) :=
  match m with
  | [] => [(key, x)]
  | (k, y) :: t =>
      if sameKey k key then (k, x) :: t else (k, y) :: mapSet t key x
  end.

Fixpoint mapGet {A : Type} (m : list (rgb * A)) (key : rgb) : option A :=
  match m with
  | [] => None
  | (k, y) :: t => if sameKey k key then Some y else mapGet t key
  end.

(** The canvas drawn for a key is determined by its color. *)
Definition canvas : Type := rgb.

Fixpoint pinIconsLoop (icios : list value) (naturalBreaks : list value)
  (colorPalette : list rgb) (colorToCanvas : list (rgb * canvas))
  : list (rgb * canvas) :=
  match icios with
  | [] => colorToCanvas
  | icio :: rest =>
      let rgbColor := getICIOColor icio naturalBreaks colorPalette in
      pinIconsLoop rest naturalBreaks colorPalette
        (if negb (mapHas colorToCanvas (colorKey rgbColor))
         then mapSet colorToCanvas (colorKey rgbColor) rgbColor
         else colorToCanvas)
  end.

(** [icios] lists [feature.properties.icio] of the features, in order. *)
Definition createCustomPinIcons (icios : list value)
  (naturalBreaks : option (list value)) (colorPalette : list rgb)
  : option (list (rgb * canvas)) :=
  match naturalBreaks with
  | None => None
  | Some breaks =>
      if (length icios =? 0)%nat || (length colorPalette =? 0)%nat
      then None
      else Some (pinIconsLoop icios breaks colorPalette [])
  end.

(** [Math.ceil]. *)
Definition ceil (x : number) : number :=
  match x with
  | Fin a => Fin (qz (Qceiling a))
  | _ => x
  end.

Definition iconSize : Z := 40.

(** [Math.ceil(Math.sqrt(numIcons))] of a count. *)
Definition iconsPerRow (numIcons : Z) : Z := Z.sqrt_up numIcons.

Definition atlasWidth (numIcons : Z) : Z := iconsPerRow numIcons * iconSize.

Definition atlasHeight (numIcons : Z) : number :=
  JS.mulN (ceil (JS.divN (ofZ numIcons) (ofZ (iconsPerRow numIcons))))
          (ofZ iconSize).

(** An entry of [iconMapping]; [index] counts from 0, and there is at least
    one icon per row whenever the loop body runs. *)
Record icon : Type := Icon { icon_x : Z; icon_y : Z; icon_width : Z;
                             icon_height : Z }.

Definition iconCell (numIcons index : Z) : icon :=
  Icon ((index mod iconsPerRow numIcons) * iconSize)
       ((index / iconsPerRow numIcons) * iconSize)
       iconSize iconSize.

Fixpoint iconMappingLoop (colorCanvases : list (rgb * canvas))
  (numIcons index : Z) (iconMapping : list (rgb * icon))
  : list (rgb * icon) :=
  match colorCanvases with
  | [] => iconMapping
  | (key, _) :: rest =>
      iconMappingLoop rest numIcons (index + 1)
        (mapSet iconMapping key (iconCell numIcons index))
  end.

Definition iconMappingOf (colorCanvases : list (rgb * canvas))
  : list (rgb * icon) :=
  iconMappingLoop colorCanvases (JS.len colorCanvases) 0 [].

(** [getIcon] of the layer. *)
Definition getIcon (icio : value) (naturalBreaks : list value)
  (colorPalette : list rgb) : rgb :=
  colorKey (getICIOColor icio naturalBreaks colorPalette).

(** ** The icio range of [App] (App.js, [loadCSVData])

    [Math.min] and [Math.max] of the elements of an array, each converted
    with [ToNumber]. *)

Definition minN (x y : number) : number :=
  match x, y with
  | NaN, _ | _, NaN => NaN
  | _, _ => if JS.ltN y x then y else x
  end.

Definition maxN (x y : number) : number :=
  match x, y with
  | NaN, _ | _, NaN => NaN
  | _, _ => if JS.ltN x y then y else x
  end.

Definition mathMin (args : list value) : number :=
  fold_left minN (map JS.toNumber args) (Inf false).

Definition mathMax (args : list value) : number :=
  fold_left maxN (map JS.toNumber args) (Inf true).

(** The range that [loadCSVData] leaves in the state: [icioRange] is the
    state before, [icios] lists [f.properties.icio] of the features. *)
Definition loadIcioRange (icios : list value) (icioRange : number * number)
  : number * number :=
  let icioValues :=
    filter (fun v => negb (match v with Null => true | _ => false end)
                     && negb (JS.isNaN v)) icios in
  if (0 <? length icioValues)%nat
  then (mathMin icioValues, mathMax icioValues)
  else icioRange.

(** ** The legend of [App] (App.js)

    The text of a color is modelled by the color, as for the color keys.
    An entry of the legend is [null], or the color of its box and the
    ranges that it shows, each a pair of breaks before [toFixed(2)] turns
    them into text: one for each of the three conditions on the index
    that holds. *)

Definition legendColors (naturalBreaks : option (list value))
  (colorPalette : list rgb) : list rgb :=
  match naturalBreaks with
  | None => []
  | Some breaks =>
      if (JS.len breaks <? 2)%Z || (length colorPalette =? 0)%nat
      then []
      else colorPalette
  end.

Definition legendItem (naturalBreaks : option (list value))
  (legendLength : Z) (color : rgb) (index : Z)
  : option (rgb * list (value * value)) :=
  match naturalBreaks with
  | None => None
  | Some breaks =>
      if (index >=? JS.len breaks - 1)%Z then None
      else
        let lower := JS.get breaks index in
        let upper := JS.get breaks (index + 1) in
        Some (color,
              (if (index =? 0)%Z then [(lower, upper)] else [])
              ++ (if (0 <? index)%Z && (index <? legendLength - 1)%Z
                  then [(lower, upper)] else [])
              ++ (if (index =? legendLength - 1)%Z
                  then [(lower, upper)] else []))
  end.

Fixpoint legendLoop (naturalBreaks : option (list value))
  (legendLength : Z) (colors : list rgb) (index : Z)
  : list (option (rgb * list (value * value))) :=
  match colors with
  | [] => []
  | color :: rest =>
      legendItem naturalBreaks legendLength color index
      :: legendLoop naturalBreaks legendLength rest (index + 1)
  end.

Definition legend (naturalBreaks : option (list value))
  (colorPalette : list rgb)
  : list (option (rgb * list (value * value))) :=
  let colors := legendColors naturalBreaks colorPalette in
  legendLoop naturalBreaks (JS.len colors) colors 0.

(** ** [rgbToHex] (components/CircleMarkers)

    The channels are integers here, as the palette and the fallback gray
    have them, and [toString(16)] of an integer is its digits in base 16,
    lowercase, without leading zeros, after a minus sign if it is
    negative. *)

Definition hexDigit (d : Z) : ascii :=
  match String.get (Z.to_nat d) "0123456789abcdef" with
  | Some c => c
  | None => "0"%char
  end.

Fixpoint hexDigits (todo : nat) (n : Z) (acc : string) : string :=
  match todo with
  | O => acc
  | S todo' =>
      let acc' := String (hexDigit (n mod 16)) acc in
      if (n / 16 =? 0)%Z then acc' else hexDigits todo' (n / 16) acc'
  end.

Definition toString16 (x : Z) : string :=
  if (x <? 0)%Z
  then String "-"%char (hexDigits (S (Z.to_nat (Z.log2 (- x)))) (- x) "")
  else hexDigits (S (Z.to_nat (Z.log2 x))) x "".

Definition rgbToHex (rgb : list Z) : string :=
  String.append "#"
    (String.concat ""
       (map (fun x =>
               let hex := toString16 x in
               if (String.length hex =? 1)%nat
               then String.append "0" hex else hex)
            rgb)).

(** ** [convertToGeoJSON] (utils/csvParser)

    A parsed row is an object whose values are the texts of the cells
    ([dynamicTyping] is off); it is modelled by the list of its entries in
    the order of [Object.keys].  The library functions on strings that the
    code calls are parameters. *)

Definition row : Type := list (string * string).

(** [row[key]]. *)
Fixpoint rowGet (r : row) (key : string) : option string :=
  match r with
  | [] => None
  | (k, v) :: t => if String.eqb k key then Some v else rowGet t key
  end.

(** A value of [properties]: a text or a number or [null]. *)
Inductive property : Type :=
| PText (s : string)
| PValue (v : value).

(** [obj[key] = x]: an existing key keeps its place. *)
Fixpoint objSet (obj : list (string * property)) (key : string)
  (x : property) : list (string * property) :=
  match obj with
  | [] => [(key, x)]
  | (k, y) :: t =>
      if String.eqb k key then (k, x) :: t else (k, y) :: objSet t key x
  end.

Fixpoint objGet (obj : list (string * property)) (key : string)
  : option property :=
  match obj with
  | [] => None
  | (k, y) :: t => if String.eqb k key then Some y else objGet t key
  end.

(** [{...obj, ...row}]. *)
Definition spread (obj : list (string * property)) (r : row)
  : list (string * property) :=
  fold_left (fun o kv => objSet o (fst kv) (PText (snd kv))) r obj.

Record feature : Type := Feature {
  coordinates : number * number;
  properties : list (string * property)
}.

Section CsvParser.

Variable toLowerCase : string -> string.
Variable includes : string -> string -> bool.
Variable parseFloat : string -> number.

(** An empty key is falsy, so the search goes on with the next name. *)
Fixpoint detectColumn (r : row) (possibleNames : list string)
  : option string :=
  match possibleNames with
  | [] => None
  | name :: rest =>
      match find (fun k => includes (toLowerCase k) (toLowerCase name))
                 (map fst r) with
      | Some found =>
          if String.eqb found "" then detectColumn r rest else Some found
      | None => detectColumn r rest
      end
  end.

(** [parseFloat(row[col])]; [parseFloat(undefined)] is NaN. *)
Definition parseCell (r : row) (col : string) : number :=
  match rowGet r col with
  | Some s => parseFloat s
  | None => NaN
  end.

Definition cityOf (r : row) (index : nat) : string :=
  let city :=
    match detectColumn r ["city"; "municipio"; "municipality"; "nombre";
                          "name"; "ciudad"; "capital"]%string with
    | Some cityCol => rowGet r cityCol
    | None => None
    end in
  let fallback :=
    match detectColumn r ["capital"%string] with
    | Some capitalCol =>
        match rowGet r capitalCol with
        | Some c =>
            if String.eqb c "" then None else Some c
        | None => None
        end
    | None => None
    end in
  match city with
  | Some c =>
      if String.eqb c "" || String.eqb c "nan"
      then match fallback with
           | Some c' => c'
           | None =>
               String.append "City "
                 (NilEmpty.string_of_uint (Nat.to_uint (index + 1)))
           end
      else c
  | None =>
      match fallback with
      | Some c' => c'
      | None =>
          String.append "City "
            (NilEmpty.string_of_uint (Nat.to_uint (index + 1)))
      end
  end.

(** The body of the [map]: [None] is the [null] that the [filter] drops. *)
Definition convertRow (r : row) (index : nat) : option feature :=
  let latCol := detectColumn r ["lat"; "latitude"; "y"; "coord_y"]%string in
  let lonCol :=
    detectColumn r ["lon"; "lng"; "longitude"; "x"; "coord_x";
                    "long"]%string in
  let icioCol :=
    detectColumn r ["icio"; "tipo icio"; "value"; "valor"; "ic";
                    "icío"]%string in
  match latCol, lonCol with
  | Some latCol, Some lonCol =>
      let lat := parseCell r latCol in
      let lon := parseCell r lonCol in
      let icio :=
        match icioCol with
        | Some icioCol => Num (parseCell r icioCol)
        | None => Null
        end in
      let city := cityOf r index in
      if JS.isNaN (Num lat) || JS.isNaN (Num lon) then None
      else if JS.ltN lat (ofZ (-90)) || JS.ltN (ofZ 90) lat then None
      else if JS.ltN lon (ofZ (-180)) || JS.ltN (ofZ 180) lon then None
      else Some (Feature (lon, lat)
                   (spread [("city"%string, PText city);
                            ("icio"%string, PValue icio)] r))
  | _, _ => None
  end.

Fixpoint convertRows (data : list row) (index : nat) : list feature :=
  match data with
  | [] => []
  | r :: rest =>
      match convertRow r index with
      | Some f => f :: convertRows rest (index + 1)
      | None => convertRows rest (index + 1)
      end
  end.

Definition convertToGeoJSON (data : list row) : list feature :=
  convertRows data 0.

End CsvParser.

(** The coordinate check of [CircleMarkers] (components/CircleMarkers),
    which skips a feature when it holds. *)
Definition markerSkipped (coordinates : number * number) : bool :=
  let (lon, lat) := coordinates in
  JS.isNaN (Num lat) || JS.isNaN (Num lon)
  || JS.ltN lat (ofZ (-90)) || JS.ltN (ofZ 90) lat
  || JS.ltN lon (ofZ (-180)) || JS.ltN (ofZ 180) lon.

(** ** [calculateICIO] (components/ICIOCalculator)

    The three tables, with the fields that the calculation reads: the key
    [value] and the number attached to it. *)

Definition CONSTRUCTION_TYPES : list (string * number) :=
  [("new_construction"%string, ofZ 1);
   ("integral_renovation"%string, Fin (Q2Qc (3 # 4)));
   ("energy_rehabilitation"%string, Fin (Q2Qc (1 # 2)));
   ("interior_refurbishment"%string, ofZ 0)].

Definition SPECIAL_CONDITIONS : list (string * number) :=
  [("none"%string, ofZ 0);
   ("heritage_building"%string, ofZ 20);
   ("heritage_neighborhood"%string, ofZ 10);
   ("nature_conservation"%string, ofZ 15);
   ("archeologic_zone"%string, ofZ 5);
   ("complex_geology"%string, ofZ 25);
   ("special_financing"%string, ofZ 18)].

Definition ICIO_REDUCTIONS : list (string * number) :=
  [("none"%string, ofZ 0);
   ("protected_heritage"%string, ofZ 75);
   ("vpo"%string, ofZ 90);
   ("vppb"%string, ofZ 40);
   ("educational"%string, ofZ 70);
   ("cultural"%string, ofZ 70);
   ("health_care"%string, ofZ 70);
   ("state_dotated_construction"%string, ofZ 70);
   ("building_designed_with_accessibility"%string, ofZ 90);
   ("function_change"%string, ofZ 95);
   ("rehabilitation_of_housing"%string, ofZ 70);
   ("pv_solar_energy_generation"%string, ofZ 95);
   ("ev_cars_chargers"%string, ofZ 20)].

(** [table.find(e => e.value === key)]. *)
Fixpoint findValue (table : list (string * number)) (key : string)
  : option number :=
  match table with
  | [] => None
  | (v, x) :: t => if String.eqb v key then Some x else findValue t key
  end.

Record buildType : Type := BuildType {
  bt_type : string;
  subtype : string;
  pemStart : number;
  pemFinish : number;
  cteReference : string;
  activeLink : string
}.

(** [buildTypes.find(bt => bt.subtype === buildingFunction)]. *)
Fixpoint findBuildType (buildTypes : list buildType)
  (buildingFunction : string) : option buildType :=
  match buildTypes with
  | [] => None
  | bt :: t =>
      if String.eqb (subtype bt) buildingFunction then Some bt
      else findBuildType t buildingFunction
  end.

(** [parseFloat] of a value that is a number, [null] or [undefined]. *)
Definition parseFloatValue (v : value) : number :=
  match v with
  | Num x => x
  | _ => NaN
  end.

(** [x || 0] on a number: NaN and 0 are falsy. *)
Definition orZero (x : number) : number :=
  match x with
  | NaN => ofZ 0
  | _ => x
  end.

(** What a run of [calculateICIO] leaves behind: an alert and the results
    untouched, or the two results it sets. *)
Inductive calculation : Type :=
| Alert (message : string)
| Results (totalBudget calculatedICIO : number).

(** [cityData] is [null] or carries the [icio] of the city. *)
Definition calculateICIO (buildTypes : list buildType)
  (constructionType buildingFunction : string) (gfa : number)
  (specialConditions icioReduction : string) (cityData : option value)
  : calculation :=
  match cityData with
  | None =>
      Alert "Please select building function and ensure city data is available"
  | Some icio =>
      if String.eqb buildingFunction ""
      then Alert "Please select building function and ensure city data is available"
      else
        match findBuildType buildTypes buildingFunction with
        | None => Alert "Building function not found"
        | Some selectedBuildType =>
            let pemStart := pemStart selectedBuildType in
            let pemFinish := pemFinish selectedBuildType in
            let pemRange := JS.subN pemFinish pemStart in
            let pemMultiplier :=
              match findValue CONSTRUCTION_TYPES constructionType with
              | Some m => m
              | None => ofZ 1
              end in
            let uniqueCostPerM2 :=
              if String.eqb constructionType "new_construction"
              then pemFinish
              else if String.eqb constructionType "interior_refurbishment"
              then pemStart
              else JS.addN pemStart (JS.mulN pemMultiplier pemRange) in
            let totalCost := JS.mulN uniqueCostPerM2 gfa in
            let totalCost :=
              match findValue SPECIAL_CONDITIONS specialConditions with
              | Some percentage =>
                  if JS.ltN (ofZ 0) percentage
                  then JS.mulN totalCost
                         (JS.addN (ofZ 1) (JS.divN percentage (ofZ 100)))
                  else totalCost
              | None => totalCost
              end in
            let icioPercentage := orZero (parseFloatValue icio) in
            let icioAmount :=
              JS.mulN totalCost (JS.divN icioPercentage (ofZ 100)) in
            let icioAmount :=
              match findValue ICIO_REDUCTIONS icioReduction with
              | Some reduction =>
                  if JS.ltN (ofZ 0) reduction
                  then JS.mulN icioAmount
                         (JS.subN (ofZ 1) (JS.divN reduction (ofZ 100)))
                  else icioAmount
              | None => icioAmount
              end in
            Results totalCost icioAmount
        end
  end.

(** ** [parseCSVLine] and the loading of the build types
    (components/ICIOCalculator)

    [trim] and [parseFloat] are parameters. *)

Definition quoteChar : ascii := "034"%char.

Definition newline : ascii := "010"%char.

(** [text.split('\n')]. *)
Fixpoint splitLines (text : string) (current : string) : list string :=
  match text with
  | EmptyString => [current]
  | String char rest =>
      if Ascii.eqb char newline
      then current :: splitLines rest ""
      else splitLines rest (String.append current (String char ""))
  end.

Section BuildTypesLoader.

Variable trim : string -> string.
Variable parseFloat : string -> number.

Fixpoint parseCSVLineLoop (line : string) (current : string)
  (inQuotes : bool) (result : list string) : list string :=
  match line with
  | EmptyString => result ++ [trim current]
  | String char rest =>
      if Ascii.eqb char quoteChar
      then parseCSVLineLoop rest current (negb inQuotes) result
      else if Ascii.eqb char ","%char && negb inQuotes
      then parseCSVLineLoop rest "" inQuotes (result ++ [trim current])
      else parseCSVLineLoop rest (String.append current (String char ""))
             inQuotes result
  end.

Definition parseCSVLine (line : string) : list string :=
  parseCSVLineLoop line "" false [].

(** The body of the loop over the lines; [values[3]] can be missing, and
    [parseFloat(undefined)] is NaN. *)
Definition buildTypeOf (values : list string) : option buildType :=
  if (3 <=? length values)%nat
  then Some (BuildType (nth 0 values ""%string) (nth 1 values ""%string)
               (orZero (parseFloat (nth 2 values ""%string)))
               (orZero match nth_error values 3 with
                       | Some s => parseFloat s
                       | None => NaN
                       end)
               (nth 4 values ""%string) (nth 5 values ""%string))
  else None.

Fixpoint buildTypesLoop (lines : list string) : list buildType :=
  match lines with
  | [] => []
  | line :: rest =>
      match buildTypeOf (parseCSVLine line) with
      | Some bt => bt :: buildTypesLoop rest
      | None => buildTypesLoop rest
      end
  end.

(** What [loadBuildTypes] leaves in the state: the build types and the
    selected building function, which was [buildingFunction] before. *)
Definition loadBuildTypes (text : string) (buildingFunction : string)
  : list buildType * string :=
  let lines :=
    filter (fun line => negb (String.eqb (trim line) ""))
           (splitLines text "") in
  let types := buildTypesLoop (tl lines) in
  (types,
   match types with
   | [] => buildingFunction
   | first :: _ => subtype first
   end).

End BuildTypesLoader.

(** ** Machine arithmetic

    The arithmetic of the code is floating-point: every sum, difference,
    product and quotient is rounded, and can overflow to an infinity.  The
    functions that compute with numbers are therefore embedded a second
    time, with the arithmetic as a parameter; comparisons are exact in any
    case.  [exact] is the arithmetic without rounding of the sections
    above; [binary64] rounds every result to the nearest double, ties to
    even, as IEEE 754 prescribes and JavaScript does. *)

Record arithmetic : Type := Arithmetic {
  m_add : number -> number -> number;
  m_sub : number -> number -> number;
  m_mul : number -> number -> number;
  m_div : number -> number -> number;
  m_pow2 : number -> number
}.

Definition exact : arithmetic :=
  Arithmetic JS.addN JS.subN JS.mulN JS.divN JS.pow2.

(** [floor(log2(a / d))] for positive [a] and [d]. *)
Definition log2Floor (a d : Z) : Z :=
  let e := (Z.log2 a - Z.log2 d)%Z in
  if (a * 2 ^ Z.max 0 (- e) <? d * 2 ^ Z.max 0 e)%Z then (e - 1)%Z else e.

(** Rounding a quotient of non-negative integers to the nearest integer,
    ties to even. *)
Definition roundHalfEven (n d : Z) : Z :=
  let q := (n / d)%Z in
  let r := (n mod d)%Z in
  if (2 * r <? d)%Z then q
  else if (d <? 2 * r)%Z then (q + 1)%Z
  else if Z.even q then q else (q + 1)%Z.

(** The double nearest to a rational: 53 bits of precision, the least
    exponent of a bit is -1074, and a result of magnitude [2^1024] or more
    is an infinity. *)
Definition round64 (q : Qc) : number :=
  let n := Qnum q in
  let d := Zpos (Qden q) in
  if (n =? 0)%Z then Fin q
  else
    let a := Z.abs n in
    let ex := Z.max (log2Floor a d - 52) (-1074) in
    let m :=
      if (0 <=? ex)%Z then roundHalfEven a (d * 2 ^ ex)
      else roundHalfEven (a * 2 ^ (- ex)) d in
    if (0 <=? ex)%Z && (2 ^ 1024 <=? m * 2 ^ ex)%Z then Inf (n <? 0)%Z
    else
      let s := if (n <? 0)%Z then (- m)%Z else m in
      if (0 <=? ex)%Z then Fin (qz (s * 2 ^ ex))
      else Fin (Q2Qc (Qmake s (Z.to_pos (2 ^ (- ex))))).

Definition roundN (x : number) : number :=
  match x with
  | Fin q => round64 q
  | _ => x
  end.

(** [Math.pow(x, 2)] is the rounded square. *)
Definition binary64 : arithmetic :=
  Arithmetic (fun x y => roundN (JS.addN x y))
             (fun x y => roundN (JS.subN x y))
             (fun x y => roundN (JS.mulN x y))
             (fun x y => roundN (JS.divN x y))
             (fun x => roundN (JS.pow2 x)).

(** The double that a decimal literal denotes. *)
Definition dbl (q : Q) : number := round64 (Q2Qc q).

Module Machine.

Section Arith.

Variable A : arithmetic.

Definition varianceWithin (data : list number) (start end_ : nat) : number :=
  if (end_ <=? start)%nat then ofZ 0
  else
    let subset := slice data start (end_ + 1) in
    let mean :=
      m_div A (fold_left (m_add A) subset (ofZ 0)) (ofZ (JS.len subset)) in
    fold_left (fun sum val => m_add A sum (m_pow2 A (m_sub A val mean)))
      subset (ofZ 0).

Fixpoint loopK (sorted : list number) (i j k : nat) (todo : nat)
  (m : matrices) : matrices :=
  match todo with
  | O => m
  | S todo' =>
      let variance :=
        m_add A (varianceCombinations m (k - 1) (i - 1))
                (varianceWithin sorted (k - 1) (j - 1)) in
      let m' :=
        if JS.ltN variance (varianceCombinations m j i)
        then setVariance (setLimit m j i k) j i variance
        else m in
      loopK sorted i j (k + 1) todo' m'
  end.

Fixpoint loopJ (sorted : list number) (i j : nat) (todo : nat)
  (m : matrices) : matrices :=
  match todo with
  | O => m
  | S todo' =>
      let m' :=
        if (i =? 1)%nat
        then setLimit (setVariance m j 1 (varianceWithin sorted 0 (j - 1)))
                      j 1 1
        else loopK sorted i j i (j + 1 - i)
                   (setVariance m j i (Inf false)) in
      loopJ sorted i (j + 1) todo' m'
  end.

Fixpoint loopI (sorted : list number) (dataLength : nat) (i : nat)
  (todo : nat) (m : matrices) : matrices :=
  match todo with
  | O => m
  | S todo' =>
      let m1 := setVariance (setLimit m 1 i 1) 1 i (ofZ 0) in
      let m2 := loopJ sorted i 2 (dataLength - 1) m1 in
      loopI sorted dataLength (i + 1) todo' m2
  end.

Definition jenksMatrices (sorted : list number) (nClasses : nat) : matrices :=
  loopI sorted (length sorted) 1 nClasses zeros.

Definition jenksBreaks (data : list value) (nClasses : nat)
  : outcome (list value) :=
  if (length data =? 0)%nat then Returns []
  else
    let cleanData := cleanData data in
    if (length cleanData =? 0)%nat then Returns []
    else
      let sorted := sortNumbers cleanData in
      if (length sorted <=? nClasses)%nat
      then Returns (map Num (newSet sorted))
      else
        let dataLength := length sorted in
        let m := jenksMatrices sorted nClasses in
        match
          extractLoop sorted (lowerClassLimits m) nClasses
            (Z.of_nat dataLength) []
        with
        | Throws => Throws
        | Returns breaks =>
            let breaks := aset breaks 0 (JS.get (map Num sorted) 0) in
            let breaks :=
              aset breaks nClasses
                (JS.get (map Num sorted) (Z.of_nat dataLength - 1)) in
            Returns (removeDuplicates breaks)
        end.

Definition appNaturalBreaks (icios : list value)
  : outcome (option (list value)) :=
  if (length icios =? 0)%nat then Returns None
  else
    let icioValues := appIcioValues icios in
    if (length icioValues =? 0)%nat then Returns None
    else
      match jenksBreaks icioValues 12 with
      | Throws => Throws
      | Returns breaks => Returns (Some breaks)
      end.

Definition calculateICIO (buildTypes : list buildType)
  (constructionType buildingFunction : string) (gfa : number)
  (specialConditions icioReduction : string) (cityData : option value)
  : calculation :=
  match cityData with
  | None =>
      Alert "Please select building function and ensure city data is available"
  | Some icio =>
      if String.eqb buildingFunction ""
      then Alert "Please select building function and ensure city data is available"
      else
        match findBuildType buildTypes buildingFunction with
        | None => Alert "Building function not found"
        | Some selectedBuildType =>
            let pemStart := pemStart selectedBuildType in
            let pemFinish := pemFinish selectedBuildType in
            let pemRange := m_sub A pemFinish pemStart in
            let pemMultiplier :=
              match findValue CONSTRUCTION_TYPES constructionType with
              | Some m => m
              | None => ofZ 1
              end in
            let uniqueCostPerM2 :=
              if String.eqb constructionType "new_construction"
              then pemFinish
              else if String.eqb constructionType "interior_refurbishment"
              then pemStart
              else m_add A pemStart (m_mul A pemMultiplier pemRange) in
            let totalCost := m_mul A uniqueCostPerM2 gfa in
            let totalCost :=
              match findValue SPECIAL_CONDITIONS specialConditions with
              | Some percentage =>
                  if JS.ltN (ofZ 0) percentage
                  then m_mul A totalCost
                         (m_add A (ofZ 1) (m_div A percentage (ofZ 100)))
                  else totalCost
              | None => totalCost
              end in
            let icioPercentage := orZero (parseFloatValue icio) in
            let icioAmount :=
              m_mul A totalCost (m_div A icioPercentage (ofZ 100)) in
            let icioAmount :=
              match findValue ICIO_REDUCTIONS icioReduction with
              | Some reduction =>
                  if JS.ltN (ofZ 0) reduction
                  then m_mul A icioAmount
                         (m_sub A (ofZ 1) (m_div A reduction (ofZ 100)))
                  else icioAmount
              | None => icioAmount
              end in
            Results totalCost icioAmount
        end
  end.

End Arith.

End Machine.

(** ** Specification-side notions *)

(** The conditions under which the Color Resolver falls back to gray. *)
Definition fallsBack (icio : value) (breaks : list value) (colors : list rgb)
  : Prop :=
  (icio = Null \/ icio = Undefined \/ icio = Num NaN)
  \/ (length breaks < 2)%nat
  \/ getClassIndex icio breaks = (-1)%Z
  \/ (JS.len colors <= getClassIndex icio breaks)%Z.

(** The palette entry of the class of [icio], when the index is inside the
    palette. *)
Definition paletteEntry (icio : value) (breaks : list value)
  (colors : list rgb) : option rgb :=
  nth_error colors (Z.to_nat (getClassIndex icio breaks)).

(** An entry the Sample Preparer drops. *)
Definition isInvalidEntry (d : value) : bool :=
  match d with
  | Null | Undefined | Num NaN => true
  | _ => false
  end.

Definition dropInvalid (raw : list value) : list value :=
  filter (fun d => negb (isInvalidEntry d)) raw.

(** Reading a list of rationals at an integer index. *)
Definition bget (bs : list Qc) (i : Z) : Qc := nth (Z.to_nat i) bs 0%Qc.

(** [v] lies in class [t] of the breaks [bs]. *)
Definition inClass (bs : list Qc) (v : Qc) (t : Z) : Prop :=
  (bget bs t <= v)%Qc /\ (v < bget bs (t + 1))%Qc.

(** The ratio [i / (numClasses - 1)] of the palette loop, when finite. *)
Definition ratioQ (numClasses i : Z) : Qc := (qz i / qz (numClasses - 1))%Qc.

Definition halfQ : Qc := Q2Qc (1 # 2).

(** Sum of squared deviations from the mean, on exact rationals. *)
Definition sumQ (l : list Qc) : Qc := fold_left Qcplus l 0%Qc.

Definition meanQ (l : list Qc) : Qc := (sumQ l / qz (JS.len l))%Qc.

Definition sumSqDev (l : list Qc) : Qc :=
  fold_left (fun s x => (s + (x - meanQ l) * (x - meanQ l))%Qc) l 0%Qc.

(** The variance of the segment [start..end_] of finite data: 0 for an empty
    or single-element segment. *)
Definition varQ (qs : list Qc) (start end_ : nat) : Qc :=
  if (end_ <=? start)%nat then 0%Qc
  else sumSqDev (slice qs start (end_ + 1)).

(** Ascending sort of rationals. *)
Fixpoint insQ (x : Qc) (l : list Qc) : list Qc :=
  match l with
  | [] => [x]
  | y :: t => if JS.Qcltb y x then y :: insQ x t else x :: y :: t
  end.

Definition sortQ (l : list Qc) : list Qc := fold_right insQ [] l.

(** The first occurrences of the values of [l] that are not in [seen]. *)
Fixpoint firstOcc (seen : list Qc) (l : list Qc) : list Qc :=
  match l with
  | [] => []
  | x :: t =>
      if existsb (fun y => JS.Qceqb y x) seen then firstOcc seen t
      else x :: firstOcc (seen ++ [x]) t
  end.

(** Number of unique values of a sample. *)
Definition uniqueCount (l : list Qc) : nat := length (nodup Qc_eq_dec l).

Definition isMin (x : Qc) (l : list Qc) : Prop :=
  In x l /\ forall y, In y l -> (x <= y)%Qc.

Definition isMax (x : Qc) (l : list Qc) : Prop :=
  In x l /\ forall y, In y l -> (y <= x)%Qc.

Definition sameCell (m m' : matrices) (r c : nat) : Prop :=
  lowerClassLimits m' r c = lowerClassLimits m r c
  /\ varianceCombinations m' r c = varianceCombinations m r c.

(** The lower class limits met while backtracking from row [k] through the
    columns [j], [j - 1], ..., 1, listed for the classes 1 to [j]. *)
Fixpoint path (limits : table nat) (j k : nat) : list nat :=
  match j with
  | O => []
  | S j' => path limits j' (limits k j - 1) ++ [limits k j]
  end.

(** Every backtracking step stays inside the filled part of the table. *)
Definition rangeOK (limits : table nat) (nClasses n : nat) : Prop :=
  forall j k, 1 <= j <= nClasses -> j <= k <= n ->
  j <= limits k j <= k.

(** ** Notions for the further properties *)

(** The finite numbers among raw entries, in order. *)
Fixpoint finiteValues (raw : list value) : list Qc :=
  match raw with
  | [] => []
  | Num (Fin q) :: t => q :: finiteValues t
  | _ :: t => finiteValues t
  end.

(** No entry of the raw data is an infinity. *)
Definition noInfinity (raw : list value) : Prop :=
  forall b, ~ In (Num (Inf b)) raw.

(** A partition of the first [j] values into contiguous non-empty classes,
    given by the lower limits (1-based first positions) of its classes, the
    last class first: the last class is [s .. j], the classes before it
    partition the first [s - 1] values. *)
Fixpoint validPart (limits : list nat) (j : nat) : Prop :=
  match limits with
  | [] => j = 0
  | s :: rest => 1 <= s <= j /\ validPart rest (s - 1)
  end.

(** The total within-class sum of squared deviations of such a partition. *)
Fixpoint partCost (qs : list Qc) (limits : list nat) (j : nat) : Qc :=
  match limits with
  | [] => 0%Qc
  | s :: rest => (varQ qs (s - 1) (j - 1) + partCost qs rest (s - 1))%Qc
  end.

(** Reading a text of lowercase hexadecimal digits back, as a browser reads
    the two digits of a channel in a color of the form #rrggbb. *)
Definition digitValue (c : ascii) : option Z :=
  match String.index 0 (String c "") "0123456789abcdef" with
  | Some i => Some (Z.of_nat i)
  | None => None
  end.

Fixpoint parseHexFrom (s : string) (acc : Z) : option Z :=
  match s with
  | EmptyString => Some acc
  | String c rest =>
      match digitValue c with
      | Some d => parseHexFrom rest (16 * acc + d)
      | None => None
      end
  end.

Definition parseHex (s : string) : option Z :=
  match s with
  | EmptyString => None
  | _ => parseHexFrom s 0
  end.

(** The two digits that [rgbToHex] writes for a channel. *)
Definition hex2 (x : Z) : string :=
  let hex := toString16 x in
  if (String.length hex =? 1)%nat then String.append "0" hex else hex.

(** The calculation in closed form, on rationals: the share of the PEM
    range that a construction type takes (all of it for a key that is not
    in the table), the factor of a special condition and the factor of a
    reduction (1 for keys that are not in their tables). *)

(** Writing a line of fields, some of them between double quotes. *)

Fixpoint hasChar (c : ascii) (s : string) : bool :=
  match s with
  | EmptyString => false
  | String a t => Ascii.eqb a c || hasChar c t
  end.

Definition csvField (text : string) (quoted : bool) : string :=
  if quoted
  then String quoteChar (String.append text (String quoteChar ""))
  else text.

Definition csvLine (fields : list (string * bool)) : string :=
  String.concat "," (map (fun f => csvField (fst f) (snd f)) fields).

(** ** Notions for the machine arithmetic *)

(** A recorded split of the cell [(j, i)] lies in [i..j]; 0 is what the
    cell holds when no candidate was below the Infinity it starts from. *)
Definition limitOK (i j v : nat) : Prop := v = 0 \/ i <= v <= j.

Definition limitsOK (m : matrices) : Prop :=
  forall row c, 2 <= c -> 2 <= row ->
  limitOK c row (lowerClassLimits m row c).

Definition firstColumn (m : matrices) (rows : nat) : Prop :=
  forall row, 1 <= row < rows -> lowerClassLimits m row 1 = 1.

(** Every cell that backtracking can read holds a split. *)
Definition recorded (limits : table nat) (nClasses n : nat) : Prop :=
  forall i j, 2 <= i <= nClasses -> i <= j <= n -> limits j i <> 0.

Definition recordedb (limits : table nat) (nClasses n : nat) : bool :=
  forallb (fun i =>
             forallb (fun j => negb (limits j i =? 0)%nat)
                     (seq i (n + 1 - i)))
          (seq 2 (nClasses - 1)).

(** The run of [jenksBreaks] on a finite sample either takes the short way
    (no more values than classes) or fills the matrices and records a
    split in every cell. *)
Definition splitsRecorded (A : arithmetic) (sample : list Qc)
  (nClasses : nat) : Prop :=
  length sample <= nClasses
  \/ recorded
       (lowerClassLimits
          (Machine.jenksMatrices A (map Fin (sortQ sample)) nClasses))
       nClasses (length sample).

Definition splitsRecordedb (A : arithmetic) (sample : list Qc)
  (nClasses : nat) : bool :=
  (length sample <=? nClasses)%nat
  || recordedb
       (lowerClassLimits
          (Machine.jenksMatrices A (map Fin (sortQ sample)) nClasses))
       nClasses (length sample).

(** The break candidates that backtracking through [limits] reads from the
    sorted data, before duplicate removal. *)
Definition breaksAt (limits : table nat) (sq : list Qc) (nClasses : nat)
  : list Qc :=
  nth 0 sq 0%Qc
  :: map (fun s => nth (s - 1) sq 0%Qc)
         (tl (path limits nClasses (length sq)))
  ++ [nth (length sq - 1) sq 0%Qc].

Definition breakIndicesAt (limits : table nat) (sq : list Qc)
  (nClasses : nat) : list nat :=
  0 :: map (fun s => s - 1) (tl (path limits nClasses (length sq)))
    ++ [length sq - 1].

(** The rational that a finite number is. *)
Definition finite (x : number) : Qc :=
  match x with
  | Fin q => q
  | _ => 0%Qc
  end.

(** The candidate total that the inner loop computes for the split index
    [s], in the arithmetic [A]. *)
Definition machineCand (A : arithmetic) (sorted : list number)
  (m : matrices) (i j s : nat) : number :=
  m_add A (varianceCombinations m (s - 1) (i - 1))
          (Machine.varianceWithin A sorted (s - 1) (j - 1)).

(** [x < y], as the code compares numbers. *)
Definition below (x y : number) : Prop := JS.ltN x y = true.

(** The mean and the sum of squared deviations from it, as the arithmetic
    [A] computes them: the values are added up in order, and every
    operation gives the result of [A]. *)
Definition machineMean (A : arithmetic) (l : list number) : number :=
  m_div A (fold_left (m_add A) l (ofZ 0)) (ofZ (Z.of_nat (length l))).

Definition machineSumSqDev (A : arithmetic) (l : list number) : number :=
  fold_left
    (fun sum val => m_add A sum (m_pow2 A (m_sub A val (machineMean A l))))
    l (ofZ 0).

(** What the cell [(j, i)] holds when the candidates [c s] for [s] in
    [i..k-1] have been compared: Infinity while none of them was below
    Infinity; after that the least of them, with the first split index
    that has it. *)
Definition cellState (c : nat -> number) (i k : nat) (v : number) (l : nat)
  : Prop :=
  (v = Inf false /\ forall s, i <= s < k -> ~ below (c s) (Inf false))
  \/ (i <= l < k /\ v = c l /\ below v (Inf false)
      /\ (forall s, i <= s < k -> ~ below (c s) v)
      /\ (forall s, i <= s < l -> c s <> v)).

(** No entry of the raw data is an infinity, decided. *)
Definition noInfinityb (raw : list value) : bool :=
  forallb (fun v => match v with Num (Inf _) => false | _ => true end) raw.

(** The icio values of a data set of sixteen features, as the CSV parser
    reads their percentages; one feature has none. *)
Definition exampleIcios : list value :=
  [Num (dbl 4); Num (dbl 3.5); Null; Num (dbl 2.4); Num (dbl 4);
   Num (dbl 3.2); Num (dbl 2); Num (dbl 3.75); Num (dbl 2.8); Num (dbl 3);
   Num (dbl 3.9); Num (dbl 2.5); Num (dbl 3.6); Num (dbl 1.5);
   Num (dbl 2.95); Num (dbl 3.3)].

(** ** Tactics *)

(** Order goals over [Qc] are sent to [lra] over [Q]. *)
Ltac qorder := unfold Qcle, Qclt in *; lra.

Ltac qconcrete := unfold Qcle, Qclt, Qle, Qlt; simpl; lia.

(** Arithmetic over [Qc] is sent to [Q]. *)
Ltac to_Q :=
  unfold Qcle, Qclt, Qcdiv, Qcminus, Qcmult, Qcplus, Qcopp, Qcinv, qz, Q2Qc
    in *;
  cbn [this] in *;
  repeat rewrite Qred_correct in *;
  repeat match goal with
    | |- context [inject_Z (Zpos ?p)] =>
        change (inject_Z (Zpos p)) with (Zpos p # 1)%Q
    | H : context [inject_Z (Zpos ?p)] |- _ =>
        change (inject_Z (Zpos p)) with (Zpos p # 1)%Q in H
    | |- context [inject_Z 0] => change (inject_Z 0) with 0%Q
    | H : context [inject_Z 0] |- _ => change (inject_Z 0) with 0%Q in H
    end.

(** * Properties *)

(** ** Order on the rationals, reflected *)

Lemma Qcltb_true (a b : Qc) : JS.Qcltb a b = true <-> (a < b)%Qc.
Proof.
  unfold JS.Qcltb. rewrite Qclt_alt.
  destruct (a ?= b)%Qc; split; congruence.
Qed.

Lemma Qcltb_false (a b : Qc) : JS.Qcltb a b = false <-> (b <= a)%Qc.
Proof.
  split; intro H.
  - apply Qcnot_lt_le. intro L. apply Qcltb_true in L. congruence.
  - destruct (JS.Qcltb a b) eqn:E; [|reflexivity].
    apply Qcltb_true in E. exfalso. exact (Qcle_not_lt _ _ H E).
Qed.

Lemma Qceqb_true (a b : Qc) : JS.Qceqb a b = true <-> a = b.
Proof.
  unfold JS.Qceqb. rewrite Qceq_alt.
  destruct (a ?= b)%Qc; split; congruence.
Qed.

Lemma Qceqb_refl (a : Qc) : JS.Qceqb a a = true.
Proof. now apply Qceqb_true. Qed.

Lemma Qceqb_false (a b : Qc) : JS.Qceqb a b = false <-> a <> b.
Proof.
  split; intro H.
  - intro E. apply Qceqb_true in E. congruence.
  - destruct (JS.Qceqb a b) eqn:E; [|reflexivity].
    apply Qceqb_true in E. contradiction.
Qed.

Lemma ge_num (a b : Qc) : JS.ge (num a) (num b) = true <-> (b <= a)%Qc.
Proof.
  unfold JS.ge, num; simpl. rewrite negb_true_iff. apply Qcltb_false.
Qed.

Lemma lt_num (a b : Qc) : JS.lt (num a) (num b) = true <-> (a < b)%Qc.
Proof. unfold JS.lt, num; simpl. apply Qcltb_true. Qed.

Lemma leN_fin (a b : Qc) : JS.leN (Fin a) (Fin b) = true <-> (a <= b)%Qc.
Proof.
  unfold JS.leN, JS.geN, JS.ltN. rewrite negb_true_iff. apply Qcltb_false.
Qed.

Lemma ge_undefined (v : value) : JS.ge v Undefined = false.
Proof. unfold JS.ge; simpl. now destruct (JS.toNumber v). Qed.

(** ** Reading arrays of finite numbers *)

Lemma get_num (bs : list Qc) (i : Z) :
  (0 <= i < JS.len bs)%Z -> JS.get (map num bs) i = num (bget bs i).
Proof.
  intros [H0 H1]. unfold JS.get, bget, JS.len in *.
  destruct (i <? 0)%Z eqn:E; [lia|].
  rewrite (nth_indep _ Undefined (num 0%Qc)) by (rewrite length_map; lia).
  apply map_nth.
Qed.

Lemma get_outside (a : list value) (i : Z) :
  (i < 0 \/ JS.len a <= i)%Z -> JS.get a i = Undefined.
Proof.
  unfold JS.get, JS.len. intros H.
  destruct (i <? 0)%Z eqn:E; [reflexivity|].
  apply nth_overflow. lia.
Qed.

Lemma len_map {A B : Type} (f : A -> B) (l : list A) :
  JS.len (map f l) = JS.len l.
Proof. unfold JS.len. now rewrite length_map. Qed.

Lemma sorted_bget (bs : list Qc) :
  Sorted Qcle bs ->
  forall i j, (0 <= i <= j)%Z -> (j < JS.len bs)%Z ->
  (bget bs i <= bget bs j)%Qc.
Proof.
  intros HS. apply Sorted_StronglySorted in HS.
  2:{ intros x y z. apply Qcle_trans. }
  unfold bget, JS.len.
  induction HS as [|a l HS IH HF]; intros i j Hij Hj; simpl in *.
  - lia.
  - destruct (Z.to_nat i) as [|i'] eqn:Ei, (Z.to_nat j) as [|j'] eqn:Ej;
      try lia.
    + apply Qcle_refl.
    + rewrite Forall_forall in HF. apply HF. apply nth_In. lia.
    + specialize (IH (Z.of_nat i') (Z.of_nat j')).
      rewrite !Nat2Z.id in IH. apply IH; lia.
Qed.

(** ** The scanning loop of [getClassIndex] *)

Lemma classScan_some (bs : list Qc) (v : Qc) (todo : nat) :
  forall i r,
  (0 <= i)%Z -> (i + Z.of_nat todo <= JS.len bs - 1)%Z ->
  classScan (num v) (map num bs) i todo = Some r ->
  (i <= r < i + Z.of_nat todo)%Z /\ inClass bs v r /\
  forall t, (i <= t < r)%Z -> ~ inClass bs v t.
Proof.
  induction todo as [|todo IH]; intros i r Hi Hn H; simpl in H.
  - discriminate.
  - rewrite !get_num in H by lia.
    destruct (JS.ge (num v) (num (bget bs i))
              && JS.lt (num v) (num (bget bs (i + 1)))) eqn:E.
    + injection H as <-. apply andb_true_iff in E as [E1 E2].
      apply ge_num in E1. apply lt_num in E2.
      repeat split; try lia; try assumption.
    + apply IH in H; try lia. destruct H as (Hr & Hc & Hfirst).
      repeat split; try lia; try apply Hc.
      intros t Ht [C1 C2].
      destruct (Z.eq_dec t i) as [->|Hne].
      * apply ge_num in C1. apply lt_num in C2.
        rewrite C1, C2 in E. discriminate.
      * apply (Hfirst t); [lia|]. now split.
Qed.

Lemma classScan_none (bs : list Qc) (v : Qc) (todo : nat) :
  forall i,
  (0 <= i)%Z -> (i + Z.of_nat todo <= JS.len bs - 1)%Z ->
  classScan (num v) (map num bs) i todo = None ->
  forall t, (i <= t < i + Z.of_nat todo)%Z -> ~ inClass bs v t.
Proof.
  induction todo as [|todo IH]; intros i Hi Hn H t Ht; simpl in H.
  - lia.
  - rewrite !get_num in H by lia.
    destruct (JS.ge (num v) (num (bget bs i))
              && JS.lt (num v) (num (bget bs (i + 1)))) eqn:E;
      [discriminate|].
    intros [C1 C2]. destruct (Z.eq_dec t i) as [->|Hne].
    + apply ge_num in C1. apply lt_num in C2.
      rewrite C1, C2 in E. discriminate.
    + apply (IH (i + 1)%Z) with (t := t); try lia; try assumption.
      now split.
Qed.

(** When no class matches, a value at or above the first boundary is at or
    above every boundary. *)
Lemma above_all (bs : list Qc) (v : Qc) (n : nat) :
  (bget bs 0 <= v)%Qc ->
  (forall t, (0 <= t < Z.of_nat n)%Z -> ~ inClass bs v t) ->
  forall t, (0 <= t <= Z.of_nat n)%Z -> (bget bs t <= v)%Qc.
Proof.
  intros H0 Hno t Ht.
  rewrite <- (Z2Nat.id t) by lia.
  assert (Hb : (Z.to_nat t <= n)%nat) by lia.
  induction (Z.to_nat t) as [|k IH]; [exact H0|].
  assert (Hk : (bget bs (Z.of_nat k) <= v)%Qc) by (apply IH; lia).
  destruct (Qclt_le_dec v (bget bs (Z.of_nat (S k)))) as [L|L]; [|exact L].
  exfalso. apply (Hno (Z.of_nat k)); [lia|].
  split; [exact Hk|]. now replace (Z.of_nat k + 1)%Z with (Z.of_nat (S k)) by lia.
Qed.

Lemma getClassIndex_num (bs : list Qc) (v : Qc) :
  getClassIndex (num v) (map num bs) =
  match classScan (num v) (map num bs) 0 (Z.to_nat (JS.len bs - 1)) with
  | Some i => i
  | None =>
      if JS.ge (num v) (JS.get (map num bs) (JS.len bs - 2))
      then (JS.len bs - 2)%Z else (-1)%Z
  end.
Proof. unfold getClassIndex. simpl. now rewrite len_map. Qed.

Lemma getClassIndex_lower (v : value) (breaks : list value) :
  (-1 <= getClassIndex v breaks)%Z.
Proof.
  unfold getClassIndex. destruct (isMissing v); [lia|].
  assert (G : forall todo i r, (0 <= i)%Z ->
            classScan v breaks i todo = Some r -> (0 <= r)%Z).
  { induction todo as [|todo IH]; intros i r Hi H; simpl in H;
      [discriminate|].
    destruct (JS.ge v (JS.get breaks i) && JS.lt v (JS.get breaks (i + 1))).
    - injection H as <-. exact Hi.
    - apply IH in H; lia. }
  destruct (classScan v breaks 0 _) eqn:E.
  - apply G in E; lia.
  - destruct (JS.ge v (JS.get breaks (JS.len breaks - 2))) eqn:Eg; [|lia].
    destruct (Z_lt_le_dec (JS.len breaks - 2) 0) as [L|L]; [|lia].
    rewrite get_outside, ge_undefined in Eg by lia. discriminate.
Qed.

(** ** Class Assigner *)

Lemma classScan_short (v : value) (breaks : list value) :
  (length breaks < 2)%nat -> getClassIndex v breaks = (-1)%Z.
Proof.
  intros H. unfold getClassIndex. destruct (isMissing v); [reflexivity|].
  replace (Z.to_nat (JS.len breaks - 1)) with O by (unfold JS.len; lia).
  simpl. rewrite get_outside, ge_undefined; [reflexivity|].
  unfold JS.len; lia.
Qed.

Lemma scan_none_above (bs : list Qc) (v : Qc) :
  (2 <= length bs)%nat -> (bget bs 0 <= v)%Qc ->
  classScan (num v) (map num bs) 0 (Z.to_nat (JS.len bs - 1)) = None ->
  forall t, (0 <= t <= JS.len bs - 1)%Z -> (bget bs t <= v)%Qc.
Proof.
  intros Hlen H0 E t Ht.
  apply (above_all bs v (Z.to_nat (JS.len bs - 1)) H0);
    unfold JS.len in *; try lia.
  intros t' Ht'.
  apply (classScan_none bs v (Z.to_nat (Z.of_nat (length bs) - 1)) 0%Z);
    unfold JS.len; try lia.
  exact E.
Qed.

(** C6. [getClassIndex] is total with a sentinel: for non-decreasing breaks
    with at least two entries every value between the first and the last
    boundary gets an index in [0, len-2]; the result is -1 for a null,
    undefined or NaN value, for breaks with fewer than two entries, and for
    a value below the first boundary. *)
Theorem getClassIndex_total :
  (forall (bs : list Qc) (v : Qc),
      Sorted Qcle bs -> (2 <= length bs)%nat ->
      (bget bs 0 <= v)%Qc -> (v <= bget bs (JS.len bs - 1))%Qc ->
      (0 <= getClassIndex (num v) (map num bs) <= JS.len bs - 2)%Z) /\
  (forall (v : value) (breaks : list value),
      v = Null \/ v = Undefined \/ v = Num NaN ->
      getClassIndex v breaks = (-1)%Z) /\
  (forall (v : value) (breaks : list value),
      (length breaks < 2)%nat -> getClassIndex v breaks = (-1)%Z) /\
  (forall (bs : list Qc) (v : Qc),
      Sorted Qcle bs -> (v < bget bs 0)%Qc ->
      getClassIndex (num v) (map num bs) = (-1)%Z).
Proof.
  repeat split.
  - pose proof (getClassIndex_lower (num v) (map num bs)) as L.
    rewrite getClassIndex_num in *.
    destruct (classScan _ _ _ _) as [r|] eqn:E.
    + apply classScan_some in E; unfold JS.len in *; lia.
    + assert (G : (bget bs (JS.len bs - 2) <= v)%Qc)
        by (apply scan_none_above; unfold JS.len; try assumption; lia).
      rewrite get_num by (unfold JS.len; lia).
      apply ge_num in G. rewrite G. unfold JS.len; lia.
  - rewrite getClassIndex_num.
    destruct (classScan _ _ _ _) as [r|] eqn:E.
    + apply classScan_some in E; unfold JS.len in *; lia.
    + assert (G : (bget bs (JS.len bs - 2) <= v)%Qc)
        by (apply scan_none_above; unfold JS.len; try assumption; lia).
      rewrite get_num by (unfold JS.len; lia).
      apply ge_num in G. rewrite G. unfold JS.len; lia.
  - intros v breaks [-> | [-> | ->]]; reflexivity.
  - intros v breaks. apply classScan_short.
  - intros bs v HS Hv.
    destruct (le_lt_dec 2 (length bs)) as [Hlen|Hlen];
      [|apply classScan_short; now rewrite length_map].
    rewrite getClassIndex_num.
    destruct (classScan _ _ _ _) as [r|] eqn:E.
    + apply classScan_some in E; unfold JS.len in *; try lia.
      destruct E as (Hr & [C _] & _). exfalso.
      assert (B : (bget bs 0 <= bget bs r)%Qc)
        by (apply sorted_bget; unfold JS.len; try assumption; lia).
      qorder.
    + rewrite get_num by (unfold JS.len; lia).
      destruct (JS.ge _ _) eqn:G; [|reflexivity]. exfalso.
      apply ge_num in G.
      assert (B : (bget bs 0 <= bget bs (JS.len bs - 2))%Qc)
        by (apply sorted_bget; unfold JS.len; try assumption; lia).
      qorder.
Qed.

Lemma sorted_1_4_7_10 : Sorted Qcle [qz 1; qz 4; qz 7; qz 10].
Proof. repeat constructor; qconcrete. Qed.

Lemma getClassIndex_total_witness :
  (0 <= getClassIndex (num (qz 5)) (map num [qz 1; qz 4; qz 7; qz 10]) <= 2)%Z
  /\ getClassIndex Undefined (map num [qz 1; qz 4]) = (-1)%Z
  /\ getClassIndex (num (qz 3)) [num (qz 1)] = (-1)%Z
  /\ getClassIndex (num (qz 0)) (map num [qz 1; qz 4; qz 7; qz 10]) = (-1)%Z.
Proof.
  destruct getClassIndex_total as (A & B & C & D).
  split; [|split; [|split]].
  - apply (A [qz 1; qz 4; qz 7; qz 10] (qz 5) sorted_1_4_7_10).
    + simpl; lia.
    + qconcrete.
    + qconcrete.
  - apply B. right; left; reflexivity.
  - apply C. simpl; lia.
  - apply (D [qz 1; qz 4; qz 7; qz 10] (qz 0) sorted_1_4_7_10). qconcrete.
Defined.

Lemma monotone_on_rationals (bs : list Qc) (v1 v2 : Qc) :
  Sorted Qcle bs -> (2 <= length bs)%nat -> (v1 <= v2)%Qc ->
  (getClassIndex (num v1) (map num bs)
   <= getClassIndex (num v2) (map num bs))%Z.
Proof.
  intros HS Hlen Hv.
  pose proof (getClassIndex_lower (num v2) (map num bs)) as Low2.
  rewrite !getClassIndex_num in *.
  assert (Hin : forall t, (0 <= t <= JS.len bs - 1)%Z ->
                (bget bs 0 <= bget bs t)%Qc)
    by (intros t Ht; apply sorted_bget; unfold JS.len in *;
        try assumption; lia).
  assert (Hmax : forall t, (0 <= t <= JS.len bs - 1)%Z ->
                 (bget bs t <= bget bs (JS.len bs - 1))%Qc)
    by (intros t Ht; apply sorted_bget; unfold JS.len in *;
        try assumption; lia).
  destruct (classScan (num v1) _ _ _) as [r1|] eqn:E1.
  - apply classScan_some in E1; [|lia|unfold JS.len; lia].
    destruct E1 as (Hr1 & [C1 C1'] & _).
    assert (B0 : (bget bs 0 <= v2)%Qc).
    { specialize (Hin r1). assert (bget bs 0 <= bget bs r1)%Qc
        by (apply Hin; unfold JS.len in *; lia). qorder. }
    destruct (classScan (num v2) _ _ _) as [r2|] eqn:E2.
    + apply classScan_some in E2; [|lia|unfold JS.len; lia].
      destruct E2 as (Hr2 & [C2 C2'] & _).
      destruct (Z_lt_le_dec r2 r1) as [L|L]; [exfalso|exact L].
      assert (bget bs (r2 + 1) <= bget bs r1)%Qc
        by (apply sorted_bget; unfold JS.len in *; try assumption; lia).
      qorder.
    + pose proof (scan_none_above bs v2 Hlen B0 E2) as A2.
      rewrite get_num by (unfold JS.len; lia).
      assert (G : (bget bs (JS.len bs - 2) <= v2)%Qc)
        by (apply A2; unfold JS.len; lia).
      apply ge_num in G. rewrite G. unfold JS.len in *; lia.
  - rewrite get_num in * by (unfold JS.len; lia).
    destruct (JS.ge (num v1) _) eqn:G1.
    2:{ destruct (classScan (num v2) _ _ _); [|destruct (JS.ge _ _)]; lia. }
    apply ge_num in G1.
    assert (B1 : (bget bs 0 <= v1)%Qc).
    { assert (bget bs 0 <= bget bs (JS.len bs - 2))%Qc
        by (apply Hin; unfold JS.len; lia). qorder. }
    pose proof (scan_none_above bs v1 Hlen B1 E1) as A1.
    assert (T1 : (bget bs (JS.len bs - 1) <= v1)%Qc)
      by (apply A1; unfold JS.len; lia).
    destruct (classScan (num v2) _ _ _) as [r2|] eqn:E2.
    + apply classScan_some in E2; [|lia|unfold JS.len; lia].
      destruct E2 as (Hr2 & [C2 C2'] & _). exfalso.
      assert (bget bs (r2 + 1) <= bget bs (JS.len bs - 1))%Qc
        by (apply Hmax; unfold JS.len in *; lia).
      qorder.
    + assert (G2 : (bget bs (JS.len bs - 2) <= v2)%Qc) by qorder.
      apply ge_num in G2. rewrite G2. lia.
Qed.

Lemma classScan_upper (v : value) (breaks : list value) (todo : nat) :
  forall i r, classScan v breaks i todo = Some r -> (r < i + Z.of_nat todo)%Z.
Proof.
  induction todo as [|todo IH]; intros i r H; simpl in H; [discriminate|].
  destruct (JS.ge v (JS.get breaks i) && JS.lt v (JS.get breaks (i + 1))).
  - injection H as <-. lia.
  - apply IH in H. lia.
Qed.

Lemma getClassIndex_upper (v : value) (breaks : list value) :
  (2 <= length breaks)%nat ->
  (getClassIndex v breaks <= JS.len breaks - 2)%Z.
Proof.
  intros H. unfold getClassIndex, JS.len in *.
  destruct (isMissing v); [lia|].
  destruct (classScan v breaks 0 _) as [r|] eqn:E.
  - apply classScan_upper in E. lia.
  - destruct (JS.ge _ _); lia.
Qed.

Lemma classScan_plus_infinity (breaks : list value) (todo : nat) :
  forall i, classScan (Num (Inf false)) breaks i todo = None.
Proof.
  induction todo as [|todo IH]; intros i; simpl; [reflexivity|].
  assert (E : JS.lt (Num (Inf false)) (JS.get breaks (i + 1)) = false).
  { unfold JS.lt. simpl. now destruct (JS.toNumber _) as [|q|[|]]. }
  rewrite E, andb_false_r. apply IH.
Qed.

Lemma getClassIndex_plus_infinity (bs : list Qc) :
  (2 <= length bs)%nat ->
  getClassIndex (Num (Inf false)) (map num bs) = (JS.len bs - 2)%Z.
Proof.
  intros H. unfold getClassIndex. cbn [isMissing JS.isNaN JS.toNumber].
  rewrite classScan_plus_infinity, len_map.
  rewrite get_num by (unfold JS.len; lia). reflexivity.
Qed.

Lemma classScan_minus_infinity (bs : list Qc) (todo : nat) :
  forall i, classScan (Num (Inf true)) (map num bs) i todo = None.
Proof.
  induction todo as [|todo IH]; intros i; simpl; [reflexivity|].
  assert (E : JS.ge (Num (Inf true)) (JS.get (map num bs) i) = false).
  { unfold JS.ge, JS.get. destruct (i <? 0)%Z; [reflexivity|].
    destruct (nth_in_or_default (Z.to_nat i) (map num bs) Undefined)
      as [Hin | ->]; [|reflexivity].
    apply in_map_iff in Hin as (q & <- & _). reflexivity. }
  rewrite E. apply IH.
Qed.

Lemma getClassIndex_minus_infinity (bs : list Qc) :
  getClassIndex (Num (Inf true)) (map num bs) = (-1)%Z.
Proof.
  unfold getClassIndex. cbn [isMissing JS.isNaN JS.toNumber].
  rewrite classScan_minus_infinity.
  assert (E : JS.ge (Num (Inf true))
                (JS.get (map num bs) (JS.len (map num bs) - 2)) = false).
  { unfold JS.ge, JS.get. destruct (_ <? 0)%Z; [reflexivity|].
    destruct (nth_in_or_default (Z.to_nat (JS.len (map num bs) - 2))
                (map num bs) Undefined) as [Hin | ->]; [|reflexivity].
    apply in_map_iff in Hin as (q & <- & _). reflexivity. }
  now rewrite E.
Qed.

(** C7. [getClassIndex] is monotonic: for non-decreasing breaks with at
    least two entries and numbers [x1 <= x2] (finite or infinite; the
    comparison fails for NaN),
    [getClassIndex x1 breaks <= getClassIndex x2 breaks]. *)
Theorem getClassIndex_monotone (bs : list Qc) (x1 x2 : number) :
  Sorted Qcle bs -> (2 <= length bs)%nat -> JS.leN x1 x2 = true ->
  (getClassIndex (Num x1) (map num bs)
   <= getClassIndex (Num x2) (map num bs))%Z.
Proof.
  intros HS Hlen Hle.
  pose proof (getClassIndex_lower (Num x2) (map num bs)) as Low.
  pose proof (getClassIndex_upper (Num x1) (map num bs)) as Up.
  rewrite length_map, len_map in Up. specialize (Up Hlen).
  destruct x1 as [|a|[|]], x2 as [|b|[|]]; try discriminate Hle.
  - apply monotone_on_rationals; try assumption. now apply leN_fin.
  - now rewrite getClassIndex_plus_infinity.
  - now rewrite getClassIndex_minus_infinity.
  - now rewrite getClassIndex_minus_infinity.
  - now rewrite getClassIndex_minus_infinity.
  - lia.
Qed.

Lemma getClassIndex_monotone_witness :
  (getClassIndex (num (qz 4)) (map num [qz 1; qz 4; qz 7; qz 10])
   <= getClassIndex (num (qz 10)) (map num [qz 1; qz 4; qz 7; qz 10]))%Z.
Proof.
  apply (getClassIndex_monotone [qz 1; qz 4; qz 7; qz 10]
           (Fin (qz 4)) (Fin (qz 10)) sorted_1_4_7_10).
  - simpl; lia.
  - reflexivity.
Defined.

(** ** Color Resolver *)

Lemma isMissing_spec (v : value) :
  isMissing v = true <-> v = Null \/ v = Undefined \/ v = Num NaN.
Proof.
  destruct v as [| |[|q|b]]; simpl; split; intro H; auto;
    try discriminate; destruct H as [H|[H|H]]; discriminate.
Qed.

Lemma getClassIndex_missing (v : value) (breaks : list value) :
  isMissing v = true -> getClassIndex v breaks = (-1)%Z.
Proof. intros H. unfold getClassIndex. now rewrite H. Qed.

Lemma getICIOColor_unfold (icio : value) (breaks : list value)
  (colors : list rgb) :
  getICIOColor icio breaks colors =
  if isMissing icio || (length breaks <? 2)%nat
     || (getClassIndex icio breaks =? -1)%Z
     || (JS.len colors <=? getClassIndex icio breaks)%Z
  then gray
  else nth (Z.to_nat (getClassIndex icio breaks)) colors gray.
Proof.
  unfold getICIOColor.
  destruct (isMissing icio) eqn:M.
  - rewrite (getClassIndex_missing icio breaks M). simpl.
    now destruct (_ || _ || _).
  - assert (E : (match icio with Null => true | _ => false end
                 || JS.isNaN icio) = false)
      by (destruct icio as [| |[|q|b]]; simpl in *; congruence).
    rewrite E. simpl.
    replace (JS.len breaks <? 2)%Z with (length breaks <? 2)%nat.
    2:{ unfold JS.len. destruct (Nat.ltb_spec (length breaks) 2),
          (Z.ltb_spec (Z.of_nat (length breaks)) 2); lia || reflexivity. }
    destruct (length breaks <? 2)%nat; [reflexivity|]. simpl.
    now rewrite Z.geb_leb.
Qed.

Lemma fallsBack_spec (icio : value) (breaks : list value)
  (colors : list rgb) :
  fallsBack icio breaks colors <->
  isMissing icio || (length breaks <? 2)%nat
  || (getClassIndex icio breaks =? -1)%Z
  || (JS.len colors <=? getClassIndex icio breaks)%Z = true.
Proof.
  unfold fallsBack.
  rewrite !orb_true_iff, isMissing_spec, Nat.ltb_lt, Z.eqb_eq, Z.leb_le.
  tauto.
Qed.

Lemma getICIOColor_fallback (icio : value) (breaks : list value)
  (colors : list rgb) :
  fallsBack icio breaks colors -> getICIOColor icio breaks colors = gray.
Proof.
  intros F. rewrite getICIOColor_unfold.
  apply fallsBack_spec in F. now rewrite F.
Qed.

Lemma getICIOColor_inside (icio : value) (breaks : list value)
  (colors : list rgb) :
  ~ fallsBack icio breaks colors ->
  paletteEntry icio breaks colors = Some (getICIOColor icio breaks colors).
Proof.
  intros NF. rewrite getICIOColor_unfold.
  destruct (_ || _ || _ || _) eqn:E;
    [exfalso; apply NF, fallsBack_spec, E|].
  unfold paletteEntry. apply nth_error_nth'.
  rewrite !orb_false_iff in E. destruct E as [[[_ _] E1] E2].
  apply Z.eqb_neq in E1. apply Z.leb_gt in E2.
  pose proof (getClassIndex_lower icio breaks). unfold JS.len in *. lia.
Qed.

Lemma fallsBack_dec (icio : value) (breaks : list value)
  (colors : list rgb) :
  fallsBack icio breaks colors \/ ~ fallsBack icio breaks colors.
Proof.
  rewrite fallsBack_spec. destruct (_ || _ || _ || _); [now left|].
  right. discriminate.
Qed.

Lemma getICIOColor_gray_iff (icio : value) (breaks : list value)
  (colors : list rgb) :
  getICIOColor icio breaks colors = gray <->
  fallsBack icio breaks colors \/ paletteEntry icio breaks colors = Some gray.
Proof.
  split.
  - intros G. destruct (fallsBack_dec icio breaks colors) as [F|NF];
      [now left|right].
    rewrite <- G. now apply getICIOColor_inside.
  - intros [F|P]; [now apply getICIOColor_fallback|].
    destruct (fallsBack_dec icio breaks colors) as [F|NF];
      [now apply getICIOColor_fallback|].
    apply getICIOColor_inside in NF. congruence.
Qed.

(** C8, as the code has it.  [getICIOColor] returns the fallback gray
    whenever the value is null, undefined or NaN, or breaks has fewer than
    two entries, or the class index is -1 or outside the palette; in every
    other case it returns the palette entry of the class, so that the
    result is gray exactly when one of these conditions holds or that
    palette entry is itself gray; for a palette without a gray entry the
    result is gray exactly when one of the conditions holds.  A NaN value
    gives gray for every palette, and so does any value with empty breaks. *)
Theorem getICIOColor_cases (icio : value) (breaks : list value)
  (colors : list rgb) :
  (fallsBack icio breaks colors -> getICIOColor icio breaks colors = gray)
  /\ (~ fallsBack icio breaks colors ->
      paletteEntry icio breaks colors
      = Some (getICIOColor icio breaks colors))
  /\ (getICIOColor icio breaks colors = gray <->
      fallsBack icio breaks colors
      \/ paletteEntry icio breaks colors = Some gray)
  /\ ((forall c, In c colors -> c <> gray) ->
      (getICIOColor icio breaks colors = gray <->
       fallsBack icio breaks colors))
  /\ getICIOColor (Num NaN) (map numZ [1; 4; 7; 10]%Z) colors = gray
  /\ getICIOColor icio [] colors = gray.
Proof.
  split; [apply getICIOColor_fallback|].
  split; [apply getICIOColor_inside|].
  split; [apply getICIOColor_gray_iff|].
  split; [|split].
  - intros NG. rewrite getICIOColor_gray_iff. split; [|tauto].
    intros [F|P]; [exact F|]. exfalso.
    apply nth_error_In in P. now apply (NG gray).
  - reflexivity.
  - rewrite getICIOColor_unfold. now destruct (isMissing icio).
Qed.

(** A palette entry that is gray is returned although none of the fallback
    conditions holds: the result is not gray "exactly when" they hold. *)
Lemma getICIOColor_gray_inside_palette :
  ~ (forall icio breaks colors,
        getICIOColor icio breaks colors = gray <->
        fallsBack icio breaks colors).
Proof.
  intros H.
  destruct (H (num (qz 1)) (map num [qz 1; qz 2]) [gray]) as [H1 _].
  destruct (H1 eq_refl) as [[F|[F|F]]|[F|[F|F]]]; try discriminate F.
  - simpl in F. lia.
  - revert F. vm_compute. intros F; apply F; reflexivity.
Qed.

(** ** Worked example *)

(** C2. On the sample 1..10 with three classes [jenksBreaks] returns
    [1, 4, 7, 10]; with these breaks [getClassIndex] gives 1 for the value
    4, 2 for the value 10 and -1 for the value 0. *)
Theorem scenario_A :
  jenksBreaks (map numZ [1; 2; 3; 4; 5; 6; 7; 8; 9; 10]%Z) 3
  = Returns (map numZ [1; 4; 7; 10]%Z)
  /\ getClassIndex (numZ 4) (map numZ [1; 4; 7; 10]%Z) = 1%Z
  /\ getClassIndex (numZ 10) (map numZ [1; 4; 7; 10]%Z) = 2%Z
  /\ getClassIndex (numZ 0) (map numZ [1; 4; 7; 10]%Z) = (-1)%Z.
Proof. repeat split; vm_compute; reflexivity. Qed.

(** ** Palette of a single class *)

(** C4, on the code.  For one class the ratio is [0 / 0], which is NaN: the
    comparison with 0.5 fails, the yellow-to-red branch is taken, and the red
    and green channels are NaN instead of 0 and 200. *)
Theorem generateColorPalette_one :
  generateColorPalette 1 = [(NaN, NaN, ofZ 0)]
  /\ generateColorPalette 1 <> [(ofZ 0, ofZ 200, ofZ 0)].
Proof. split; [vm_compute; reflexivity | vm_compute; discriminate]. Qed.

(** ** Invalid entries *)

Lemma isValid_spec (d : value) : isValid d = negb (isInvalidEntry d).
Proof. now destruct d as [| |[|q|b]]. Qed.

Lemma cleanData_dropInvalid (raw : list value) :
  cleanData (dropInvalid raw) = cleanData raw.
Proof.
  unfold cleanData, dropInvalid. f_equal.
  induction raw as [|d raw IH]; [reflexivity|]. simpl.
  rewrite <- isValid_spec.
  destruct (isValid d) eqn:E; simpl; rewrite ?E; now rewrite IH.
Qed.

Lemma cleanData_idem (l : list value) :
  cleanData (map Num (cleanData l)) = cleanData l.
Proof.
  unfold cleanData.
  induction l as [|d l IH]; [reflexivity|]. cbn [filter].
  destruct (isValid d) eqn:E; [|exact IH]. cbn [map filter].
  assert (E' : isValid (Num (JS.toNumber d)) = true)
    by (destruct d as [| |[|q|b]]; simpl in *; congruence).
  rewrite E'. cbn [map]. f_equal. exact IH.
Qed.

(** Only the cleaned data matter. *)
Lemma jenksBreaks_cleanData (data : list value) (nClasses : nat) :
  jenksBreaks data nClasses = jenksBreaks (map Num (cleanData data)) nClasses.
Proof.
  unfold jenksBreaks. rewrite cleanData_idem, length_map.
  destruct data as [|d data]; [reflexivity|].
  cbn [length Nat.eqb].
  destruct (length (cleanData (d :: data)) =? 0) eqn:E; reflexivity.
Qed.

(** C10. [jenksBreaks] filters internally: its result on a raw list equals
    its result on the list without the null, undefined and NaN entries, and
    inserting or removing such an entry anywhere does not change it. *)
Theorem jenksBreaks_ignores_invalid (raw : list value) (nClasses : nat) :
  jenksBreaks raw nClasses = jenksBreaks (dropInvalid raw) nClasses
  /\ forall (before after : list value) (d : value),
       raw = before ++ after -> isInvalidEntry d = true ->
       jenksBreaks (before ++ d :: after) nClasses = jenksBreaks raw nClasses.
Proof.
  split.
  - rewrite (jenksBreaks_cleanData raw),
      (jenksBreaks_cleanData (dropInvalid raw)).
    now rewrite cleanData_dropInvalid.
  - intros before after d -> Hd.
    rewrite (jenksBreaks_cleanData (before ++ d :: after)),
      (jenksBreaks_cleanData (before ++ after)).
    assert (E : cleanData (before ++ d :: after) = cleanData (before ++ after)).
    { unfold cleanData. rewrite !filter_app. simpl.
      rewrite isValid_spec, Hd. reflexivity. }
    now rewrite E.
Qed.

Lemma jenksBreaks_ignores_invalid_witness :
  jenksBreaks [numZ 3; Num NaN; numZ 1; numZ 2] 2
  = jenksBreaks [numZ 3; numZ 1; numZ 2] 2.
Proof.
  destruct (jenksBreaks_ignores_invalid [numZ 3; numZ 1; numZ 2] 2)
    as [_ H].
  apply (H [numZ 3] [numZ 1; numZ 2] (Num NaN)); reflexivity.
Defined.

(** ** Palette Generator *)


Lemma qz_neq0 (a : Z) : a <> 0%Z -> JS.Qceqb (qz a) 0%Qc = false.
Proof.
  intros H. apply Qceqb_false. intros E. apply H.
  apply (f_equal this) in E. unfold qz, Q2Qc in E. cbn [this] in E.
  assert (Q : (inject_Z a == 0)%Q) by (rewrite <- (Qred_correct (inject_Z a)), E; reflexivity).
  unfold Qeq in Q. simpl in Q. lia.
Qed.




Lemma colorAt_finite (n i : Z) :
  n <> 1%Z ->
  colorAt n i =
  if JS.Qcltb (ratioQ n i) halfQ
  then (Fin (qz (Qfloor (ratioQ n i * qz 2 * qz 204)%Qc)), ofZ 200, ofZ 0)
  else (Fin (qz 204
             + qz (Qfloor ((ratioQ n i - halfQ) * qz 2 * qz 51)%Qc))%Qc,
        Fin (qz 200
             - qz (Qfloor ((ratioQ n i - halfQ) * qz 2 * qz 200)%Qc))%Qc,
        ofZ 0).
Proof.
  intros Hn. unfold colorAt, ofZ, JS.divN.
  rewrite qz_neq0 by lia. reflexivity.
Qed.









Lemma paletteLoop_spec (n : Z) (todo : nat) :
  forall (i : Z) (acc : list rgb),
  paletteLoop n i todo acc =
  acc ++ map (fun t => colorAt n (i + Z.of_nat t)) (seq 0 todo).
Proof.
  induction todo as [|todo IH]; intros i acc; simpl.
  - now rewrite app_nil_r.
  - rewrite IH, <- app_assoc. simpl. rewrite Z.add_0_r. do 2 f_equal.
    rewrite <- seq_shift, map_map. apply map_ext. intros t. f_equal. lia.
Qed.

Lemma generateColorPalette_nth (n : Z) (t : nat) :
  (t < Z.to_nat n)%nat ->
  nth_error (generateColorPalette n) t = Some (colorAt n (Z.of_nat t)).
Proof.
  intros H. unfold generateColorPalette. rewrite paletteLoop_spec. simpl.
  rewrite nth_error_map, nth_error_seq.
  destruct (Nat.ltb_spec t (Z.to_nat n)); [reflexivity|lia].
Qed.

Lemma generateColorPalette_length (n : Z) :
  length (generateColorPalette n) = Z.to_nat n.
Proof.
  unfold generateColorPalette. rewrite paletteLoop_spec. simpl.
  now rewrite length_map, length_seq.
Qed.

Lemma colorAt_blue (n i : Z) : blue (colorAt n i) = ofZ 0.
Proof. unfold colorAt. now destruct (JS.ltN _ _). Qed.



(** Generated palettes have blue 0 and so never contain the fallback gray:
    with them the Color Resolver returns gray only by falling back. *)
Lemma generateColorPalette_not_gray (n : Z) (c : rgb) :
  In c (generateColorPalette n) -> c <> gray.
Proof.
  intros Hc E. apply In_nth_error in Hc as [t Ht].
  assert (Bt : (t < Z.to_nat n)%nat).
  { rewrite <- generateColorPalette_length. apply nth_error_Some.
    congruence. }
  rewrite generateColorPalette_nth in Ht by lia.
  injection Ht as <-. apply (f_equal blue) in E.
  rewrite colorAt_blue in E. vm_compute in E. discriminate E.
Qed.

Lemma getICIOColor_generated (icio : value) (breaks : list value) (n : Z) :
  getICIOColor icio breaks (generateColorPalette n) = gray <->
  fallsBack icio breaks (generateColorPalette n).
Proof.
  rewrite getICIOColor_gray_iff. split; [|tauto].
  intros [F|P]; [exact F|]. exfalso.
  apply nth_error_In in P. now apply (generateColorPalette_not_gray n gray).
Qed.

Lemma getICIOColor_cases_witness :
  getICIOColor (num (qz 0)) (map num [qz 1; qz 4]) [gray; gray] = gray
  /\ paletteEntry (num (qz 4)) (map num [qz 1; qz 4; qz 7; qz 10])
       (generateColorPalette 3)
     = Some (getICIOColor (num (qz 4)) (map num [qz 1; qz 4; qz 7; qz 10])
               (generateColorPalette 3))
  /\ (getICIOColor (num (qz 4)) (map num [qz 1; qz 4; qz 7; qz 10])
        (generateColorPalette 3) = gray <->
      fallsBack (num (qz 4)) (map num [qz 1; qz 4; qz 7; qz 10])
        (generateColorPalette 3)).
Proof.
  split; [|split].
  - destruct (getICIOColor_cases (num (qz 0)) (map num [qz 1; qz 4])
                [gray; gray]) as (A & _).
    apply A. right; right; left. reflexivity.
  - destruct (getICIOColor_cases (num (qz 4))
                (map num [qz 1; qz 4; qz 7; qz 10]) (generateColorPalette 3))
      as (_ & B & _).
    apply B.
    intros [[H|[H|H]]|[H|[H|H]]]; try discriminate H.
    + simpl in H. lia.
    + revert H. vm_compute. intros H; apply H; reflexivity.
  - destruct (getICIOColor_cases (num (qz 4))
                (map num [qz 1; qz 4; qz 7; qz 10]) (generateColorPalette 3))
      as (_ & _ & _ & C & _).
    apply C. intros c Hc. exact (generateColorPalette_not_gray 3 c Hc).
Defined.

(** ** Cleaning and sorting finite data *)

Lemma cleanData_num (qs : list Qc) : cleanData (map num qs) = map Fin qs.
Proof.
  unfold cleanData. induction qs as [|q qs IH]; [reflexivity|].
  simpl. now rewrite IH.
Qed.

Lemma insert_fin (x : Qc) (l : list Qc) :
  insert (Fin x) (map Fin l) = map Fin (insQ x l).
Proof.
  induction l as [|y l IH]; [reflexivity|]. simpl.
  assert (E : JS.Qcltb (qz 0) (x + - y)%Qc = JS.Qcltb y x).
  { destruct (JS.Qcltb y x) eqn:L.
    - apply Qcltb_true in L. apply Qcltb_true. to_Q. lra.
    - apply Qcltb_false in L. apply Qcltb_false. to_Q. lra. }
  rewrite E. destruct (JS.Qcltb y x); simpl; [now rewrite IH|reflexivity].
Qed.

Lemma sortNumbers_fin (l : list Qc) :
  sortNumbers (map Fin l) = map Fin (sortQ l).
Proof.
  induction l as [|x l IH]; [reflexivity|].
  unfold sortNumbers in *. cbn [map fold_right]. rewrite IH.
  apply insert_fin.
Qed.

Lemma insQ_perm (x : Qc) (l : list Qc) : Permutation (x :: l) (insQ x l).
Proof.
  induction l as [|y l IH]; simpl; [apply Permutation_refl|].
  destruct (JS.Qcltb y x); [|apply Permutation_refl].
  eapply perm_trans; [apply perm_swap|]. now apply perm_skip.
Qed.

Lemma sortQ_perm (l : list Qc) : Permutation l (sortQ l).
Proof.
  induction l as [|x l IH]; simpl; [constructor|].
  eapply perm_trans; [apply perm_skip, IH|apply insQ_perm].
Qed.

Lemma insQ_sorted (x : Qc) (l : list Qc) :
  StronglySorted Qcle l -> StronglySorted Qcle (insQ x l).
Proof.
  induction 1 as [|y l HS IH HF]; simpl.
  - repeat constructor.
  - destruct (JS.Qcltb y x) eqn:L.
    + apply Qcltb_true in L. constructor; [exact IH|].
      rewrite Forall_forall in *. intros z Hz.
      apply (Permutation_in _ (Permutation_sym (insQ_perm x l))) in Hz.
      destruct Hz as [<-|Hz]; [qorder|now apply HF].
    + apply Qcltb_false in L. constructor; [now constructor|].
      constructor; [exact L|].
      rewrite Forall_forall in *. intros z Hz. specialize (HF z Hz). qorder.
Qed.

Lemma sortQ_sorted (l : list Qc) : StronglySorted Qcle (sortQ l).
Proof.
  induction l as [|x l IH]; simpl; [constructor|now apply insQ_sorted].
Qed.

Lemma sortQ_length (l : list Qc) : length (sortQ l) = length l.
Proof. symmetry. apply Permutation_length, sortQ_perm. Qed.

Lemma sortQ_In (l : list Qc) (x : Qc) : In x (sortQ l) <-> In x l.
Proof.
  split; apply Permutation_in;
    [apply Permutation_sym|]; apply sortQ_perm.
Qed.

(** ** First occurrences *)

Lemma existsb_Qceqb (seen : list Qc) (x : Qc) :
  existsb (fun y => JS.Qceqb y x) seen = true <-> In x seen.
Proof.
  rewrite existsb_exists. split.
  - intros (y & Hy & E). apply Qceqb_true in E. now subst.
  - intros H. exists x. split; [exact H|apply Qceqb_refl].
Qed.

Lemma firstOcc_ext (l : list Qc) :
  forall seen seen',
  (forall x, In x seen <-> In x seen') -> firstOcc seen l = firstOcc seen' l.
Proof.
  induction l as [|x l IH]; intros seen seen' H; [reflexivity|]. simpl.
  assert (E : existsb (fun y => JS.Qceqb y x) seen
              = existsb (fun y => JS.Qceqb y x) seen').
  { destruct (existsb _ seen) eqn:A, (existsb _ seen') eqn:B;
      try reflexivity.
    - apply existsb_Qceqb, H, existsb_Qceqb in A. congruence.
    - apply existsb_Qceqb, H, existsb_Qceqb in B. congruence. }
  rewrite E. destruct (existsb _ seen'); [now apply IH|].
  f_equal. apply IH. intros y. rewrite !in_app_iff, H. tauto.
Qed.

Lemma firstOcc_In (l : list Qc) :
  forall seen x, In x (firstOcc seen l) <-> In x l /\ ~ In x seen.
Proof.
  induction l as [|y l IH]; intros seen x; simpl; [tauto|].
  destruct (existsb _ seen) eqn:E.
  - apply existsb_Qceqb in E. rewrite IH. split.
    + tauto.
    + intros [[<-|H] N]; tauto.
  - assert (N : ~ In y seen)
      by (intros H; apply existsb_Qceqb in H; congruence).
    simpl. rewrite IH, in_app_iff. simpl. split.
    + intros [<-|[H1 H2]]; tauto.
    + intros [[<-|H] Nx]; [now left|].
      destruct (Qc_eq_dec y x) as [->|Ne]; [now left|right]. tauto.
Qed.

Lemma firstOcc_length (l : list Qc) :
  forall seen, length (firstOcc seen l) <= length l.
Proof.
  induction l as [|y l IH]; intros seen; simpl; [lia|].
  destruct (existsb _ seen); simpl.
  - specialize (IH seen). lia.
  - specialize (IH (seen ++ [y])). lia.
Qed.

Lemma firstOcc_sorted (l : list Qc) :
  StronglySorted Qcle l ->
  forall seen, StronglySorted Qclt (firstOcc seen l).
Proof.
  induction 1 as [|y l HS IH HF]; intros seen; simpl; [constructor|].
  destruct (existsb _ seen); [apply IH|].
  constructor; [apply IH|].
  rewrite Forall_forall in *. intros z Hz.
  apply firstOcc_In in Hz as [Hz N].
  specialize (HF z Hz).
  destruct (Qcle_lt_or_eq _ _ HF) as [L|E]; [exact L|].
  exfalso. apply N. rewrite in_app_iff. right. left. exact E.
Qed.

Lemma sorted_le_last (l : list Qc) (d : Qc) :
  StronglySorted Qcle l -> forall x, In x l -> (x <= last l d)%Qc.
Proof.
  induction 1 as [|y l HS IH HF]; intros x Hx; [contradiction|].
  destruct l as [|z l].
  - destruct Hx as [<-|[]]. apply Qcle_refl.
  - change (last (y :: z :: l) d) with (last (z :: l) d).
    destruct Hx as [<-|Hx]; [|now apply IH].
    eapply Qcle_trans; [|apply IH; now left].
    rewrite Forall_forall in HF. apply HF. now left.
Qed.

Lemma last_In (l : list Qc) (d : Qc) : l <> [] -> In (last l d) l.
Proof.
  induction l as [|y l IH]; intros H; [congruence|].
  destruct l as [|z l]; [now left|].
  right. apply IH. congruence.
Qed.

Lemma lt_sorted_le (l : list Qc) :
  StronglySorted Qclt l -> StronglySorted Qcle l.
Proof.
  induction 1 as [|y l HS IH HF]; constructor; [exact IH|].
  rewrite Forall_forall in *. intros z Hz. apply Qclt_le_weak. now apply HF.
Qed.

Lemma firstOcc_last (l : list Qc) (d : Qc) :
  StronglySorted Qcle l -> l <> [] ->
  last (firstOcc [] l) d = last l d.
Proof.
  intros HS Hne.
  assert (Hne' : firstOcc [] l <> []) by (destruct l; simpl; congruence).
  pose proof (lt_sorted_le _ (firstOcc_sorted l HS [])) as HS'.
  apply Qcle_antisym.
  - apply sorted_le_last; [exact HS|].
    apply (firstOcc_In l [] (last (firstOcc [] l) d)). now apply last_In.
  - apply sorted_le_last; [exact HS'|].
    apply firstOcc_In. split; [now apply last_In|tauto].
Qed.

(** ** [new Set] and the duplicate filter on finite data *)

Lemma setHas_fin (s : list Qc) (x : Qc) :
  setHas (map Fin s) (Fin x) = existsb (fun y => JS.Qceqb y x) s.
Proof. induction s as [|y s IH]; [reflexivity|]. simpl. now rewrite IH. Qed.

Lemma setInsertAll_fin (l : list Qc) :
  forall s, setInsertAll (map Fin s) (map Fin l)
            = map Fin (s ++ firstOcc s l).
Proof.
  induction l as [|x l IH]; intros s; simpl.
  - now rewrite app_nil_r.
  - rewrite setHas_fin. destruct (existsb _ s); [apply IH|].
    change [Fin x] with (map Fin [x]). rewrite <- map_app, IH.
    now rewrite <- app_assoc.
Qed.

Lemma newSet_fin (l : list Qc) :
  newSet (map Fin l) = map Fin (firstOcc [] l).
Proof. unfold newSet. apply (setInsertAll_fin l []). Qed.

Lemma indexOfFrom_notin (v : Qc) (rest : list Qc) (pre : list Qc) :
  forall i, ~ In v pre ->
  indexOfFrom (map num (pre ++ v :: rest)) (num v) i = (i + JS.len pre)%Z.
Proof.
  induction pre as [|y pre IH]; intros i N; simpl.
  - rewrite Qceqb_refl. unfold JS.len. simpl. lia.
  - destruct (JS.Qceqb y v) eqn:E.
    + apply Qceqb_true in E. exfalso. apply N. now left.
    + rewrite IH by (intros H; apply N; now right).
      unfold JS.len. simpl length. lia.
Qed.

Lemma indexOfFrom_in (v : Qc) (rest : list Qc) (pre : list Qc) :
  forall i, In v pre ->
  (indexOfFrom (map num (pre ++ rest)) (num v) i < i + JS.len pre)%Z.
Proof.
  induction pre as [|y pre IH]; intros i H; [contradiction|]. simpl.
  unfold JS.len. simpl length.
  destruct (JS.Qceqb y v) eqn:E; [lia|].
  destruct H as [->|H]; [rewrite Qceqb_refl in E; discriminate|].
  specialize (IH (i + 1)%Z H). unfold JS.len in IH. lia.
Qed.

Lemma filterFirst_fin (l : list Qc) :
  forall pre seen,
  (forall x, In x seen <-> In x pre) ->
  filterFirst (map num (pre ++ l)) (map num l) (JS.len pre)
  = map num (firstOcc seen l).
Proof.
  induction l as [|v l IH]; intros pre seen H; [reflexivity|].
  cbn [map filterFirst firstOcc]. unfold indexOf.
  assert (Step : filterFirst (map num (pre ++ v :: l)) (map num l)
                   (JS.len pre + 1)
                 = map num (firstOcc (seen ++ [v]) l)).
  { replace (pre ++ v :: l) with ((pre ++ [v]) ++ l)
      by now rewrite <- app_assoc.
    replace (JS.len pre + 1)%Z with (JS.len (pre ++ [v]))
      by (unfold JS.len; rewrite length_app; simpl; lia).
    apply IH. intros x. rewrite !in_app_iff. specialize (H x). tauto. }
  destruct (existsb _ seen) eqn:E.
  - apply existsb_Qceqb in E.
    pose proof (indexOfFrom_in v (v :: l) pre 0%Z (proj1 (H v) E)) as L.
    destruct (Z.eqb_spec (indexOfFrom (map num (pre ++ v :: l)) (num v) 0)
                (JS.len pre)) as [Q|_]; [lia|].
    rewrite Step. apply f_equal, firstOcc_ext.
    intros x. rewrite in_app_iff. simpl. split; [|tauto].
    intros [X|[<-|[]]]; assumption.
  - assert (N : ~ In v pre).
    { intros X. apply H, existsb_Qceqb in X. congruence. }
    rewrite (indexOfFrom_notin v l pre 0%Z N), Z.add_0_l, Z.eqb_refl.
    cbn [map]. now rewrite Step.
Qed.

Lemma removeDuplicates_fin (l : list Qc) :
  removeDuplicates (map num l) = map num (firstOcc [] l).
Proof.
  unfold removeDuplicates.
  apply (filterFirst_fin l [] []). tauto.
Qed.

(** ** The dynamic program: which cells each loop writes *)

Lemma sameCell_refl (m : matrices) (r c : nat) : sameCell m m r c.
Proof. now split. Qed.

Lemma sameCell_trans (m1 m2 m3 : matrices) (r c : nat) :
  sameCell m1 m2 r c -> sameCell m2 m3 r c -> sameCell m1 m3 r c.
Proof. intros [A B] [C D]. split; congruence. Qed.

Lemma tset_same {A : Type} (t : table A) (r c : nat) (x : A) :
  tset t r c x r c = x.
Proof. unfold tset. now rewrite !Nat.eqb_refl. Qed.

Lemma tset_other {A : Type} (t : table A) (r c r' c' : nat) (x : A) :
  r' <> r \/ c' <> c -> tset t r c x r' c' = t r' c'.
Proof.
  intros H. unfold tset.
  destruct (Nat.eqb_spec r' r), (Nat.eqb_spec c' c); simpl; try reflexivity.
  lia.
Qed.

Lemma setLimit_other (m : matrices) (r c x r' c' : nat) :
  r' <> r \/ c' <> c -> sameCell m (setLimit m r c x) r' c'.
Proof. intros H. split; simpl; [now apply tset_other|reflexivity]. Qed.

Lemma setVariance_other (m : matrices) (r c : nat) (x : number) (r' c' : nat) :
  r' <> r \/ c' <> c -> sameCell m (setVariance m r c x) r' c'.
Proof. intros H. split; simpl; [reflexivity|now apply tset_other]. Qed.

(** ** Backtracking *)

Lemma aset_skipn (i : nat) :
  forall (a : list value) (x : value),
  skipn i (aset a i x) = x :: skipn (S i) a.
Proof.
  induction i as [|i IH]; intros a x.
  - destruct a; reflexivity.
  - destruct a as [|y a]; cbn [aset skipn].
    + rewrite IH. now destruct i.
    + apply IH.
Qed.

Lemma path_length (limits : table nat) (j : nat) :
  forall k, length (path limits j k) = j.
Proof.
  induction j as [|j IH]; intros k; [reflexivity|].
  cbn [path]. rewrite length_app, IH. simpl. lia.
Qed.

Lemma extractLoop_path (sorted : list number) (limits : table nat)
  (nClasses n : nat) :
  rangeOK limits nClasses n ->
  forall j k b,
  j <= nClasses -> j <= k <= n ->
  extractLoop sorted limits j (Z.of_nat k) b
  = Returns (map (fun s => JS.get (map Num sorted) (Z.of_nat s - 1))
               (path limits j k)
             ++ skipn j b).
Proof.
  intros HR. induction j as [|j IH]; intros k b Hj Hk; [reflexivity|].
  cbn [extractLoop path].
  destruct (Z.ltb_spec (Z.of_nat k) 0) as [L|_]; [lia|].
  rewrite Nat2Z.id.
  destruct (HR (S j) k) as [R1 R2]; [lia|lia|].
  replace (Z.of_nat (limits k (S j)) - 1)%Z
    with (Z.of_nat (limits k (S j) - 1)) by lia.
  rewrite IH by lia.
  rewrite aset_skipn, map_app, <- app_assoc. cbn [map app].
  replace (Z.of_nat (limits k (S j) - 1))
    with (Z.of_nat (limits k (S j)) - 1)%Z by lia.
  reflexivity.
Qed.

(** The limits on the backtracking path increase strictly and stay in
    [1..k]. *)
Lemma path_sorted (limits : table nat) (nClasses n : nat) :
  rangeOK limits nClasses n ->
  forall j k, j <= nClasses -> j <= k <= n ->
  StronglySorted lt (path limits j k)
  /\ Forall (fun s => 1 <= s <= k) (path limits j k).
Proof.
  intros HR. induction j as [|j IH]; intros k Hj Hk.
  - split; constructor.
  - cbn [path]. destruct (HR (S j) k) as [R1 R2]; [lia|lia|].
    destruct (IH (limits k (S j) - 1)) as [S1 F1]; [lia|lia|].
    rewrite Forall_forall in F1. split.
    + clear IH. induction S1 as [|x l S1 IH' HF]; simpl.
      * repeat constructor.
      * constructor.
        -- apply IH'. intros y Hy. apply F1. now right.
        -- rewrite Forall_forall in *. intros y Hy.
           apply in_app_iff in Hy as [Hy|[<-|[]]]; [now apply HF|].
           specialize (F1 x (or_introl eq_refl)). lia.
    + rewrite Forall_forall. intros y Hy.
      apply in_app_iff in Hy as [Hy|[<-|[]]]; [|lia].
      specialize (F1 y Hy). lia.
Qed.

(** ** [jenksBreaks] on finite data *)

Lemma aset_end (a : list value) (x : value) :
  aset a (length a) x = a ++ [x].
Proof. induction a as [|y a IH]; simpl; [reflexivity|now rewrite IH]. Qed.

Lemma map_num_fin (qs : list Qc) : map Num (map Fin qs) = map num qs.
Proof. now rewrite map_map. Qed.

(** ** The break candidates are ascending *)

Lemma sorted_nth (sq : list Qc) :
  StronglySorted Qcle sq ->
  forall p q, p <= q < length sq -> (nth p sq 0 <= nth q sq 0)%Qc.
Proof.
  induction 1 as [|a l HS IH HF]; intros p q Hpq; simpl in *; [lia|].
  destruct p as [|p], q as [|q]; try lia.
  - apply Qcle_refl.
  - rewrite Forall_forall in HF. apply HF, nth_In. lia.
  - apply IH. lia.
Qed.

Lemma tl_sorted (l : list nat) :
  StronglySorted lt l -> StronglySorted lt (tl l).
Proof. destruct 1; [constructor|assumption]. Qed.

Lemma map_nth_sorted (sq : list Qc) (idx : list nat) :
  StronglySorted Qcle sq ->
  StronglySorted le idx -> Forall (fun p => p < length sq) idx ->
  StronglySorted Qcle (map (fun p => nth p sq 0%Qc) idx).
Proof.
  intros HS HI. induction HI as [|p l HI IH HL]; intros HF; simpl;
    [constructor|].
  inversion HF as [|? ? Hp HF']; subst.
  constructor; [now apply IH|].
  rewrite Forall_forall in *. intros x Hx.
  apply in_map_iff in Hx as (q & <- & Hq).
  apply sorted_nth; [exact HS|]. specialize (HL q Hq).
  specialize (HF' q Hq). lia.
Qed.

Lemma sorted_min (sq : list Qc) :
  StronglySorted Qcle sq -> sq <> [] -> isMin (nth 0 sq 0%Qc) sq.
Proof.
  intros HS Hne. destruct sq as [|a l]; [congruence|]. simpl.
  split; [now left|]. intros y [<-|Hy]; [apply Qcle_refl|].
  inversion HS as [|? ? _ HF]; subst. rewrite Forall_forall in HF.
  now apply HF.
Qed.

Lemma sorted_max (sq : list Qc) :
  StronglySorted Qcle sq -> sq <> [] ->
  isMax (nth (length sq - 1) sq 0%Qc) sq.
Proof.
  intros HS Hne.
  assert (L : 0 < length sq) by (destruct sq; simpl; [congruence|lia]).
  split; [apply nth_In; lia|].
  intros y Hy. apply (In_nth _ _ 0%Qc) in Hy as (p & Hp & <-).
  apply sorted_nth; [exact HS|lia].
Qed.

Lemma isMin_perm (x : Qc) (l l' : list Qc) :
  (forall y, In y l <-> In y l') -> isMin x l -> isMin x l'.
Proof.
  intros H [A B]. split; [now apply H|]. intros y Hy. apply B. now apply H.
Qed.

Lemma isMax_perm (x : Qc) (l l' : list Qc) :
  (forall y, In y l <-> In y l') -> isMax x l -> isMax x l'.
Proof.
  intros H [A B]. split; [now apply H|]. intros y Hy. apply B. now apply H.
Qed.

Lemma Fin_inj (a b : Qc) : Fin a = Fin b -> a = b.
Proof. intros H. congruence. Qed.

(** * Further properties of the breaks solver *)

(** ** Raw data without infinities *)

Lemma cleanData_finiteValues (raw : list value) :
  noInfinity raw -> cleanData raw = map Fin (finiteValues raw).
Proof.
  unfold cleanData, noInfinity.
  induction raw as [|d raw IH]; intros H; [reflexivity|].
  assert (H' : forall b, ~ In (Num (Inf b)) raw)
    by (intros b Hb; apply (H b); now right).
  specialize (IH H').
  destruct d as [| |[|q|b]]; cbn [filter isValid map finiteValues];
    try exact IH.
  - cbn. now rewrite IH.
  - exfalso. apply (H b). now left.
Qed.

Lemma jenksBreaks_finiteValues (raw : list value) (nClasses : nat) :
  noInfinity raw ->
  jenksBreaks raw nClasses = jenksBreaks (map num (finiteValues raw)) nClasses.
Proof.
  intros H. rewrite jenksBreaks_cleanData, cleanData_finiteValues by exact H.
  now rewrite map_num_fin.
Qed.

(** ** The result for every finite sample *)

Lemma last_is_nth (l : list Qc) (d : Qc) : last l d = nth (length l - 1) l d.
Proof.
  induction l as [|a l IH]; [reflexivity|].
  destruct l as [|b l]; [reflexivity|].
  change (last (a :: b :: l) d) with (last (b :: l) d). rewrite IH.
  simpl. now rewrite Nat.sub_0_r.
Qed.

Lemma firstOcc_hd (l : list Qc) (d : Qc) :
  hd d (firstOcc [] l) = hd d l.
Proof. now destruct l. Qed.

Lemma sorted_lt_NoDup (l : list Qc) : StronglySorted Qclt l -> NoDup l.
Proof.
  induction 1 as [|a l HS IH HF]; constructor; [|exact IH].
  intros Ha. rewrite Forall_forall in HF. specialize (HF a Ha).
  exact (Qclt_not_eq _ _ HF eq_refl).
Qed.

Lemma uniqueCount_NoDup_incl (l sample : list Qc) :
  NoDup l -> incl l sample -> length l <= uniqueCount sample.
Proof.
  intros HN HI. unfold uniqueCount. apply NoDup_incl_length; [exact HN|].
  intros x Hx. apply nodup_In. now apply HI.
Qed.

(** ** No classes requested *)

Lemma removeDuplicates_single (v : Qc) :
  removeDuplicates [num v] = [num v].
Proof. exact (removeDuplicates_fin [v]). Qed.

Lemma jenksBreaks_zero_classes (qs : list Qc) :
  qs <> [] ->
  jenksBreaks (map num qs) 0
  = Returns [num (nth (length qs - 1) (sortQ qs) 0%Qc)].
Proof.
  intros Hne. unfold jenksBreaks.
  rewrite cleanData_num, !length_map, sortNumbers_fin, length_map,
    sortQ_length.
  assert (L : 0 < length qs) by (destruct qs; simpl; [congruence|lia]).
  destruct (Nat.eqb_spec (length qs) 0) as [E|_]; [lia|].
  destruct (Nat.leb_spec (length qs) 0) as [E|_]; [lia|].
  cbn [extractLoop aset]. rewrite map_num_fin.
  replace (Z.of_nat (length qs) - 1)%Z with (Z.of_nat (length qs - 1)) by lia.
  rewrite get_num by (unfold JS.len; rewrite sortQ_length; lia).
  unfold bget. rewrite Nat2Z.id. apply f_equal, removeDuplicates_single.
Qed.

(** X2. With zero classes the break for the minimum is overwritten by the
    one for the maximum: on a non-empty finite sample [jenksBreaks] returns
    the maximum alone. *)
Theorem jenksBreaks_no_classes (sample : list Qc) :
  sample <> [] ->
  exists mx : Qc,
    isMax mx sample /\ jenksBreaks (map num sample) 0 = Returns [num mx].
Proof.
  intros Hne. exists (nth (length sample - 1) (sortQ sample) 0%Qc).
  split; [|now apply jenksBreaks_zero_classes].
  rewrite <- (sortQ_length sample).
  apply (isMax_perm _ (sortQ sample)); [apply sortQ_In|].
  apply sorted_max; [apply sortQ_sorted|].
  intros E. apply Hne, Permutation_nil, Permutation_sym.
  rewrite <- E. apply sortQ_perm.
Qed.

Lemma jenksBreaks_no_classes_witness :
  exists mx : Qc,
    isMax mx [qz 1; qz 5; qz 3]
    /\ jenksBreaks (map num [qz 1; qz 5; qz 3]) 0 = Returns [num mx].
Proof. apply (jenksBreaks_no_classes [qz 1; qz 5; qz 3]). discriminate. Defined.

(** ** Raw data: the call returns *)

Lemma finiteValues_In (raw : list value) (x : Qc) :
  In x (finiteValues raw) <-> In (num x) raw.
Proof.
  induction raw as [|d raw IH]; [tauto|].
  destruct d as [| |[|q|b]]; cbn [finiteValues In]; rewrite ?IH;
    unfold num; split; intros H; try tauto;
    try (destruct H as [H|H]; [discriminate H|exact H]).
  - destruct H as [->|H]; [now left|now right].
  - destruct H as [H|H]; [left; congruence|now right].
Qed.

(** ** The order of the data does not matter *)

Lemma sorted_perm_eq (l l' : list Qc) :
  StronglySorted Qcle l -> StronglySorted Qcle l' -> Permutation l l' ->
  l = l'.
Proof.
  intros HS. revert l'.
  induction HS as [|a l HS IH HF]; intros l' HS' HP.
  - apply Permutation_nil in HP. now subst.
  - destruct HS' as [|b l' HS' HF'].
    + apply Permutation_sym, Permutation_nil in HP. discriminate HP.
    + rewrite Forall_forall in HF, HF'.
      assert (E : a = b).
      { assert (Ha : In a (b :: l'))
          by (apply (Permutation_in _ HP); now left).
        assert (Hb : In b (a :: l))
          by (apply (Permutation_in _ (Permutation_sym HP)); now left).
        destruct Ha as [Ha|Ha]; [auto|]. destruct Hb as [Hb|Hb]; [auto|].
        apply Qcle_antisym; [now apply HF|now apply HF']. }
      subst b. f_equal. apply IH; [exact HS'|].
      now apply Permutation_cons_inv in HP.
Qed.

Lemma sortQ_perm_eq (l l' : list Qc) :
  Permutation l l' -> sortQ l = sortQ l'.
Proof.
  intros HP. apply sorted_perm_eq; try apply sortQ_sorted.
  eapply perm_trans; [apply Permutation_sym, sortQ_perm|].
  eapply perm_trans; [exact HP|apply sortQ_perm].
Qed.

Lemma jenksBreaks_of_sorted (l : list Qc) (nClasses : nat) :
  jenksBreaks (map num l) nClasses
  = jenksBreaks (map num (sortQ l)) nClasses.
Proof.
  assert (E : sortQ (sortQ l) = sortQ l)
    by (apply sortQ_perm_eq, Permutation_sym, sortQ_perm).
  unfold jenksBreaks.
  rewrite !cleanData_num, !length_map, !sortNumbers_fin, !length_map, E,
    !sortQ_length.
  reflexivity.
Qed.

Lemma finiteValues_perm (raw raw' : list value) :
  Permutation raw raw' -> Permutation (finiteValues raw) (finiteValues raw').
Proof.
  induction 1 as [|d l l' HP IH|d d' l|l1 l2 l3 H1 IH1 H2 IH2].
  - constructor.
  - destruct d as [| |[|q|b]]; cbn [finiteValues]; try exact IH.
    now constructor.
  - destruct d as [| |[|q|b]], d' as [| |[|q'|b']]; cbn [finiteValues];
      try apply Permutation_refl. apply perm_swap.
  - eapply perm_trans; eassumption.
Qed.

(** X4. The result does not depend on the order of the data: permuting raw
    data without infinities leaves the breaks unchanged. *)
Theorem jenksBreaks_permutation (raw raw' : list value) (nClasses : nat) :
  noInfinity raw -> Permutation raw raw' ->
  jenksBreaks raw nClasses = jenksBreaks raw' nClasses.
Proof.
  intros H HP.
  assert (H' : noInfinity raw').
  { intros b Hb. apply (H b).
    exact (Permutation_in _ (Permutation_sym HP) Hb). }
  rewrite (jenksBreaks_finiteValues raw nClasses H),
    (jenksBreaks_finiteValues raw' nClasses H').
  rewrite (jenksBreaks_of_sorted (finiteValues raw)),
    (jenksBreaks_of_sorted (finiteValues raw')).
  now rewrite (sortQ_perm_eq _ _ (finiteValues_perm raw raw' HP)).
Qed.

Lemma jenksBreaks_permutation_witness :
  jenksBreaks [numZ 3; Null; numZ 1; numZ 2] 2
  = jenksBreaks [Null; numZ 1; numZ 3; numZ 2] 2.
Proof.
  apply (jenksBreaks_permutation [numZ 3; Null; numZ 1; numZ 2]
           [Null; numZ 1; numZ 3; numZ 2] 2).
  - intros b [E|[E|[E|[E|[]]]]]; discriminate E.
  - apply (perm_trans (l' := [Null; numZ 3; numZ 1; numZ 2]));
      [apply perm_swap|].
    apply perm_skip. apply perm_swap.
Defined.

(** * Further properties of the class assigner *)

Lemma getClassIndex_from_first (bs : list Qc) (v : Qc) :
  (2 <= length bs)%nat -> (bget bs 0 <= v)%Qc ->
  (0 <= getClassIndex (num v) (map num bs) <= JS.len bs - 2)%Z.
Proof.
  intros Hlen H0.
  pose proof (getClassIndex_upper (num v) (map num bs)) as Up.
  rewrite length_map, len_map in Up. specialize (Up Hlen).
  split; [|exact Up].
  rewrite getClassIndex_num.
  destruct (classScan _ _ _ _) as [r|] eqn:E.
  - apply classScan_some in E; unfold JS.len in *; lia.
  - assert (G : (bget bs (JS.len bs - 2) <= v)%Qc)
      by (apply scan_none_above; unfold JS.len; try assumption; lia).
    rewrite get_num by (unfold JS.len; lia).
    apply ge_num in G. rewrite G. unfold JS.len; lia.
Qed.

Lemma getClassIndex_below_first (bs : list Qc) (v : Qc) :
  Sorted Qcle bs -> (2 <= length bs)%nat -> (v < bget bs 0)%Qc ->
  getClassIndex (num v) (map num bs) = (-1)%Z.
Proof.
  intros HS Hlen Hv. rewrite getClassIndex_num.
  destruct (classScan _ _ _ _) as [r|] eqn:E.
  - apply classScan_some in E; unfold JS.len in *; try lia.
    destruct E as (Hr & [C _] & _). exfalso.
    assert (B : (bget bs 0 <= bget bs r)%Qc)
      by (apply sorted_bget; unfold JS.len; try assumption; lia).
    qorder.
  - rewrite get_num by (unfold JS.len; lia).
    destruct (JS.ge _ _) eqn:G; [|reflexivity]. exfalso.
    apply ge_num in G.
    assert (B : (bget bs 0 <= bget bs (JS.len bs - 2))%Qc)
      by (apply sorted_bget; unfold JS.len; try assumption; lia).
    qorder.
Qed.

Lemma inClass_unique (bs : list Qc) (v : Qc) (i r : Z) :
  Sorted Qcle bs -> (0 <= i)%Z -> (0 <= r)%Z ->
  (i + 1 < JS.len bs)%Z -> (r + 1 < JS.len bs)%Z ->
  inClass bs v i -> inClass bs v r -> i = r.
Proof.
  intros HS Hi Hr Bi Br [A1 A2] [B1 B2].
  destruct (Z.lt_trichotomy i r) as [L|[E|L]]; [exfalso| exact E |exfalso].
  - assert (bget bs (i + 1) <= bget bs r)%Qc
      by (apply sorted_bget; try assumption; lia).
    qorder.
  - assert (bget bs (r + 1) <= bget bs i)%Qc
      by (apply sorted_bget; try assumption; lia).
    qorder.
Qed.

Lemma getClassIndex_inClass (bs : list Qc) (v : Qc) (i : Z) :
  Sorted Qcle bs -> (0 <= i <= JS.len bs - 2)%Z -> inClass bs v i ->
  getClassIndex (num v) (map num bs) = i.
Proof.
  intros HS Hi Hc. rewrite getClassIndex_num.
  destruct (classScan _ _ _ _) as [r|] eqn:E.
  - apply classScan_some in E; unfold JS.len in *; try lia.
    destruct E as (Hr & Hcr & _).
    symmetry. apply (inClass_unique bs v i r); unfold JS.len;
      try assumption; lia.
  - exfalso.
    apply (classScan_none bs v (Z.to_nat (JS.len bs - 1)) 0%Z) with (t := i);
      unfold JS.len in *; try lia; assumption.
Qed.

Lemma getClassIndex_above_last (bs : list Qc) (v : Qc) :
  Sorted Qcle bs -> (2 <= length bs)%nat ->
  (bget bs (JS.len bs - 1) <= v)%Qc ->
  getClassIndex (num v) (map num bs) = (JS.len bs - 2)%Z.
Proof.
  intros HS Hlen Hv. rewrite getClassIndex_num.
  destruct (classScan _ _ _ _) as [r|] eqn:E.
  - apply classScan_some in E; unfold JS.len in *; try lia.
    destruct E as (Hr & [_ C] & _). exfalso.
    assert (bget bs (r + 1) <= bget bs (Z.of_nat (length bs) - 1))%Qc
      by (apply sorted_bget; unfold JS.len; try assumption; lia).
    qorder.
  - rewrite get_num by (unfold JS.len; lia).
    assert (G : (bget bs (JS.len bs - 2) <= v)%Qc).
    { assert (bget bs (JS.len bs - 2) <= bget bs (JS.len bs - 1))%Qc
        by (apply sorted_bget; unfold JS.len; try assumption; lia).
      qorder. }
    apply ge_num in G. now rewrite G.
Qed.

Lemma getClassIndex_sound (bs : list Qc) (v : Qc) :
  (2 <= length bs)%nat ->
  let i := getClassIndex (num v) (map num bs) in
  (0 <= i)%Z ->
  inClass bs v i
  \/ (i = (JS.len bs - 2)%Z /\ (bget bs (JS.len bs - 1) <= v)%Qc).
Proof.
  intros Hlen i. unfold i. rewrite getClassIndex_num.
  destruct (classScan _ _ _ _) as [r|] eqn:E.
  - intros _. left. apply classScan_some in E; unfold JS.len in *;
      try lia. tauto.
  - rewrite get_num by (unfold JS.len; lia).
    destruct (JS.ge _ _) eqn:G; [|lia]. intros _. right.
    split; [reflexivity|]. apply ge_num in G.
    destruct (Qclt_le_dec v (bget bs (JS.len bs - 1))) as [L|L]; [|exact L].
    exfalso.
    apply (classScan_none bs v (Z.to_nat (JS.len bs - 1)) 0%Z)
      with (t := (JS.len bs - 2)%Z);
      [lia|unfold JS.len; lia|exact E|unfold JS.len; lia|].
    split; [exact G|].
    now replace (JS.len bs - 2 + 1)%Z with (JS.len bs - 1)%Z by lia.
Qed.

(** X6. What a class index means, for non-decreasing breaks with at least
    two entries and a finite value [v]: the result is -1 exactly when [v] is
    below the first break; it is [i] whenever
    [breaks[i] <= v < breaks[i+1]]; it is the last class for every [v] at or
    above the last break, however large; and a result [i >= 0] always means
    that [v] is in one of these two situations. *)
Theorem getClassIndex_classes (bs : list Qc) (v : Qc) :
  Sorted Qcle bs -> (2 <= length bs)%nat ->
  (getClassIndex (num v) (map num bs) = (-1)%Z <-> (v < bget bs 0)%Qc)
  /\ (forall i, (0 <= i <= JS.len bs - 2)%Z -> inClass bs v i ->
      getClassIndex (num v) (map num bs) = i)
  /\ ((bget bs (JS.len bs - 1) <= v)%Qc ->
      getClassIndex (num v) (map num bs) = (JS.len bs - 2)%Z)
  /\ ((0 <= getClassIndex (num v) (map num bs))%Z ->
      inClass bs v (getClassIndex (num v) (map num bs))
      \/ (getClassIndex (num v) (map num bs) = (JS.len bs - 2)%Z
          /\ (bget bs (JS.len bs - 1) <= v)%Qc)).
Proof.
  intros HS Hlen. split; [|split; [|split]].
  - split.
    + intros E. destruct (Qclt_le_dec v (bget bs 0)) as [L|L]; [exact L|].
      pose proof (getClassIndex_from_first bs v Hlen L). lia.
    + now apply getClassIndex_below_first.
  - intros i Hi Hc. now apply getClassIndex_inClass.
  - now apply getClassIndex_above_last.
  - now apply getClassIndex_sound.
Qed.

Lemma getClassIndex_classes_witness :
  (getClassIndex (num (qz 12)) (map num [qz 1; qz 4; qz 7; qz 10])
   = (-1)%Z <-> (qz 12 < bget [qz 1; qz 4; qz 7; qz 10] 0)%Qc)
  /\ getClassIndex (num (qz 12)) (map num [qz 1; qz 4; qz 7; qz 10])
     = (JS.len [qz 1; qz 4; qz 7; qz 10] - 2)%Z.
Proof.
  destruct (getClassIndex_classes [qz 1; qz 4; qz 7; qz 10] (qz 12)
              sorted_1_4_7_10 ltac:(simpl; lia)) as (A & _ & C & _).
  split; [exact A|]. apply C. qconcrete.
Defined.

Lemma sorted_lt_Sorted_le (bs : list Qc) :
  StronglySorted Qclt bs -> Sorted Qcle bs.
Proof. intros H. apply StronglySorted_Sorted. now apply lt_sorted_le. Qed.

Lemma sorted_lt_bget (bs : list Qc) :
  StronglySorted Qclt bs ->
  forall i j, (0 <= i < j)%Z -> (j < JS.len bs)%Z ->
  (bget bs i < bget bs j)%Qc.
Proof.
  unfold bget, JS.len.
  induction 1 as [|a l HS IH HF]; intros i j Hij Hj; simpl in *; [lia|].
  destruct (Z.to_nat i) as [|i'] eqn:Ei, (Z.to_nat j) as [|j'] eqn:Ej;
    try lia.
  - rewrite Forall_forall in HF. apply HF, nth_In. lia.
  - specialize (IH (Z.of_nat i') (Z.of_nat j')).
    rewrite !Nat2Z.id in IH. apply IH; lia.
Qed.

(** X7. Boundary values, for strictly ascending breaks with at least two
    entries (such as [jenksBreaks] returns): a value equal to the break of
    index [i] is assigned class [i], the lower bound of a class being
    inclusive, except the last break, which belongs to the last class. *)
Theorem getClassIndex_at_break (bs : list Qc) (i : Z) :
  StronglySorted Qclt bs -> (2 <= length bs)%nat ->
  (0 <= i < JS.len bs)%Z ->
  getClassIndex (num (bget bs i)) (map num bs) = Z.min i (JS.len bs - 2).
Proof.
  intros HS Hlen Hi.
  pose proof (sorted_lt_Sorted_le bs HS) as HS'.
  destruct (Z_le_gt_dec i (JS.len bs - 2)) as [L|G].
  - rewrite Z.min_l by lia. apply getClassIndex_inClass; [exact HS'|lia|].
    split; [apply Qcle_refl|]. apply sorted_lt_bget; [exact HS|lia|lia].
  - rewrite Z.min_r by lia. replace i with (JS.len bs - 1)%Z by lia.
    apply getClassIndex_above_last; [exact HS'|exact Hlen|apply Qcle_refl].
Qed.

Lemma getClassIndex_at_break_witness :
  getClassIndex (num (bget [qz 1; qz 4; qz 7; qz 10] 3))
    (map num [qz 1; qz 4; qz 7; qz 10])
  = Z.min 3 (JS.len [qz 1; qz 4; qz 7; qz 10] - 2).
Proof.
  apply (getClassIndex_at_break [qz 1; qz 4; qz 7; qz 10] 3).
  - repeat constructor; qconcrete.
  - simpl; lia.
  - unfold JS.len; simpl; lia.
Defined.

(** * Further properties of the palette *)




Lemma ratioQ_first (n : Z) : ratioQ n 0 = 0%Qc.
Proof. unfold ratioQ, Qcdiv. apply Qcmult_0_l. Qed.

Lemma qz_nonzero (a : Z) : a <> 0%Z -> qz a <> 0%Qc.
Proof. intros H. now apply Qceqb_false, qz_neq0. Qed.

Lemma ratioQ_last (n : Z) : (2 <= n)%Z -> ratioQ n (n - 1) = 1%Qc.
Proof.
  intros H. unfold ratioQ, Qcdiv. apply Qcmult_inv_r, qz_nonzero. lia.
Qed.


Lemma ratioQ_middle (m : Z) :
  (1 <= m)%Z -> ratioQ (2 * m + 1) m = halfQ.
Proof.
  intros H. unfold ratioQ, halfQ. replace (2 * m + 1 - 1)%Z with (2 * m)%Z
    by lia.
  apply Qc_is_canon. to_Q. rewrite inject_Z_mult.
  change (inject_Z 2) with 2%Q.
  assert (N : ~ (inject_Z m == 0)%Q).
  { change 0%Q with (inject_Z 0). rewrite inject_Z_injective. lia. }
  field. exact N.
Qed.

(** X10. For every [n >= 2] the palette runs from green to red: its first
    colour is (0, 200, 0) and its last is (255, 0, 0); when [n] is odd the
    middle colour is the yellow (204, 200, 0). *)
Theorem generateColorPalette_ends (n : Z) :
  (2 <= n)%Z ->
  nth_error (generateColorPalette n) 0 = Some (ofZ 0, ofZ 200, ofZ 0)
  /\ nth_error (generateColorPalette n) (Z.to_nat (n - 1))
     = Some (ofZ 255, ofZ 0, ofZ 0)
  /\ (forall m : Z, n = (2 * m + 1)%Z ->
      nth_error (generateColorPalette n) (Z.to_nat m)
      = Some (ofZ 204, ofZ 200, ofZ 0)).
Proof.
  intros Hn. split; [|split].
  - rewrite generateColorPalette_nth by lia. f_equal.
    change (Z.of_nat 0) with 0%Z.
    rewrite colorAt_finite, ratioQ_first by lia. reflexivity.
  - rewrite generateColorPalette_nth by lia. f_equal.
    rewrite Z2Nat.id by lia.
    rewrite colorAt_finite, ratioQ_last by lia.
    unfold ofZ. cbn [JS.Qcltb]. 
    replace (JS.Qcltb 1%Qc halfQ) with false by (vm_compute; reflexivity).
    repeat f_equal; apply Qc_is_canon; vm_compute; reflexivity.
  - intros m ->. rewrite generateColorPalette_nth by lia. f_equal.
    rewrite Z2Nat.id by lia.
    rewrite colorAt_finite, ratioQ_middle by lia.
    replace (JS.Qcltb halfQ halfQ) with false by (vm_compute; reflexivity).
    unfold ofZ. repeat f_equal; apply Qc_is_canon; vm_compute; reflexivity.
Qed.

Lemma generateColorPalette_ends_witness :
  nth_error (generateColorPalette 5) 0 = Some (ofZ 0, ofZ 200, ofZ 0)
  /\ nth_error (generateColorPalette 5) (Z.to_nat (5 - 1))
     = Some (ofZ 255, ofZ 0, ofZ 0)
  /\ (forall m : Z, 5%Z = (2 * m + 1)%Z ->
      nth_error (generateColorPalette 5) (Z.to_nat m)
      = Some (ofZ 204, ofZ 200, ofZ 0)).
Proof. apply (generateColorPalette_ends 5). lia. Defined.




(** * The pipeline of [App]: breaks, palette, colors *)

Lemma appIcioValues_cleanData (icios : list value) :
  appIcioValues icios = map Num (cleanData icios).
Proof.
  unfold appIcioValues, cleanData. rewrite map_map. f_equal.
  apply filter_ext. intros v. now destruct v as [| |[|q|b]].
Qed.

Lemma uniqueCount_all_equal (l : list Qc) :
  (forall x y, In x l -> In y l -> x = y) -> uniqueCount l <= 1.
Proof.
  intros H. unfold uniqueCount.
  pose proof (NoDup_nodup Qc_eq_dec l) as HN.
  assert (HI : forall x, In x (nodup Qc_eq_dec l) -> In x l)
    by (intros x Hx; now apply nodup_In in Hx).
  destruct (nodup Qc_eq_dec l) as [|a [|b t]]; simpl; try lia.
  exfalso. inversion HN as [|? ? Ha _]; subst. apply Ha. left.
  apply H; apply HI; simpl; tauto.
Qed.

Lemma min_lt_max (l : list Qc) (lo hi : Qc) :
  2 <= uniqueCount l -> isMin lo l -> isMax hi l -> (lo < hi)%Qc.
Proof.
  intros Hu [Hlo Hmin] [Hhi Hmax].
  destruct (Qclt_le_dec lo hi) as [L|L]; [exact L|]. exfalso.
  assert (uniqueCount l <= 1); [|lia].
  apply uniqueCount_all_equal. intros x y Hx Hy.
  pose proof (Hmin x Hx). pose proof (Hmax x Hx).
  pose proof (Hmin y Hy). pose proof (Hmax y Hy).
  apply Qcle_antisym; qorder.
Qed.

Lemma hd_bget (bs : list Qc) : hd 0%Qc bs = bget bs 0.
Proof. now destruct bs. Qed.

Lemma two_entries (bs : list Qc) :
  (hd 0%Qc bs < last bs 0%Qc)%Qc -> 2 <= length bs.
Proof.
  destruct bs as [|a [|b t]]; simpl; intros H; try lia;
    exfalso; exact (Qclt_not_eq _ _ H eq_refl).
Qed.

(** * The icon atlas of [App] *)

Lemma sameValueZero_eq (x y : number) :
  JS.sameValueZero x y = true <-> x = y.
Proof.
  destruct x as [|a|s], y as [|b|t]; simpl; split; intro H;
    try reflexivity; try discriminate.
  - apply Qceqb_true in H. now subst.
  - apply Fin_inj in H. now apply Qceqb_true.
  - apply Bool.eqb_prop in H. now subst.
  - injection H as ->. apply Bool.eqb_reflx.
Qed.

Lemma sameKey_eq (c d : rgb) : sameKey c d = true <-> c = d.
Proof.
  destruct c as [[r g] b], d as [[r' g'] b']. unfold sameKey, red, green, blue.
  simpl. rewrite !andb_true_iff, !sameValueZero_eq.
  split; [intros [[-> ->] ->]; reflexivity|].
  intro H. inversion H. auto.
Qed.

Lemma mapHas_In {A : Type} (m : list (rgb * A)) (key : rgb) :
  mapHas m key = true <-> In key (map fst m).
Proof.
  induction m as [|[k y] m IH]; simpl; [split; [discriminate|tauto]|].
  rewrite orb_true_iff, sameKey_eq, IH. tauto.
Qed.

Lemma mapSet_keys {A : Type} (m : list (rgb * A)) (key : rgb) (x : A) :
  map fst (mapSet m key x)
  = if mapHas m key then map fst m else map fst m ++ [key].
Proof.
  induction m as [|[k y] m IH]; simpl; [reflexivity|].
  destruct (sameKey k key) eqn:E; simpl; [reflexivity|].
  rewrite IH. now destruct (mapHas m key).
Qed.

Lemma mapGet_mapSet_same {A : Type} (m : list (rgb * A)) (key : rgb)
  (x : A) : mapGet (mapSet m key x) key = Some x.
Proof.
  induction m as [|[k y] m IH]; simpl.
  - now rewrite (proj2 (sameKey_eq key key) eq_refl).
  - destruct (sameKey k key) eqn:E; simpl; rewrite E; [reflexivity|exact IH].
Qed.

Lemma mapGet_mapSet_other {A : Type} (m : list (rgb * A)) (k key : rgb)
  (x : A) : k <> key -> mapGet (mapSet m k x) key = mapGet m key.
Proof.
  intros N. induction m as [|[k' y] m IH]; simpl.
  - destruct (sameKey k key) eqn:E; [|reflexivity].
    apply sameKey_eq in E. contradiction.
  - destruct (sameKey k' k) eqn:E; simpl.
    + apply sameKey_eq in E. subst k'.
      destruct (sameKey k key) eqn:E'; [|reflexivity].
      apply sameKey_eq in E'. contradiction.
    + now rewrite IH.
Qed.

Lemma getICIOColor_from_palette (icio : value) (breaks : list value)
  (colors : list rgb) :
  In (getICIOColor icio breaks colors) (gray :: colors).
Proof.
  rewrite getICIOColor_unfold.
  destruct (_ || _ || _ || _); [now left|].
  destruct (nth_in_or_default (Z.to_nat (getClassIndex icio breaks))
              colors gray) as [H|H]; [now right|left; now rewrite H].
Qed.

(** The loop of [createCustomPinIcons] keeps the keys distinct, stores
    under each key the canvas of that color, and adds exactly the colors
    of the features. *)
Lemma pinIconsLoop_spec (breaks : list value) (palette : list rgb) :
  forall (icios : list value) (acc : list (rgb * canvas)),
    NoDup (map fst acc) ->
    (forall k c, In (k, c) acc -> c = k) ->
    let r := pinIconsLoop icios breaks palette acc in
    NoDup (map fst r)
    /\ (forall k c, In (k, c) r -> c = k)
    /\ (forall k, In k (map fst r) <->
                  In k (map fst acc)
                  \/ exists icio, In icio icios
                                  /\ k = getICIOColor icio breaks palette)
    /\ length r <= length acc + length icios
    /\ length acc <= length r.
Proof.
  induction icios as [|icio rest IH]; intros acc ND CV; simpl.
  - split; [exact ND|]. split; [exact CV|]. split; [|lia].
    intros k. split; [tauto|]. intros [H|(i & [] & _)]. exact H.
  - set (key := getICIOColor icio breaks palette).
    unfold colorKey.
    destruct (mapHas acc key) eqn:E; simpl.
    + destruct (IH acc ND CV) as (A & B & C & D & F).
      split; [exact A|]. split; [exact B|]. split; [|lia].
      intros k. rewrite C. split.
      * intros [H|(i & Hi & Hk)]; [now left|]. right. exists i. tauto.
      * intros [H|(i & [Hi|Hi] & Hk)]; [now left| |].
        -- left. subst i k. now apply mapHas_In.
        -- right. now exists i.
    + assert (Hfresh : ~ In key (map fst acc)).
      { intro H. apply mapHas_In in H. congruence. }
      assert (Hkeys : map fst (mapSet acc key key) = map fst acc ++ [key]).
      { rewrite mapSet_keys. now rewrite E. }
      assert (Hset : mapSet acc key key = acc ++ [(key, key)]).
      { clear -E. induction acc as [|[k y] acc IHa]; simpl; [reflexivity|].
        simpl in E. apply orb_false_iff in E. destruct E as [E1 E2].
        rewrite E1. now rewrite IHa. }
      destruct (IH (mapSet acc key key)) as (A & B & C & D & F).
      * rewrite Hkeys. apply NoDup_app; [exact ND|repeat constructor; tauto|].
        intros a Ha [<- | []]. contradiction.
      * intros k c. rewrite Hset, in_app_iff.
        intros [H|[H|[]]]; [now apply CV|]. now inversion H.
      * split; [exact A|]. split; [exact B|].
        rewrite Hset, length_app in *. simpl in *.
        split; [|lia].
        intros k. rewrite C, Hkeys, in_app_iff. simpl. split.
        -- intros [[H|[H|[]]]|(i & Hi & Hk)].
           ++ now left.
           ++ right. exists icio. split; [now left|now subst].
           ++ right. exists i. tauto.
        -- intros [H|(i & [Hi|Hi] & Hk)].
           ++ left. now left.
           ++ left. right. left. now subst.
           ++ right. now exists i.
Qed.

Lemma mapGet_In {A : Type} (m : list (rgb * A)) (key : rgb) :
  In key (map fst m) -> exists y, mapGet m key = Some y /\ In (key, y) m.
Proof.
  induction m as [|[k y] m IH]; simpl; [tauto|].
  intros H. destruct (sameKey k key) eqn:E.
  - apply sameKey_eq in E. subst k. exists y. split; [reflexivity|now left].
  - destruct H as [H|H]; [subst k; rewrite (proj2 (sameKey_eq key key) eq_refl) in E; discriminate|].
    destruct (IH H) as (z & Hz & Hin). exists z. split; [exact Hz|now right].
Qed.

Lemma iconMappingLoop_frame (numIcons : Z) (key : rgb) :
  forall (cc : list (rgb * canvas)) (index : Z) (acc : list (rgb * icon)),
    ~ In key (map fst cc) ->
    mapGet (iconMappingLoop cc numIcons index acc) key = mapGet acc key.
Proof.
  induction cc as [|[k c] cc IH]; intros index acc N; simpl; [reflexivity|].
  simpl in N. rewrite IH by tauto.
  apply mapGet_mapSet_other. tauto.
Qed.

Lemma iconMappingLoop_get (numIcons : Z) :
  forall (cc : list (rgb * canvas)) (index : Z) (acc : list (rgb * icon))
         (i : nat) (key : rgb),
    NoDup (map fst cc) ->
    nth_error (map fst cc) i = Some key ->
    mapGet (iconMappingLoop cc numIcons index acc) key
    = Some (iconCell numIcons (index + Z.of_nat i)).
Proof.
  induction cc as [|[k c] cc IH]; intros index acc i key ND Hi.
  - destruct i; discriminate.
  - simpl in ND. inversion ND as [|? ? Hk ND']; subst.
    destruct i as [|i]; simpl in Hi.
    + injection Hi as ->. simpl.
      rewrite iconMappingLoop_frame by exact Hk.
      rewrite mapGet_mapSet_same. now rewrite Z.add_0_r.
    + simpl iconMappingLoop. rewrite (IH _ _ i key ND' Hi).
      do 2 f_equal. lia.
Qed.

(** ** Geometry of the atlas *)

Lemma qz_mult (a b : Z) : (qz a * qz b)%Qc = qz (a * b).
Proof.
  apply Qc_is_canon. unfold qz, Qcmult, Q2Qc. cbn [this].
  rewrite !Qred_correct. now rewrite inject_Z_mult.
Qed.

Lemma Qceiling_div (n p : Z) :
  p <> 0%Z -> Qceiling (qz n / qz p)%Qc = (- ((- n) / p))%Z.
Proof.
  intros Hp. unfold Qceiling. f_equal. rewrite Zdiv_Qdiv.
  apply Qfloor_comp.
  unfold Qcdiv, Qcmult, Qcinv, qz, Q2Qc. cbn [this].
  rewrite !Qred_correct. rewrite inject_Z_opp.
  assert (~ inject_Z p == 0)%Q.
  { intro E. apply Hp. unfold Qeq in E. simpl in E. lia. }
  field. assumption.
Qed.

Lemma atlasHeight_rows (numIcons : Z) :
  (1 <= numIcons)%Z ->
  atlasHeight numIcons
  = ofZ (- ((- numIcons) / iconsPerRow numIcons) * iconSize).
Proof.
  intros Hn. unfold atlasHeight, iconsPerRow.
  assert (Hp : (0 < Z.sqrt_up numIcons)%Z) by (apply Z.sqrt_up_pos; lia).
  unfold ofZ at 1 2. unfold JS.divN.
  rewrite qz_neq0 by lia. unfold ceil.
  rewrite Qceiling_div by lia.
  unfold ofZ, JS.mulN. now rewrite qz_mult.
Qed.

(** X14. The icon of every feature exists.  For a non-empty list of
    features, breaks and a non-empty palette, [createCustomPinIcons] builds
    between one canvas and one canvas per feature, at most one per palette
    color plus one for the fallback gray; and for every feature the key
    that [getIcon] returns is a key of [iconMapping], whose entry is the
    cell of some index below the number of icons, and of the canvas map,
    whose canvas has the color of the feature. *)
Theorem app_icons_found (icios : list value) (breaks : list value)
  (palette : list rgb) :
  icios <> [] -> palette <> [] ->
  exists colorCanvases : list (rgb * canvas),
    createCustomPinIcons icios (Some breaks) palette = Some colorCanvases
    /\ 1 <= length colorCanvases <= length icios
    /\ length colorCanvases <= length palette + 1
    /\ forall icio, In icio icios ->
       mapGet colorCanvases (getIcon icio breaks palette)
       = Some (getICIOColor icio breaks palette)
       /\ exists index : Z,
           (0 <= index < JS.len colorCanvases)%Z
           /\ mapGet (iconMappingOf colorCanvases)
                (getIcon icio breaks palette)
              = Some (iconCell (JS.len colorCanvases) index).
Proof.
  intros Hi Hp.
  exists (pinIconsLoop icios breaks palette []).
  destruct (pinIconsLoop_spec breaks palette icios [])
    as (ND & CV & KEYS & LEN & _); [constructor|intros k c []|].
  simpl in LEN.
  set (cc := pinIconsLoop icios breaks palette []) in *.
  split.
  { unfold createCustomPinIcons.
    destruct icios; [contradiction|]. destruct palette; [contradiction|].
    reflexivity. }
  assert (Hin : forall icio, In icio icios ->
                  In (getICIOColor icio breaks palette) (map fst cc)).
  { intros icio H. apply KEYS. right. now exists icio. }
  split; [split; [|exact LEN]|].
  { destruct icios as [|i0 rest]; [contradiction|].
    specialize (Hin i0 (or_introl eq_refl)).
    rewrite <- (length_map fst). destruct (map fst cc); [contradiction|].
    simpl. lia. }
  split.
  { rewrite <- (length_map fst cc).
    replace (length palette + 1) with (length (gray :: palette))
      by (simpl; lia).
    apply NoDup_incl_length; [exact ND|].
    intros k Hk. apply KEYS in Hk. destruct Hk as [[]|(i & _ & ->)].
    apply getICIOColor_from_palette. }
  intros icio H. unfold getIcon, colorKey.
  specialize (Hin icio H). split.
  - destruct (mapGet_In cc _ Hin) as (y & Hy & Hyin).
    rewrite Hy. f_equal. now apply CV in Hyin.
  - destruct (In_nth_error _ _ Hin) as (i & Hnth).
    exists (Z.of_nat i). split.
    + assert (i < length (map fst cc))
        by (apply nth_error_Some; congruence).
      rewrite length_map in *. unfold JS.len. lia.
    + unfold iconMappingOf.
      now rewrite (iconMappingLoop_get _ cc 0 [] i _ ND Hnth).
Qed.

Lemma app_icons_found_witness :
  exists colorCanvases : list (rgb * canvas),
    createCustomPinIcons [numZ 1; numZ 5; Null] (Some [numZ 1; numZ 4; numZ 7])
      (generateColorPalette 2) = Some colorCanvases
    /\ 1 <= length colorCanvases <= 3.
Proof.
  destruct (app_icons_found [numZ 1; numZ 5; Null] [numZ 1; numZ 4; numZ 7]
              (generateColorPalette 2)) as (cc & H & L & _);
    [discriminate|discriminate|].
  exists cc. split; [exact H|exact L].
Defined.

(** X15. Layout of the atlas for [numIcons >= 1] icons of 40 by 40 pixels:
    the number of icons per row is the least whose square holds them all;
    the atlas has as many rows as the icons fill, none of them empty and
    not more rows than columns; every icon's cell lies inside the atlas;
    and the cells of two different icons do not overlap. *)
Theorem atlas_layout (numIcons : Z) :
  (1 <= numIcons)%Z ->
  let perRow := iconsPerRow numIcons in
  ((perRow - 1) * (perRow - 1) < numIcons <= perRow * perRow)%Z
  /\ exists rows : Z,
      atlasHeight numIcons = ofZ (rows * iconSize)
      /\ (1 <= rows <= perRow)%Z
      /\ ((rows - 1) * perRow < numIcons <= rows * perRow)%Z
      /\ (forall index, (0 <= index < numIcons)%Z ->
          let c := iconCell numIcons index in
          (0 <= icon_x c)%Z
          /\ (icon_x c + icon_width c <= atlasWidth numIcons)%Z
          /\ (0 <= icon_y c)%Z
          /\ (icon_y c + icon_height c <= rows * iconSize)%Z)
      /\ (forall i j, (0 <= i < numIcons)%Z -> (0 <= j < numIcons)%Z ->
          i <> j ->
          let c := iconCell numIcons i in
          let d := iconCell numIcons j in
          (icon_x c + icon_width c <= icon_x d)%Z
          \/ (icon_x d + icon_width d <= icon_x c)%Z
          \/ (icon_y c + icon_height c <= icon_y d)%Z
          \/ (icon_y d + icon_height d <= icon_y c)%Z).
Proof.
  intros Hn perRow.
  assert (Hspec := Z.sqrt_up_spec numIcons ltac:(lia)).
  fold (iconsPerRow numIcons) in Hspec. fold perRow in Hspec.
  assert (Hp : (0 < perRow)%Z) by (apply Z.sqrt_up_pos; lia).
  split; [unfold Z.pred in Hspec; lia|].
  exists (- ((- numIcons) / perRow))%Z.
  split; [now apply atlasHeight_rows|].
  assert (Hdm := Z.div_mod (- numIcons) perRow ltac:(lia)).
  assert (Hm := Z.mod_pos_bound (- numIcons) perRow Hp).
  set (q := (- numIcons / perRow)%Z) in *.
  set (r := ((- numIcons) mod perRow)%Z) in *.
  assert (Hrows : ((- q - 1) * perRow < numIcons <= - q * perRow)%Z) by nia.
  split; [unfold Z.pred in Hspec; nia|].
  split; [exact Hrows|].
  unfold iconCell, atlasWidth, iconSize. cbn [icon_x icon_y icon_width icon_height].
  fold perRow.
  split.
  - intros index Hidx.
    assert (Hdi := Z.div_mod index perRow ltac:(lia)).
    assert (Hmi := Z.mod_pos_bound index perRow Hp).
    assert (0 <= index / perRow)%Z by (apply Z.div_pos; lia).
    assert (index / perRow < - q)%Z by nia.
    lia.
  - intros i j Hi Hj Hij.
    assert (Hdi := Z.div_mod i perRow ltac:(lia)).
    assert (Hmi := Z.mod_pos_bound i perRow Hp).
    assert (Hdj := Z.div_mod j perRow ltac:(lia)).
    assert (Hmj := Z.mod_pos_bound j perRow Hp).
    destruct (Z.eq_dec (i mod perRow) (j mod perRow)) as [E|E];
      [|lia].
    destruct (Z.eq_dec (i / perRow) (j / perRow)) as [E'|E']; [|lia].
    exfalso. apply Hij. rewrite Hdi, Hdj, E, E'. reflexivity.
Qed.

Lemma atlas_layout_witness :
  ((iconsPerRow 5 - 1) * (iconsPerRow 5 - 1) < 5
   <= iconsPerRow 5 * iconsPerRow 5)%Z.
Proof.
  destruct (atlas_layout 5) as (A & _); [lia|]. exact A.
Defined.

(** * The total range and the breaks *)

Lemma isMin_unique (a b : Qc) (l : list Qc) :
  isMin a l -> isMin b l -> a = b.
Proof.
  intros [Ha Ha'] [Hb Hb']. apply Qcle_antisym; auto.
Qed.

Lemma isMax_unique (a b : Qc) (l : list Qc) :
  isMax a l -> isMax b l -> a = b.
Proof.
  intros [Ha Ha'] [Hb Hb']. apply Qcle_antisym; auto.
Qed.

Lemma fold_minN_fin (l : list Qc) :
  forall a : Qc,
    exists m : Qc,
      fold_left minN (map Fin l) (Fin a) = Fin m /\ isMin m (a :: l).
Proof.
  induction l as [|x l IH]; intros a; simpl.
  - exists a. split; [reflexivity|]. split; [now left|].
    intros y [<-|[]]. apply Qcle_refl.
  - destruct (JS.Qcltb x a) eqn:E.
    + apply Qcltb_true in E. destruct (IH x) as (m & Hm & Hin & Hle).
      exists m. split; [exact Hm|]. split.
      * right. exact Hin.
      * intros y [<-|Hy]; [|now apply Hle].
        apply Qcle_trans with x; [apply Hle; now left|].
        now apply Qclt_le_weak.
    + apply Qcltb_false in E. destruct (IH a) as (m & Hm & Hin & Hle).
      exists m. split; [exact Hm|]. split.
      * destruct Hin as [<-|Hin]; [now left|right; now right].
      * intros y [<-|[<-|Hy]].
        -- apply Hle. now left.
        -- apply Qcle_trans with a; [apply Hle; now left|exact E].
        -- apply Hle. now right.
Qed.

Lemma fold_maxN_fin (l : list Qc) :
  forall a : Qc,
    exists m : Qc,
      fold_left maxN (map Fin l) (Fin a) = Fin m /\ isMax m (a :: l).
Proof.
  induction l as [|x l IH]; intros a; simpl.
  - exists a. split; [reflexivity|]. split; [now left|].
    intros y [<-|[]]. apply Qcle_refl.
  - destruct (JS.Qcltb a x) eqn:E.
    + apply Qcltb_true in E. destruct (IH x) as (m & Hm & Hin & Hle).
      exists m. split; [exact Hm|]. split.
      * right. exact Hin.
      * intros y [<-|Hy]; [|now apply Hle].
        apply Qcle_trans with x; [now apply Qclt_le_weak|].
        apply Hle. now left.
    + apply Qcltb_false in E. destruct (IH a) as (m & Hm & Hin & Hle).
      exists m. split; [exact Hm|]. split.
      * destruct Hin as [<-|Hin]; [now left|right; now right].
      * intros y [<-|[<-|Hy]].
        -- apply Hle. now left.
        -- apply Qcle_trans with a; [exact E|apply Hle; now left].
        -- apply Hle. now right.
Qed.

Lemma mathMin_fin (l : list Qc) :
  l <> [] -> exists m, mathMin (map num l) = Fin m /\ isMin m l.
Proof.
  destruct l as [|a l]; [congruence|]. intros _.
  unfold mathMin. rewrite map_map. simpl.
  change (fun x => JS.toNumber (num x)) with Fin.
  apply fold_minN_fin.
Qed.

Lemma mathMax_fin (l : list Qc) :
  l <> [] -> exists m, mathMax (map num l) = Fin m /\ isMax m l.
Proof.
  destruct l as [|a l]; [congruence|]. intros _.
  unfold mathMax. rewrite map_map. simpl.
  change (fun x => JS.toNumber (num x)) with Fin.
  apply fold_maxN_fin.
Qed.

Lemma icioValues_finite (icios : list value) :
  noInfinity icios ->
  filter (fun v => negb (match v with Null => true | _ => false end)
                   && negb (JS.isNaN v)) icios
  = map num (finiteValues icios).
Proof.
  unfold noInfinity. induction icios as [|v icios IH]; intros H;
    [reflexivity|].
  assert (H' : forall b, ~ In (Num (Inf b)) icios)
    by (intros b Hb; apply (H b); now right).
  specialize (IH H').
  destruct v as [| |[|q|b]]; simpl; rewrite ?IH; try reflexivity.
  exfalso. apply (H b). now left.
Qed.

(** * The legend and the colors of the map *)

Lemma legendLoop_nth (naturalBreaks : option (list value))
  (legendLength : Z) (colors : list rgb) :
  forall (index : Z) (i : nat),
    nth_error (legendLoop naturalBreaks legendLength colors index) i
    = match nth_error colors i with
      | Some color =>
          Some (legendItem naturalBreaks legendLength color
                  (index + Z.of_nat i))
      | None => None
      end.
Proof.
  induction colors as [|c colors IH]; intros index i.
  - now destruct i.
  - destruct i as [|i]; simpl.
    + now rewrite Z.add_0_r.
    + rewrite IH. destruct (nth_error colors i); [|reflexivity].
      do 2 f_equal. lia.
Qed.

Lemma legendLoop_length (naturalBreaks : option (list value))
  (legendLength : Z) (colors : list rgb) :
  forall index,
    length (legendLoop naturalBreaks legendLength colors index)
    = length colors.
Proof.
  induction colors as [|c colors IH]; intros index; simpl;
    [reflexivity|now rewrite IH].
Qed.

(** * Colors as text *)

Lemma byte_range (x : Z) :
  (0 <= x <= 255)%Z -> In x (map Z.of_nat (seq 0 256)).
Proof.
  intros H. apply in_map_iff. exists (Z.to_nat x).
  split; [lia|]. apply in_seq. lia.
Qed.

Lemma hex2_channel (x : Z) :
  (0 <= x <= 255)%Z ->
  String.length (hex2 x) = 2 /\ parseHex (hex2 x) = Some x.
Proof.
  intros H. apply byte_range in H. revert x H. apply Forall_forall.
  apply Forall_forall. intros x Hx.
  assert (F : forallb (fun x => (String.length (hex2 x) =? 2)%nat
                        && match parseHex (hex2 x) with
                           | Some y => (y =? x)%Z
                           | None => false
                           end)
                (map Z.of_nat (seq 0 256)) = true) by (vm_compute; reflexivity).
  rewrite forallb_forall in F. specialize (F x Hx).
  apply andb_true_iff in F. destruct F as [F1 F2].
  apply Nat.eqb_eq in F1. split; [exact F1|].
  destruct (parseHex (hex2 x)); [|discriminate].
  apply Z.eqb_eq in F2. now subst.
Qed.

Lemma rgbToHex_three (r g b : Z) :
  rgbToHex [r; g; b]
  = String.append "#"
      (String.append (hex2 r) (String.append (hex2 g) (hex2 b))).
Proof.
  unfold rgbToHex. cbn [map String.concat]. fold (hex2 r) (hex2 g) (hex2 b).
  reflexivity.
Qed.

Lemma rgbToHex_channels (r g b : Z) :
  (0 <= r <= 255)%Z -> (0 <= g <= 255)%Z -> (0 <= b <= 255)%Z ->
  exists hr hg hb : string,
    rgbToHex [r; g; b]
    = String.append "#" (String.append hr (String.append hg hb))
    /\ (String.length hr = 2 /\ String.length hg = 2
        /\ String.length hb = 2)
    /\ (parseHex hr = Some r /\ parseHex hg = Some g
        /\ parseHex hb = Some b).
Proof.
  intros Hr Hg Hb. exists (hex2 r), (hex2 g), (hex2 b).
  destruct (hex2_channel r Hr), (hex2_channel g Hg), (hex2_channel b Hb).
  rewrite rgbToHex_three. tauto.
Qed.

Lemma string_length_append (a b : string) :
  String.length (String.append a b) = String.length a + String.length b.
Proof. induction a as [|c a IH]; simpl; [reflexivity|now rewrite IH]. Qed.

Lemma append_length2_inj (a a' b b' : string) :
  String.length a = 2 -> String.length a' = 2 ->
  String.append a b = String.append a' b' -> a = a' /\ b = b'.
Proof.
  destruct a as [|c1 [|c2 [|]]]; try discriminate.
  destruct a' as [|d1 [|d2 [|]]]; try discriminate.
  intros _ _ H. simpl in H. inversion H. now subst.
Qed.

(** X16. Round trip of [rgbToHex] on channels within 0..255: the text is
    a number sign followed by exactly two lowercase hexadecimal digits per
    channel (seven characters), each pair reads back as its channel, and
    different colors give different texts. *)
Theorem rgbToHex_roundtrip (r g b : Z) :
  (0 <= r <= 255)%Z -> (0 <= g <= 255)%Z -> (0 <= b <= 255)%Z ->
  String.length (rgbToHex [r; g; b]) = 7
  /\ (exists hr hg hb : string,
        rgbToHex [r; g; b]
        = String.append "#" (String.append hr (String.append hg hb))
        /\ (String.length hr = 2 /\ String.length hg = 2
            /\ String.length hb = 2)
        /\ (parseHex hr = Some r /\ parseHex hg = Some g
            /\ parseHex hb = Some b))
  /\ (forall r' g' b' : Z,
        (0 <= r' <= 255)%Z -> (0 <= g' <= 255)%Z -> (0 <= b' <= 255)%Z ->
        rgbToHex [r; g; b] = rgbToHex [r'; g'; b'] ->
        r = r' /\ g = g' /\ b = b').
Proof.
  intros Hr Hg Hb.
  destruct (hex2_channel r Hr) as [Lr Pr], (hex2_channel g Hg) as [Lg Pg],
           (hex2_channel b Hb) as [Lb Pb].
  split; [|split].
  - rewrite rgbToHex_three.
    cbn [String.append String.length].
    rewrite !string_length_append. lia.
  - now apply rgbToHex_channels.
  - intros r' g' b' Hr' Hg' Hb' E.
    destruct (hex2_channel r' Hr') as [Lr' Pr'],
             (hex2_channel g' Hg') as [Lg' Pg'],
             (hex2_channel b' Hb') as [Lb' Pb'].
    rewrite !rgbToHex_three in E. cbn [String.append] in E.
    injection E as E.
    apply append_length2_inj in E as [E1 E]; [|assumption..].
    apply append_length2_inj in E as [E2 E3]; [|assumption..].
    rewrite E1 in Pr. rewrite E2 in Pg. rewrite E3 in Pb.
    repeat split; congruence.
Qed.

Lemma rgbToHex_roundtrip_witness :
  String.length (rgbToHex [204; 200; 0]%Z) = 7.
Proof.
  destruct (rgbToHex_roundtrip 204 200 0) as (A & _); [lia..|]. exact A.
Defined.




(** * Features from the rows of the CSV file *)

Lemma objGet_objSet_same (obj : list (string * property)) (key : string)
  (x : property) : objGet (objSet obj key x) key = Some x.
Proof.
  induction obj as [|[k y] obj IH]; simpl.
  - now rewrite String.eqb_refl.
  - destruct (String.eqb k key) eqn:E; simpl; rewrite E; [reflexivity|exact IH].
Qed.

Lemma objGet_objSet_other (obj : list (string * property)) (k key : string)
  (x : property) : k <> key -> objGet (objSet obj k x) key = objGet obj key.
Proof.
  intros N. induction obj as [|[k' y] obj IH]; simpl.
  - now rewrite (proj2 (String.eqb_neq _ _) N).
  - destruct (String.eqb_spec k' k) as [->|N']; simpl.
    + now rewrite (proj2 (String.eqb_neq _ _) N).
    + now rewrite IH.
Qed.

Lemma rowGet_None (r : row) (key : string) :
  ~ In key (map fst r) -> rowGet r key = None.
Proof.
  induction r as [|[k v] r IH]; simpl; [reflexivity|].
  intros N. destruct (String.eqb_spec k key) as [E|_]; [tauto|].
  apply IH. tauto.
Qed.

(** Every column of the row is copied, and a key that the row does not
    have keeps what the object held. *)
Lemma spread_get (r : row) :
  NoDup (map fst r) ->
  forall (obj : list (string * property)) (key : string),
    objGet (spread obj r) key
    = match rowGet r key with
      | Some v => Some (PText v)
      | None => objGet obj key
      end.
Proof.
  unfold spread.
  induction r as [|[k v] r IH]; intros ND obj key; [reflexivity|].
  simpl in ND. inversion ND as [|? ? Hk ND']; subst.
  simpl. rewrite (IH ND').
  destruct (String.eqb_spec k key) as [->|N].
  - rewrite (rowGet_None r key Hk). apply objGet_objSet_same.
  - destruct (rowGet r key); [reflexivity|].
    now apply objGet_objSet_other.
Qed.

Section CsvParserLemmas.

Variable toLowerCase : string -> string.
Variable includes : string -> string -> bool.
Variable parseFloat : string -> number.

Lemma convertRow_coordinates (r : row) (index : nat) (f : feature) :
  convertRow toLowerCase includes parseFloat r index = Some f ->
  exists lon lat : Qc,
    coordinates f = (Fin lon, Fin lat)
    /\ (qz (-90) <= lat)%Qc /\ (lat <= qz 90)%Qc
    /\ (qz (-180) <= lon)%Qc /\ (lon <= qz 180)%Qc.
Proof.
  unfold convertRow.
  destruct (detectColumn _ _ r ["lat"; "latitude"; "y"; "coord_y"]%string)
    as [latCol|]; [|discriminate].
  destruct (detectColumn _ _ r _) as [lonCol|]; [|discriminate].
  cbv zeta.
  destruct (parseCell parseFloat r latCol) as [|lat|[|]];
    try discriminate;
    destruct (parseCell parseFloat r lonCol) as [|lon|[|]];
    try discriminate.
  - cbn [JS.isNaN JS.toNumber orb JS.ltN]. unfold ofZ.
    cbn [JS.ltN].
    destruct (JS.Qcltb lat (qz (-90))) eqn:E1; [discriminate|].
    destruct (JS.Qcltb (qz 90) lat) eqn:E2; [discriminate|].
    destruct (JS.Qcltb lon (qz (-180))) eqn:E3; [discriminate|].
    destruct (JS.Qcltb (qz 180) lon) eqn:E4; [discriminate|].
    cbn [orb]. intros [= <-]. exists lon, lat.
    apply Qcltb_false in E1, E2, E3, E4. cbn [coordinates]. tauto.
  - cbn [JS.isNaN JS.toNumber orb JS.ltN]. unfold ofZ. cbn [JS.ltN negb].
    destruct (JS.Qcltb lat (qz (-90))); [discriminate|].
    destruct (JS.Qcltb (qz 90) lat); discriminate.
  - cbn [JS.isNaN JS.toNumber orb JS.ltN]. unfold ofZ. cbn [JS.ltN negb].
    destruct (JS.Qcltb lat (qz (-90))); [discriminate|].
    destruct (JS.Qcltb (qz 90) lat); discriminate.
Qed.

Lemma convertRows_In (data : list row) :
  forall (index : nat) (f : feature),
    In f (convertRows toLowerCase includes parseFloat data index) ->
    exists (r : row) (k : nat),
      nth_error data k = Some r
      /\ convertRow toLowerCase includes parseFloat r (index + k) = Some f.
Proof.
  induction data as [|r data IH]; intros index f H; [destruct H|].
  simpl in H.
  assert (Hrest : In f (convertRows toLowerCase includes parseFloat data
                          (index + 1)) ->
                  exists (r0 : row) (k : nat),
                    nth_error (r :: data) k = Some r0
                    /\ convertRow toLowerCase includes parseFloat r0
                         (index + k) = Some f).
  { intros H'. destruct (IH _ _ H') as (r0 & k & Hk & Hc).
    exists r0, (S k). split; [exact Hk|].
    now replace (index + S k) with (index + 1 + k) by lia. }
  destruct (convertRow toLowerCase includes parseFloat r index) as [g|] eqn:E;
    [|now apply Hrest].
  destruct H as [<-|H]; [|now apply Hrest].
  exists r, 0. split; [reflexivity|]. now rewrite Nat.add_0_r.
Qed.

Lemma convertRows_length (data : list row) :
  forall index,
    length (convertRows toLowerCase includes parseFloat data index)
    <= length data.
Proof.
  induction data as [|r data IH]; intros index; simpl; [lia|].
  destruct (convertRow _ _ _ r index); simpl; specialize (IH (index + 1)); lia.
Qed.

Lemma cityOf_nonempty (r : row) (index : nat) :
  cityOf toLowerCase includes r index <> ""%string.
Proof.
  unfold cityOf.
  set (fallback := match detectColumn _ _ r ["capital"%string] with
                   | Some capitalCol => _
                   | None => None
                   end).
  assert (Hf : match fallback with
               | Some c' => c'
               | None => String.append "City "
                           (NilEmpty.string_of_uint (Nat.to_uint (index + 1)))
               end <> ""%string).
  { subst fallback.
    destruct (detectColumn _ _ r ["capital"%string]) as [c|];
      [|discriminate].
    destruct (rowGet r c) as [v|]; [|discriminate].
    destruct (String.eqb_spec v ""); [discriminate|assumption]. }
  destruct (match detectColumn _ _ r _ with
            | Some cityCol => rowGet r cityCol
            | None => None
            end) as [c|]; [|exact Hf].
  destruct (String.eqb_spec c "") as [E|N]; [exact Hf|].
  cbn [orb]. destruct (String.eqb c "nan"); [exact Hf|exact N].
Qed.

Lemma convertRow_properties (r : row) (index : nat) (f : feature) :
  NoDup (map fst r) ->
  convertRow toLowerCase includes parseFloat r index = Some f ->
  forall key : string,
    objGet (properties f) key
    = match rowGet r key with
      | Some v => Some (PText v)
      | None =>
          if String.eqb key "city"
          then Some (PText (cityOf toLowerCase includes r index))
          else if String.eqb key "icio"
          then Some (PValue
                 match detectColumn toLowerCase includes r
                         ["icio"; "tipo icio"; "value"; "valor"; "ic";
                          "icío"]%string with
                 | Some icioCol => Num (parseCell parseFloat r icioCol)
                 | None => Null
                 end)
          else None
      end.
Proof.
  intros ND. unfold convertRow.
  destruct (detectColumn _ _ r ["lat"; "latitude"; "y"; "coord_y"]%string)
    as [latCol|]; [|discriminate].
  destruct (detectColumn _ _ r
              ["lon"; "lng"; "longitude"; "x"; "coord_x"; "long"]%string)
    as [lonCol|]; [|discriminate].
  cbv zeta.
  destruct (_ || _); [discriminate|].
  destruct (_ || _); [discriminate|].
  destruct (_ || _); [discriminate|].
  intros [= <-] key. cbn [properties].
  rewrite (spread_get r ND).
  destruct (rowGet r key); [reflexivity|].
  cbn [objGet]. rewrite (String.eqb_sym "city"), (String.eqb_sym "icio").
  reflexivity.
Qed.

End CsvParserLemmas.

(** X22. Every feature that [convertToGeoJSON] makes from the rows of the
    CSV file has finite coordinates, the latitude within -90..90 and the
    longitude within -180..180, whatever the rows hold and whatever
    [parseFloat] reads from them; so the coordinate check of
    [CircleMarkers] skips none of them.  There are at most as many
    features as rows. *)
Theorem convertToGeoJSON_coordinates (toLowerCase : string -> string)
  (includes : string -> string -> bool) (parseFloat : string -> number)
  (data : list row) :
  length (convertToGeoJSON toLowerCase includes parseFloat data)
  <= length data
  /\ forall f : feature,
      In f (convertToGeoJSON toLowerCase includes parseFloat data) ->
      markerSkipped (coordinates f) = false
      /\ exists lon lat : Qc,
          coordinates f = (Fin lon, Fin lat)
          /\ (qz (-90) <= lat)%Qc /\ (lat <= qz 90)%Qc
          /\ (qz (-180) <= lon)%Qc /\ (lon <= qz 180)%Qc.
Proof.
  split; [apply convertRows_length|].
  intros f Hf. apply convertRows_In in Hf. destruct Hf as (r & k & _ & Hc).
  destruct (convertRow_coordinates _ _ _ _ _ _ Hc)
    as (lon & lat & E & B1 & B2 & B3 & B4).
  split; [|exists lon, lat; tauto].
  rewrite E. unfold markerSkipped, ofZ.
  cbn [JS.isNaN JS.toNumber JS.ltN orb].
  now rewrite (proj2 (Qcltb_false _ _) B1), (proj2 (Qcltb_false _ _) B2),
    (proj2 (Qcltb_false _ _) B3), (proj2 (Qcltb_false _ _) B4).
Qed.

(** X23. The properties of a feature, for rows whose keys are distinct (as
    the keys of an object are).  A feature comes from a row of the data
    and keeps every column of that row under its name with the text of the
    cell; so a column named city or icio replaces the computed entry.
    Without such a column, [city] is a text that is never empty and [icio]
    is a number (possibly NaN) or [null], never [undefined]; and there are
    no other properties. *)
Theorem convertToGeoJSON_properties (toLowerCase : string -> string)
  (includes : string -> string -> bool) (parseFloat : string -> number)
  (data : list row) (f : feature) :
  (forall r, In r data -> NoDup (map fst r)) ->
  In f (convertToGeoJSON toLowerCase includes parseFloat data) ->
  exists (r : row) (index : nat),
    nth_error data index = Some r
    /\ (forall key v, rowGet r key = Some v ->
        objGet (properties f) key = Some (PText v))
    /\ (rowGet r "city" = None ->
        exists c : string,
          objGet (properties f) "city" = Some (PText c) /\ c <> ""%string)
    /\ (rowGet r "icio" = None ->
        exists v : value,
          objGet (properties f) "icio" = Some (PValue v) /\ v <> Undefined)
    /\ (forall key, key <> "city"%string -> key <> "icio"%string ->
        rowGet r key = None -> objGet (properties f) key = None).
Proof.
  intros Hkeys Hf. apply convertRows_In in Hf.
  destruct Hf as (r & k & Hk & Hc). exists r, k.
  assert (ND : NoDup (map fst r))
    by (apply Hkeys; eapply nth_error_In; exact Hk).
  pose proof (convertRow_properties _ _ _ _ _ _ ND Hc) as P.
  split; [exact Hk|]. split; [|split; [|split]].
  - intros key v Hv. rewrite P, Hv. reflexivity.
  - intros Hn. rewrite P, Hn. cbn [String.eqb Ascii.eqb Bool.eqb].
    eexists. split; [reflexivity|]. apply cityOf_nonempty.
  - intros Hn. rewrite P, Hn. cbn [String.eqb Ascii.eqb Bool.eqb].
    eexists. split; [reflexivity|].
    destruct (detectColumn _ _ r _); discriminate.
  - intros key N1 N2 Hn. rewrite P, Hn.
    rewrite (proj2 (String.eqb_neq _ _) N1), (proj2 (String.eqb_neq _ _) N2).
    reflexivity.
Qed.

Lemma convertToGeoJSON_properties_witness :
  exists (r : row) (index : nat),
    nth_error [[("lat", "40.4"); ("lon", "-3.7")]]%string index = Some r
    /\ (forall key v, rowGet r key = Some v ->
        objGet [("city", PText "City 1"); ("icio", PValue Null);
                ("lat", PText "40.4"); ("lon", PText "-3.7")]%string key
        = Some (PText v)).
Proof.
  destruct (convertToGeoJSON_properties (fun s => s) String.eqb
              (fun _ => ofZ 40)
              [[("lat", "40.4"); ("lon", "-3.7")]]%string
              (Feature (ofZ 40, ofZ 40)
                 [("city", PText "City 1"); ("icio", PValue Null);
                  ("lat", PText "40.4"); ("lon", PText "-3.7")]%string))
    as (r & index & A & B & _).
  - intros r [<-|[]]. simpl. repeat constructor; simpl; intuition discriminate.
  - left. reflexivity.
  - exists r, index. split; [exact A|exact B].
Defined.

(** ** Which column is detected *)

Lemma find_split {A : Type} (p : A -> bool) (l : list A) (x : A) :
  find p l = Some x ->
  exists pre post,
    l = pre ++ x :: post /\ p x = true
    /\ forall y, In y pre -> p y = false.
Proof.
  induction l as [|a l IH]; simpl; [discriminate|].
  destruct (p a) eqn:E.
  - intros [= ->]. exists [], l. split; [reflexivity|].
    split; [exact E|]. intros y [].
  - intros H. destruct (IH H) as (pre & post & -> & Hx & Hpre).
    exists (a :: pre), post. split; [reflexivity|]. split; [exact Hx|].
    intros y [<-|Hy]; [exact E|now apply Hpre].
Qed.

Lemma find_none_all {A : Type} (p : A -> bool) (l : list A) :
  find p l = None -> forall y, In y l -> p y = false.
Proof. intros H y Hy. exact (find_none p l H y Hy). Qed.

(** X24. Which column [detectColumn] returns, for a row without an empty
    key.  The candidate names are tried in order and the keys of the row
    in order for each name: the result is the first key that contains
    (case-insensitively) the first name that any key contains, even when
    an earlier key contains a later name; it is [null] exactly when no key
    contains any of the names. *)
Theorem detectColumn_first (toLowerCase : string -> string)
  (includes : string -> string -> bool) (r : row)
  (possibleNames : list string) :
  ~ In ""%string (map fst r) ->
  let matches k name := includes (toLowerCase k) (toLowerCase name) in
  match detectColumn toLowerCase includes r possibleNames with
  | Some found =>
      exists (skipped : list string) (name : string) (later : list string)
             (before after : list string),
        possibleNames = skipped ++ name :: later
        /\ map fst r = before ++ found :: after
        /\ matches found name = true
        /\ (forall k, In k before -> matches k name = false)
        /\ (forall n k, In n skipped -> In k (map fst r) ->
            matches k n = false)
  | None =>
      forall n k, In n possibleNames -> In k (map fst r) ->
                  matches k n = false
  end.
Proof.
  intros Hkeys matches.
  induction possibleNames as [|name rest IH]; [intros n k []|].
  cbn [detectColumn].
  destruct (find (fun k => includes (toLowerCase k) (toLowerCase name))
              (map fst r)) as [found|] eqn:E.
  - destruct (find_split _ _ _ E) as (before & after & Hsplit & Hm & Hb).
    destruct (String.eqb_spec found "") as [->|_].
    { exfalso. apply Hkeys. rewrite Hsplit. apply in_elt. }
    exists [], name, rest, before, after.
    split; [reflexivity|]. split; [exact Hsplit|]. split; [exact Hm|].
    split; [exact Hb|]. intros n k [].
  - pose proof (find_none_all _ _ E) as Hnone.
    destruct (detectColumn toLowerCase includes r rest) as [found|].
    + destruct IH as (skipped & nm & later & before & after
                      & -> & Hsplit & Hm & Hb & Hs).
      exists (name :: skipped), nm, later, before, after.
      split; [reflexivity|]. split; [exact Hsplit|]. split; [exact Hm|].
      split; [exact Hb|].
      intros n k [<-|Hn] Hk; [now apply Hnone|now apply Hs].
    + intros n k [<-|Hn] Hk; [now apply Hnone|now apply IH].
Qed.

Lemma detectColumn_first_witness :
  let r := [("City", "Madrid"); ("y", "40.4"); ("lat", "41")]%string in
  let possibleNames := ["lat"; "latitude"; "y"; "coord_y"]%string in
  match detectColumn (fun s => s) String.eqb r possibleNames with
  | Some found =>
      exists (skipped : list string) (name : string) (later : list string)
             (before after : list string),
        possibleNames = skipped ++ name :: later
        /\ map fst r = before ++ found :: after
        /\ String.eqb found name = true
        /\ (forall k, In k before -> String.eqb k name = false)
        /\ (forall n k, In n skipped -> In k (map fst r) ->
            String.eqb k n = false)
  | None =>
      forall n k, In n possibleNames -> In k (map fst r) ->
                  String.eqb k n = false
  end.
Proof.
  intros r possibleNames.
  apply (detectColumn_first (fun s => s) String.eqb r possibleNames).
  simpl. intuition discriminate.
Defined.

(** * The calculator *)

Lemma findValue_None (table : list (string * number)) (key : string) :
  ~ In key (map fst table) -> findValue table key = None.
Proof.
  induction table as [|[v y] t IH]; simpl; [reflexivity|].
  intros N. destruct (String.eqb_spec v key) as [E|_]; [tauto|].
  apply IH. tauto.
Qed.

Lemma findBuildType_None (buildTypes : list buildType)
  (buildingFunction : string) :
  (forall bt, In bt buildTypes -> subtype bt <> buildingFunction) ->
  findBuildType buildTypes buildingFunction = None.
Proof.
  induction buildTypes as [|b t IH]; simpl; [reflexivity|].
  intros H. destruct (String.eqb_spec (subtype b) buildingFunction) as [E|_].
  - exfalso. apply (H b); [now left|exact E].
  - apply IH. intros bt Hbt. apply H. now right.
Qed.

(** * Reading the build types *)

Lemma string_append_assoc (a b c : string) :
  String.append (String.append a b) c = String.append a (String.append b c).
Proof. induction a as [|x a IH]; simpl; [reflexivity|now rewrite IH]. Qed.

Lemma string_append_nil_r (a : string) : String.append a "" = a.
Proof. induction a as [|x a IH]; simpl; [reflexivity|now rewrite IH]. Qed.

Section ParseLineLemmas.

Variable trim : string -> string.

(** Characters that are neither quotes nor separating commas are added to
    the current field. *)
Lemma parseCSVLineLoop_plain (s : string) :
  forall (rest current : string) (inQuotes : bool) (result : list string),
    hasChar quoteChar s = false ->
    (inQuotes = false -> hasChar ","%char s = false) ->
    parseCSVLineLoop trim (String.append s rest) current inQuotes result
    = parseCSVLineLoop trim rest (String.append current s) inQuotes result.
Proof.
  induction s as [|c s IH]; intros rest current inQuotes result Hq Hc.
  - simpl. now rewrite string_append_nil_r.
  - simpl in Hq. apply orb_false_iff in Hq. destruct Hq as [Hq1 Hq2].
    cbn [String.append parseCSVLineLoop]. rewrite Hq1.
    assert (E : Ascii.eqb c ","%char && negb inQuotes = false).
    { destruct inQuotes; [apply andb_false_r|].
      specialize (Hc eq_refl). simpl in Hc.
      apply orb_false_iff in Hc. destruct Hc as [-> _]. reflexivity. }
    rewrite E. rewrite IH.
    + now rewrite string_append_assoc.
    + exact Hq2.
    + intros ->. specialize (Hc eq_refl). simpl in Hc.
      apply orb_false_iff in Hc. tauto.
Qed.

Lemma parseCSVLineLoop_field (text : string) (quoted : bool)
  (rest : string) (result : list string) :
  hasChar quoteChar text = false ->
  (quoted = false -> hasChar ","%char text = false) ->
  parseCSVLineLoop trim (String.append (csvField text quoted) rest) ""
    false result
  = parseCSVLineLoop trim rest text false result.
Proof.
  intros Hq Hc. destruct quoted; unfold csvField.
  - cbn [String.append parseCSVLineLoop].
    change (Ascii.eqb quoteChar quoteChar) with true. cbn [negb].
    rewrite string_append_assoc.
    rewrite parseCSVLineLoop_plain by (auto; discriminate).
    cbn [String.append parseCSVLineLoop].
    change (Ascii.eqb quoteChar quoteChar) with true. reflexivity.
  - rewrite parseCSVLineLoop_plain by auto. reflexivity.
Qed.

Lemma parseCSVLineLoop_line (fields : list (string * bool)) :
  fields <> [] ->
  (forall f, In f fields ->
             hasChar quoteChar (fst f) = false
             /\ (snd f = false -> hasChar ","%char (fst f) = false)) ->
  forall result : list string,
    parseCSVLineLoop trim (csvLine fields) "" false result
    = result ++ map (fun f => trim (fst f)) fields.
Proof.
  induction fields as [|f fields IH]; [congruence|]. intros _ H result.
  destruct (H f (or_introl eq_refl)) as [Hq Hc].
  destruct fields as [|g fields].
  - unfold csvLine. cbn [map String.concat].
    rewrite <- (string_append_nil_r (csvField (fst f) (snd f))).
    rewrite parseCSVLineLoop_field by assumption. reflexivity.
  - unfold csvLine. cbn [map String.concat].
    rewrite parseCSVLineLoop_field by assumption.
    cbn [String.append parseCSVLineLoop].
    change (Ascii.eqb ","%char quoteChar) with false.
    change (Ascii.eqb ","%char ","%char) with true. cbn [andb negb].
    change (String.concat "," (csvField (fst g) (snd g)
              :: map (fun f0 => csvField (fst f0) (snd f0)) fields))
      with (csvLine (g :: fields)).
    rewrite IH; [|discriminate|intros f0 Hf0; apply H; now right].
    rewrite <- app_assoc. reflexivity.
Qed.

End ParseLineLemmas.

Lemma orZero_not_NaN (x : number) : orZero x <> NaN.
Proof. destruct x; discriminate. Qed.

Lemma buildTypesLoop_spec (trim : string -> string)
  (parseFloat : string -> number) (lines : list string) :
  length (buildTypesLoop trim parseFloat lines) <= length lines
  /\ forall bt, In bt (buildTypesLoop trim parseFloat lines) ->
                pemStart bt <> NaN /\ pemFinish bt <> NaN.
Proof.
  induction lines as [|line lines [IHl IHn]]; simpl; [split; [lia|tauto]|].
  unfold buildTypeOf.
  destruct (3 <=? length (parseCSVLine trim line)); simpl; [|split; [lia|exact IHn]].
  split; [lia|]. intros bt [<-|H]; [|now apply IHn].
  cbn [pemStart pemFinish]. split; apply orZero_not_NaN.
Qed.

(** X25. Round trip of [parseCSVLine].  A line written from at least one
    field, the fields separated by commas, each field either between
    double quotes or plain, where no field holds a double quote and a
    plain field holds no comma, is read back as the trimmed fields: the
    quotes are dropped and a comma between quotes does not separate. *)
Theorem parseCSVLine_roundtrip (trim : string -> string)
  (fields : list (string * bool)) :
  fields <> [] ->
  (forall f, In f fields ->
             hasChar quoteChar (fst f) = false
             /\ (snd f = false -> hasChar ","%char (fst f) = false)) ->
  parseCSVLine trim (csvLine fields) = map (fun f => trim (fst f)) fields.
Proof.
  intros Hne H. unfold parseCSVLine.
  rewrite (parseCSVLineLoop_line trim fields Hne H). reflexivity.
Qed.

Lemma parseCSVLine_roundtrip_witness :
  parseCSVLine (fun s => s)
    (csvLine [("Housing", false); ("Single, detached", true);
              ("800", false)]%string)
  = ["Housing"; "Single, detached"; "800"]%string.
Proof.
  apply (parseCSVLine_roundtrip (fun s => s)
           [("Housing", false); ("Single, detached", true);
            ("800", false)]%string).
  - discriminate.
  - intros f [<-|[<-|[<-|[]]]]; split; intros; try reflexivity;
      discriminate.
Defined.

(** X26. What [loadBuildTypes] leaves behind, whatever the text of the
    file and whatever [trim] and [parseFloat] do: no build type has NaN as
    [pemStart] or [pemFinish]; there are fewer build types than lines, the
    first line that is not blank being the header; without build types the
    selected building function is unchanged; with build types it is the
    subtype of the first one, and when that is not empty [calculateICIO]
    finds it for every city and does not alert. *)
Theorem loadBuildTypes_usable (trim : string -> string)
  (parseFloat : string -> number) (text buildingFunction : string) :
  let types := fst (loadBuildTypes trim parseFloat text buildingFunction) in
  let selected :=
    snd (loadBuildTypes trim parseFloat text buildingFunction) in
  (forall bt, In bt types -> pemStart bt <> NaN /\ pemFinish bt <> NaN)
  /\ length types <= length (splitLines text "") - 1
  /\ (types = [] -> selected = buildingFunction)
  /\ (types <> [] ->
      selected = subtype (hd (BuildType "" "" NaN NaN "" "") types)
      /\ (selected <> ""%string ->
          forall constructionType gfa specialConditions icioReduction icio,
          exists totalBudget calculatedICIO : number,
            calculateICIO types constructionType selected gfa
              specialConditions icioReduction (Some icio)
            = Results totalBudget calculatedICIO)).
Proof.
  unfold loadBuildTypes. cbn [fst snd].
  set (lines := filter _ (splitLines text "")).
  destruct (buildTypesLoop_spec trim parseFloat (tl lines)) as [Hlen Hnan].
  set (types := buildTypesLoop trim parseFloat (tl lines)) in *.
  split; [exact Hnan|]. split.
  { assert (length lines <= length (splitLines text ""))
      by apply filter_length_le.
    assert (Htl : forall l : list string, length (tl l) = length l - 1)
      by (intros []; simpl; lia).
    specialize (Htl lines). lia. }
  split; [intros ->; reflexivity|].
  intros Hne. destruct types as [|first rest]; [congruence|].
  split; [reflexivity|].
  intros Hsel ct gfa sc rd icio. unfold calculateICIO.
  rewrite (proj2 (String.eqb_neq _ _) Hsel).
  cbn [findBuildType]. rewrite String.eqb_refl.
  eexists. eexists. reflexivity.
Qed.

(** * Machine arithmetic: the breaks solver under any rounding *)

(** ** Which splits the loops can record *)

Lemma recordedb_spec (limits : table nat) (nClasses n : nat) :
  recordedb limits nClasses n = true <-> recorded limits nClasses n.
Proof.
  unfold recordedb, recorded. rewrite forallb_forall. split.
  - intros H i j Hi Hj.
    assert (Hin : In i (seq 2 (nClasses - 1))) by (apply in_seq; lia).
    specialize (H i Hin). rewrite forallb_forall in H.
    assert (Hjn : In j (seq i (n + 1 - i))) by (apply in_seq; lia).
    specialize (H j Hjn). apply negb_true_iff, Nat.eqb_neq in H. exact H.
  - intros H i Hi. apply in_seq in Hi. apply forallb_forall.
    intros j Hj. apply in_seq in Hj.
    apply negb_true_iff, Nat.eqb_neq. apply H; lia.
Qed.

Lemma splitsRecordedb_spec (A : arithmetic) (sample : list Qc)
  (nClasses : nat) :
  splitsRecordedb A sample nClasses = true <->
  splitsRecorded A sample nClasses.
Proof.
  unfold splitsRecordedb, splitsRecorded.
  now rewrite orb_true_iff, Nat.leb_le, recordedb_spec.
Qed.

Lemma limitsOK_zeros : limitsOK zeros.
Proof. intros row c _ _. now left. Qed.

Lemma limitsOK_setVariance (m : matrices) (r c : nat) (x : number) :
  limitsOK m -> limitsOK (setVariance m r c x).
Proof. intros H. exact H. Qed.

Lemma limitsOK_setLimit (m : matrices) (r c x : nat) :
  (2 <= c -> 2 <= r -> c <= x <= r) ->
  limitsOK m -> limitsOK (setLimit m r c x).
Proof.
  intros Hx H row col Hc Hr. simpl. unfold tset.
  destruct (Nat.eqb_spec row r) as [->|Nr];
    destruct (Nat.eqb_spec col c) as [->|Nc]; simpl;
    try (now apply H).
  right. now apply Hx.
Qed.

Lemma firstColumn_setVariance (m : matrices) (rows r c : nat) (x : number) :
  firstColumn m rows -> firstColumn (setVariance m r c x) rows.
Proof. intros H. exact H. Qed.

Lemma firstColumn_setLimit (m : matrices) (rows r c x : nat) :
  c <> 1 \/ x = 1 ->
  firstColumn m rows -> firstColumn (setLimit m r c x) rows.
Proof.
  intros Hc H row Hr. simpl. unfold tset.
  destruct (Nat.eqb_spec row r) as [->|Nr];
    destruct (Nat.eqb_spec 1 c) as [<-|Nc]; simpl;
    try (now apply H).
  destruct Hc as [Hc|Hc]; [congruence|exact Hc].
Qed.

Section MachineLoops.

Variable A : arithmetic.
Variable sorted : list number.

Lemma machine_loopK_limits (i j : nat) (todo : nat) :
  2 <= i ->
  forall k m,
  i <= k -> k + todo = j + 1 ->
  forall rows,
  limitsOK m /\ firstColumn m rows ->
  limitsOK (Machine.loopK A sorted i j k todo m)
  /\ firstColumn (Machine.loopK A sorted i j k todo m) rows.
Proof.
  intros Hi. induction todo as [|todo IH]; intros k m Hk Hsum rows [HL HF];
    cbn [Machine.loopK]; [now split|].
  apply IH; [lia|lia|].
  destruct (JS.ltN _ _); [|now split].
  split.
  - apply limitsOK_setVariance, limitsOK_setLimit; [lia|exact HL].
  - apply firstColumn_setVariance, firstColumn_setLimit; [lia|exact HF].
Qed.

Lemma machine_loopJ_limits (i : nat) (todo : nat) :
  2 <= i ->
  forall j m rows,
  limitsOK m /\ firstColumn m rows ->
  limitsOK (Machine.loopJ A sorted i j todo m)
  /\ firstColumn (Machine.loopJ A sorted i j todo m) rows.
Proof.
  intros Hi. induction todo as [|todo IH]; intros j m rows H;
    cbn [Machine.loopJ]; [exact H|].
  apply IH. destruct (Nat.eqb_spec i 1) as [E|_]; [lia|].
  destruct (le_lt_dec i j) as [Hij|Hij].
  - apply machine_loopK_limits; [exact Hi|lia|lia|].
    destruct H as [HL HF]. split.
    + now apply limitsOK_setVariance.
    + now apply firstColumn_setVariance.
  - replace (j + 1 - i) with 0 by lia. cbn [Machine.loopK].
    destruct H as [HL HF]. split.
    + now apply limitsOK_setVariance.
    + now apply firstColumn_setVariance.
Qed.

Lemma machine_loopJ_first (todo : nat) :
  forall j m,
  1 <= j ->
  limitsOK m /\ firstColumn m j ->
  limitsOK (Machine.loopJ A sorted 1 j todo m)
  /\ firstColumn (Machine.loopJ A sorted 1 j todo m) (j + todo).
Proof.
  induction todo as [|todo IH]; intros j m Hj [HL HF];
    cbn [Machine.loopJ Nat.eqb].
  - rewrite Nat.add_0_r. now split.
  - replace (j + S todo) with (j + 1 + todo) by lia.
    apply IH; [lia|]. split.
    + apply limitsOK_setLimit; [lia|]. now apply limitsOK_setVariance.
    + intros row Hrow. simpl. unfold tset.
      destruct (Nat.eqb_spec row j) as [->|Nr]; simpl; [reflexivity|].
      apply HF. lia.
Qed.

Lemma machine_loopI_limits (n : nat) (todo : nat) :
  forall i m,
  2 <= i ->
  limitsOK m /\ firstColumn m (n + 1) ->
  limitsOK (Machine.loopI A sorted n i todo m)
  /\ firstColumn (Machine.loopI A sorted n i todo m) (n + 1).
Proof.
  induction todo as [|todo IH]; intros i m Hi H; cbn [Machine.loopI];
    [exact H|].
  apply IH; [lia|]. apply machine_loopJ_limits; [exact Hi|].
  destruct H as [HL HF]. split.
  - apply limitsOK_setVariance, limitsOK_setLimit; [lia|exact HL].
  - apply firstColumn_setVariance, firstColumn_setLimit; [lia|exact HF].
Qed.

(** After the loops every cell with [i >= 2] holds 0 or a split within
    [i..j], and the first column holds 1. *)
Lemma machine_jenksMatrices_limits (nClasses : nat) :
  1 <= nClasses -> 1 <= length sorted ->
  limitsOK (Machine.jenksMatrices A sorted nClasses)
  /\ firstColumn (Machine.jenksMatrices A sorted nClasses)
       (length sorted + 1).
Proof.
  intros Hk Hn. unfold Machine.jenksMatrices.
  destruct nClasses as [|k]; [lia|]. cbn [Machine.loopI].
  apply machine_loopI_limits; [lia|].
  replace (length sorted + 1) with (2 + (length sorted - 1)) by lia.
  apply machine_loopJ_first; [lia|]. split.
  - apply limitsOK_setVariance, limitsOK_setLimit; [lia|].
    apply limitsOK_zeros.
  - intros row Hrow. assert (row = 1) by lia. subst row.
    simpl. apply tset_same.
Qed.

Lemma machine_rangeOK (nClasses : nat) :
  1 <= nClasses -> 1 <= length sorted ->
  recorded (lowerClassLimits (Machine.jenksMatrices A sorted nClasses))
    nClasses (length sorted) ->
  rangeOK (lowerClassLimits (Machine.jenksMatrices A sorted nClasses))
    nClasses (length sorted).
Proof.
  intros Hk Hn HR j k Hj Hjk.
  destruct (machine_jenksMatrices_limits nClasses Hk Hn) as [HL HF].
  destruct (Nat.eq_dec j 1) as [->|Hne].
  - rewrite HF by lia. lia.
  - destruct (HL k j) as [E|E]; [lia|lia| |exact E].
    exfalso. apply (HR j k); [lia|lia|exact E].
Qed.

End MachineLoops.

(** ** [jenksBreaks] on finite data, for every arithmetic *)

Lemma machine_jenksBreaks_small (A : arithmetic) (qs : list Qc)
  (nClasses : nat) :
  length qs <= nClasses ->
  Machine.jenksBreaks A (map num qs) nClasses
  = Returns (map num (firstOcc [] (sortQ qs))).
Proof.
  intros H. unfold Machine.jenksBreaks.
  rewrite cleanData_num, !length_map, sortNumbers_fin, length_map,
    sortQ_length.
  destruct qs as [|q qs]; [reflexivity|]. cbn [length Nat.eqb].
  destruct (Nat.leb_spec (S (length qs)) nClasses) as [_|L];
    [|simpl in H; lia].
  now rewrite newSet_fin, map_num_fin.
Qed.

Lemma machine_jenksBreaks_dp (A : arithmetic) (qs : list Qc)
  (nClasses : nat) :
  1 <= nClasses < length qs ->
  let limits :=
    lowerClassLimits
      (Machine.jenksMatrices A (map Fin (sortQ qs)) nClasses) in
  rangeOK limits nClasses (length qs) ->
  Machine.jenksBreaks A (map num qs) nClasses
  = Returns (map num (firstOcc [] (breaksAt limits (sortQ qs) nClasses))).
Proof.
  intros H limits HR. unfold Machine.jenksBreaks.
  rewrite cleanData_num, !length_map, sortNumbers_fin, length_map,
    sortQ_length.
  destruct (Nat.eqb_spec (length qs) 0) as [E|_]; [lia|].
  destruct (Nat.leb_spec (length qs) nClasses) as [L|_]; [lia|].
  set (sq := sortQ qs) in *.
  assert (Hn : length sq = length qs) by apply sortQ_length.
  fold limits.
  rewrite (extractLoop_path (map Fin sq) limits nClasses (length qs) HR)
    by lia.
  destruct (path_sorted limits nClasses (length qs) HR nClasses (length qs))
    as [_ HF]; [lia|lia|].
  pose proof (path_length limits nClasses (length qs)) as HL.
  unfold breaksAt. rewrite Hn.
  destruct (path limits nClasses (length qs)) as [|s1 rest] eqn:EP;
    [simpl in HL; lia|].
  rewrite skipn_nil, app_nil_r, map_num_fin. cbn [map aset tl].
  assert (G : forall s, 1 <= s <= length qs ->
              JS.get (map num sq) (Z.of_nat s - 1)
              = num (nth (s - 1) sq 0%Qc)).
  { intros s Hs. rewrite get_num by (unfold JS.len; lia).
    unfold bget. do 2 f_equal. lia. }
  assert (E1 : map (fun s => JS.get (map num sq) (Z.of_nat s - 1)) rest
               = map num (map (fun s => nth (s - 1) sq 0%Qc) rest)).
  { rewrite map_map. apply map_ext_in. intros s Hs. apply G.
    rewrite Forall_forall in HF. apply HF. now right. }
  rewrite E1.
  replace nClasses
    with (length (JS.get (map num sq) 0
                  :: map num (map (fun s => nth (s - 1) sq 0%Qc) rest))).
  2:{ simpl. rewrite !length_map. simpl in HL. exact HL. }
  rewrite aset_end.
  change (JS.get (map num sq) 0)
    with (JS.get (map num sq) (Z.of_nat 1 - 1)).
  rewrite (G 1) by lia. rewrite (G (length qs)) by lia.
  rewrite <- removeDuplicates_fin. f_equal.
  cbn [map]. rewrite map_app. reflexivity.
Qed.

(** ** The break candidates along any recorded path *)

Lemma breaksAt_indices (limits : table nat) (sq : list Qc)
  (nClasses : nat) :
  breaksAt limits sq nClasses
  = map (fun p => nth p sq 0%Qc) (breakIndicesAt limits sq nClasses).
Proof.
  unfold breaksAt, breakIndicesAt. cbn [map]. rewrite map_app, map_map.
  reflexivity.
Qed.

Lemma breakIndicesAt_sorted (limits : table nat) (qs : list Qc)
  (nClasses : nat) :
  rangeOK limits nClasses (length qs) ->
  1 <= nClasses < length qs ->
  StronglySorted le (breakIndicesAt limits qs nClasses)
  /\ Forall (fun p => p < length qs) (breakIndicesAt limits qs nClasses).
Proof.
  intros HR H. unfold breakIndicesAt.
  destruct (path_sorted limits nClasses (length qs) HR nClasses (length qs))
    as [HS HF]; [lia|lia|].
  apply tl_sorted in HS.
  assert (HF' : Forall (fun s => 1 <= s <= length qs)
                  (tl (path limits nClasses (length qs)))).
  { rewrite Forall_forall in *. intros s Hs. apply HF.
    destruct (path limits nClasses (length qs)); [contradiction|now right]. }
  clear HF. set (t := tl (path limits nClasses (length qs))) in *.
  clearbody t. split.
  - constructor.
    2:{ rewrite Forall_forall. intros p Hp. lia. }
    induction HS as [|s l HS IH HL]; simpl.
    + repeat constructor.
    + inversion HF' as [|? ? Hs HF'']; subst. constructor; [now apply IH|].
      rewrite Forall_forall in *. intros p Hp.
      apply in_app_iff in Hp as [Hp|[<-|[]]]; [|lia].
      apply in_map_iff in Hp as (s' & <- & Hs'). specialize (HL s' Hs').
      lia.
  - constructor; [lia|]. rewrite Forall_forall in *. intros p Hp.
    apply in_app_iff in Hp as [Hp|[<-|[]]]; [|lia].
    apply in_map_iff in Hp as (s' & <- & Hs'). specialize (HF' s' Hs').
    lia.
Qed.

Lemma breaksAt_sorted (limits : table nat) (qs : list Qc) (nClasses : nat) :
  StronglySorted Qcle qs -> rangeOK limits nClasses (length qs) ->
  1 <= nClasses < length qs ->
  StronglySorted Qcle (breaksAt limits qs nClasses).
Proof.
  intros HS HR H. rewrite breaksAt_indices.
  destruct (breakIndicesAt_sorted limits qs nClasses HR H) as [A B].
  now apply map_nth_sorted.
Qed.

Lemma breaksAt_length (limits : table nat) (qs : list Qc) (nClasses : nat) :
  1 <= nClasses -> length (breaksAt limits qs nClasses) = nClasses + 1.
Proof.
  intros H. unfold breaksAt. cbn [length].
  rewrite length_app, length_map. cbn [length].
  pose proof (path_length limits nClasses (length qs)) as HL.
  destruct (path limits nClasses (length qs)); simpl in *; lia.
Qed.

Lemma breaksAt_last (limits : table nat) (qs : list Qc) (nClasses : nat) :
  last (breaksAt limits qs nClasses) 0%Qc = nth (length qs - 1) qs 0%Qc.
Proof. unfold breaksAt. rewrite app_comm_cons. apply last_last. Qed.

Lemma breaksAt_In (limits : table nat) (sq : list Qc) (nClasses : nat)
  (x : Qc) :
  rangeOK limits nClasses (length sq) -> 1 <= nClasses < length sq ->
  In x (breaksAt limits sq nClasses) -> In x sq.
Proof.
  intros HR H Hx. rewrite breaksAt_indices in Hx.
  apply in_map_iff in Hx as (p & <- & Hp).
  destruct (breakIndicesAt_sorted limits sq nClasses HR H) as [_ HF].
  rewrite Forall_forall in HF. apply nth_In. now apply HF.
Qed.

(** The candidates from which duplicates are removed, for every
    arithmetic: the sorted data themselves on the short way, the values
    read along the recorded splits otherwise. *)
Lemma machine_candidates (A : arithmetic) (qs : list Qc) (nClasses : nat) :
  qs <> [] -> 1 <= nClasses -> splitsRecorded A qs nClasses ->
  exists src : list Qc,
    Machine.jenksBreaks A (map num qs) nClasses
    = Returns (map num (firstOcc [] src))
    /\ src <> []
    /\ StronglySorted Qcle src
    /\ (forall x, In x src -> In x qs)
    /\ hd 0%Qc src = nth 0 (sortQ qs) 0%Qc
    /\ last src 0%Qc = nth (length qs - 1) (sortQ qs) 0%Qc
    /\ length src <= nClasses + 1.
Proof.
  intros Hne Hk Hrec.
  set (sq := sortQ qs).
  assert (HS : StronglySorted Qcle sq) by apply sortQ_sorted.
  assert (Hn : length sq = length qs) by apply sortQ_length.
  assert (Hsq : sq <> []).
  { intros E. apply Hne, length_zero_iff_nil. rewrite <- Hn, E.
    reflexivity. }
  destruct (le_lt_dec (length qs) nClasses) as [Hsmall|Hlarge].
  - exists sq. split; [now apply machine_jenksBreaks_small|].
    split; [exact Hsq|].
    split; [exact HS|]. split; [intros x; apply sortQ_In|].
    split; [now destruct sq|]. split; [|lia].
    now rewrite last_is_nth, Hn.
  - destruct Hrec as [Hrec|Hrec]; [lia|].
    set (limits := lowerClassLimits
                     (Machine.jenksMatrices A (map Fin sq) nClasses)) in *.
    assert (HR : rangeOK limits nClasses (length qs)).
    { pose proof (machine_rangeOK A (map Fin sq) nClasses Hk) as R.
      rewrite length_map, Hn in R. apply R; [lia|exact Hrec]. }
    assert (HR' : rangeOK limits nClasses (length sq)) by now rewrite Hn.
    exists (breaksAt limits sq nClasses).
    split; [apply machine_jenksBreaks_dp; [lia|exact HR]|].
    split; [unfold breaksAt; discriminate|].
    split; [apply breaksAt_sorted; [exact HS|exact HR'|lia]|].
    split.
    { intros x Hx. apply sortQ_In.
      apply (breaksAt_In limits sq nClasses); [exact HR'|lia|exact Hx]. }
    split; [reflexivity|].
    split; [now rewrite breaksAt_last, Hn|].
    rewrite breaksAt_length; lia.
Qed.

(** ** Overflow *)

(** C1. In double arithmetic [jenksBreaks] throws on the sample
    [0, 1e200, 3e200] with two classes: the sample is not empty, its three
    values are finite and different, more than the two classes, and yet no
    sequence of breaks is returned.  Every squared deviation overflows to
    Infinity, so no candidate is below the Infinity that the cell starts
    from, no split is recorded, and backtracking reads row -1. *)
Theorem jenksBreaks_overflow :
  let sample := [dbl 0; dbl (10 ^ 200); dbl (3 * 10 ^ 200)] in
  sample = map Fin (map finite sample)
  /\ uniqueCount (map finite sample) = 3
  /\ Machine.jenksBreaks binary64 (map Num sample) 2 = Throws.
Proof. vm_compute. repeat split. Qed.

(** X28. In double arithmetic the dynamic program can leave a cell without
    a split: on the sorted data [0, 1e200, 3e200] with two classes, both
    candidates of the cell for [i = 2], [j = 3] are Infinity, neither is
    below the Infinity that the cell starts from, the cell keeps Infinity,
    and its recorded split index stays 0, which is no index in [2..3]. *)
Theorem jenksMatrices_overflow :
  let sorted := [dbl 0; dbl (10 ^ 200); dbl (3 * 10 ^ 200)] in
  let m := Machine.jenksMatrices binary64 sorted 2 in
  sorted = map Fin (map finite sorted)
  /\ StronglySorted Qclt (map finite sorted)
  /\ machineCand binary64 sorted m 2 3 2 = Inf false
  /\ machineCand binary64 sorted m 2 3 3 = Inf false
  /\ varianceCombinations m 3 2 = Inf false
  /\ lowerClassLimits m 3 2 = 0.
Proof.
  cbv zeta. split; [vm_compute; reflexivity|].
  split.
  { repeat constructor; vm_compute; reflexivity. }
  split; [vm_compute; reflexivity|].
  split; [vm_compute; reflexivity|].
  split; vm_compute; reflexivity.
Qed.

(** ** No more values than classes *)




(** ** The comparison of numbers is a strict order *)

Lemma below_irrefl (x : number) : ~ below x x.
Proof.
  unfold below. destruct x as [|q|b]; simpl; try discriminate.
  - intros H. apply Qcltb_true in H. exact (Qclt_not_eq _ _ H eq_refl).
  - now destruct b.
Qed.

Lemma below_trans (x y z : number) : below x y -> below y z -> below x z.
Proof.
  unfold below.
  destruct x as [|a|[|]], y as [|b|[|]], z as [|c|[|]]; simpl;
    try discriminate; try reflexivity.
  intros H1 H2. apply Qcltb_true in H1, H2.
  destruct (JS.Qcltb a c) eqn:E; [reflexivity|].
  apply Qcltb_false in E. exfalso. qorder.
Qed.

(** ** The dynamic program in any arithmetic *)

Section MachineCells.

Variable A : arithmetic.
Variable sorted : list number.

Lemma machine_loopK_frame (i j : nat) (todo : nat) :
  forall k m r c,
  r <> j \/ c <> i -> sameCell m (Machine.loopK A sorted i j k todo m) r c.
Proof.
  induction todo as [|todo IH]; intros k m r c H; simpl;
    [apply sameCell_refl|].
  eapply sameCell_trans; [|apply IH; exact H].
  destruct (JS.ltN _ _); [|apply sameCell_refl].
  eapply sameCell_trans;
    [apply setLimit_other|apply setVariance_other]; exact H.
Qed.

Lemma machine_loopJ_frame (i : nat) (todo : nat) :
  forall j m r c,
  c <> i \/ r < j \/ j + todo <= r ->
  sameCell m (Machine.loopJ A sorted i j todo m) r c.
Proof.
  induction todo as [|todo IH]; intros j m r c H; cbn [Machine.loopJ];
    [apply sameCell_refl|].
  eapply sameCell_trans; [|apply IH; lia].
  destruct (Nat.eqb_spec i 1) as [->|Hi].
  - eapply sameCell_trans;
      [apply setVariance_other|apply setLimit_other]; lia.
  - eapply sameCell_trans;
      [apply setVariance_other|apply machine_loopK_frame]; lia.
Qed.

Lemma machine_loopI_frame (n : nat) (todo : nat) :
  forall i m r c,
  c < i \/ i + todo <= c ->
  sameCell m (Machine.loopI A sorted n i todo m) r c.
Proof.
  induction todo as [|todo IH]; intros i m r c H; cbn [Machine.loopI];
    [apply sameCell_refl|].
  eapply sameCell_trans; [|apply IH; lia].
  eapply sameCell_trans; [|apply machine_loopJ_frame; lia].
  eapply sameCell_trans;
    [apply setLimit_other|apply setVariance_other]; lia.
Qed.

Lemma machineCand_ext (m m' : matrices) (i j s : nat) :
  sameCell m m' (s - 1) (i - 1) ->
  machineCand A sorted m' i j s = machineCand A sorted m i j s.
Proof. intros [_ E]. unfold machineCand. now rewrite E. Qed.

(** One comparison of the inner loop. *)
Lemma cellState_step (c : nat -> number) (i k : nat) (v : number) (l : nat) :
  i <= k -> cellState c i k v l ->
  cellState c i (k + 1)
    (if JS.ltN (c k) v then c k else v) (if JS.ltN (c k) v then k else l).
Proof.
  intros Hk [[-> Hnone] | (Hl & Hv & Hinf & Hmin & Hfirst)].
  - destruct (JS.ltN (c k) (Inf false)) eqn:E.
    + right. split; [lia|]. split; [reflexivity|]. split; [exact E|]. split.
      * intros s Hs B. destruct (Nat.eq_dec s k) as [->|Hne].
        -- exact (below_irrefl _ B).
        -- apply (Hnone s); [lia|]. exact (below_trans _ _ _ B E).
      * intros s Hs Es. apply (Hnone s); [lia|]. unfold below.
        now rewrite Es.
    + left. split; [reflexivity|]. intros s Hs B.
      destruct (Nat.eq_dec s k) as [->|Hne].
      * unfold below in B. congruence.
      * apply (Hnone s); [lia|exact B].
  - destruct (JS.ltN (c k) v) eqn:E.
    + right. split; [lia|]. split; [reflexivity|].
      split; [exact (below_trans _ _ _ E Hinf)|]. split.
      * intros s Hs B. destruct (Nat.eq_dec s k) as [->|Hne].
        -- exact (below_irrefl _ B).
        -- apply (Hmin s); [lia|]. exact (below_trans _ _ _ B E).
      * intros s Hs Es. apply (Hmin s); [lia|]. unfold below.
        now rewrite Es.
    + right. split; [lia|]. split; [exact Hv|]. split; [exact Hinf|].
      split; [|exact Hfirst].
      intros s Hs B. destruct (Nat.eq_dec s k) as [->|Hne].
      * unfold below in B. congruence.
      * apply (Hmin s); [lia|exact B].
Qed.

Lemma machine_loopK_state (i j : nat) (m0 : matrices) (todo : nat) :
  1 <= i ->
  forall k m,
  i <= k ->
  (forall r c, r <> j \/ c <> i -> sameCell m0 m r c) ->
  cellState (machineCand A sorted m0 i j) i k
    (varianceCombinations m j i) (lowerClassLimits m j i) ->
  cellState (machineCand A sorted m0 i j) i (k + todo)
    (varianceCombinations (Machine.loopK A sorted i j k todo m) j i)
    (lowerClassLimits (Machine.loopK A sorted i j k todo m) j i).
Proof.
  intros Hi.
  induction todo as [|todo IH]; intros k m Hk Hframe Hstate;
    cbn [Machine.loopK].
  - now rewrite Nat.add_0_r.
  - replace (k + S todo) with (k + 1 + todo) by lia.
    assert (Ec : m_add A (varianceCombinations m (k - 1) (i - 1))
                   (Machine.varianceWithin A sorted (k - 1) (j - 1))
                 = machineCand A sorted m0 i j k).
    { unfold machineCand. destruct (Hframe (k - 1) (i - 1)) as [_ E]; [lia|].
      now rewrite E. }
    cbv zeta. rewrite Ec.
    apply (cellState_step _ i k _ _ Hk) in Hstate.
    apply IH; [lia| |].
    + intros r c H. destruct (JS.ltN _ _); [|now apply Hframe].
      eapply sameCell_trans; [apply Hframe; exact H|].
      eapply sameCell_trans;
        [apply setLimit_other|apply setVariance_other]; exact H.
    + destruct (JS.ltN _ _); [|exact Hstate].
      cbn. now rewrite !tset_same.
Qed.

Lemma machine_loopJ_state (i : nat) (todo : nat) :
  2 <= i ->
  forall j m j',
  j <= j' < j + todo -> i <= j' ->
  let m' := Machine.loopJ A sorted i j todo m in
  cellState (machineCand A sorted m' i j') i (j' + 1)
    (varianceCombinations m' j' i) (lowerClassLimits m' j' i).
Proof.
  intros Hi. induction todo as [|todo IH]; intros j m j' Hj Hij; [lia|].
  cbn [Machine.loopJ]. destruct (Nat.eqb_spec i 1) as [E|_]; [lia|].
  destruct (Nat.eq_dec j' j) as [->|Hne]; [|apply IH; lia].
  cbv zeta.
  set (m0 := setVariance m j i (Inf false)).
  set (m1 := Machine.loopK A sorted i j i (j + 1 - i) m0).
  set (m2 := Machine.loopJ A sorted i (j + 1) todo m1).
  assert (F2 : forall r c, c <> i \/ r < j + 1 -> sameCell m1 m2 r c)
    by (intros r c H; apply machine_loopJ_frame; lia).
  assert (F1 : forall r c, r <> j \/ c <> i -> sameCell m0 m1 r c)
    by (intros r c H; now apply machine_loopK_frame).
  assert (Ec : forall s, machineCand A sorted m2 i j s
                         = machineCand A sorted m0 i j s).
  { intros s. unfold machineCand.
    destruct (F2 (s - 1) (i - 1)) as [_ E2]; [lia|].
    destruct (F1 (s - 1) (i - 1)) as [_ E1]; [lia|].
    now rewrite E2, E1. }
  destruct (F2 j i) as [EL EV]; [lia|]. rewrite EL, EV.
  assert (S : cellState (machineCand A sorted m0 i j) i (i + (j + 1 - i))
                (varianceCombinations m1 j i) (lowerClassLimits m1 j i)).
  { apply machine_loopK_state; [lia|lia|intros; apply sameCell_refl|].
    left. split; [simpl; apply tset_same|]. intros s Hs. lia. }
  replace (i + (j + 1 - i)) with (j + 1) in S by lia.
  destruct S as [[Hv Hn] | (Hl & Hv & Hinf & Hmin & Hfirst)].
  - left. split; [exact Hv|]. intros s Hs. rewrite Ec. now apply Hn.
  - right. split; [exact Hl|]. split; [now rewrite Ec|].
    split; [exact Hinf|]. split.
    + intros s Hs. rewrite Ec. now apply Hmin.
    + intros s Hs. rewrite Ec. now apply Hfirst.
Qed.

Lemma machine_loopI_state (n : nat) (todo : nat) :
  forall i0 m i j,
  1 <= i0 -> 2 <= i -> i0 <= i < i0 + todo -> i <= j <= n ->
  let m' := Machine.loopI A sorted n i0 todo m in
  cellState (machineCand A sorted m' i j) i (j + 1)
    (varianceCombinations m' j i) (lowerClassLimits m' j i).
Proof.
  induction todo as [|todo IH]; intros i0 m i j H0 Hi Hr Hj; [lia|].
  cbn [Machine.loopI].
  destruct (Nat.eq_dec i i0) as [->|Hne]; [|apply IH; lia].
  cbv zeta.
  set (m1 := setVariance (setLimit m 1 i0 1) 1 i0 (ofZ 0)).
  set (m2 := Machine.loopJ A sorted i0 2 (n - 1) m1).
  set (m3 := Machine.loopI A sorted n (i0 + 1) todo m2).
  assert (F : forall r c, c < i0 + 1 -> sameCell m2 m3 r c)
    by (intros r c H; apply machine_loopI_frame; lia).
  assert (Ec : forall s, machineCand A sorted m3 i0 j s
                         = machineCand A sorted m2 i0 j s)
    by (intros s; apply machineCand_ext, F; lia).
  destruct (F j i0) as [EL EV]; [lia|]. rewrite EL, EV.
  pose proof (machine_loopJ_state i0 (n - 1) Hi 2 m1 j
                ltac:(lia) ltac:(lia)) as S.
  cbv zeta in S. fold m2 in S.
  destruct S as [[Hv Hn] | (Hl & Hv & Hinf & Hmin & Hfirst)].
  - left. split; [exact Hv|]. intros s Hs. rewrite Ec. now apply Hn.
  - right. split; [exact Hl|]. split; [now rewrite Ec|].
    split; [exact Hinf|]. split.
    + intros s Hs. rewrite Ec. now apply Hmin.
    + intros s Hs. rewrite Ec. now apply Hfirst.
Qed.

End MachineCells.

Lemma machine_varianceWithin_unfold (A : arithmetic) (sorted : list number)
  (s e : nat) :
  Machine.varianceWithin A sorted s e
  = if (e <=? s)%nat then ofZ 0
    else machineSumSqDev A (slice sorted s (e + 1)).
Proof. reflexivity. Qed.

(** C5. In every arithmetic, for every class count [i > 1] and prefix
    length [j >= i]: when some candidate [V[s-1][i-1] + variance(s-1 .. j-1)]
    with [s] in [i..j], as the arithmetic computes it, is below Infinity,
    [V[j][i]] is the least of these computed candidates, none of them is
    below it, and [lowerClassLimits[j][i]] is the smallest [s] in [i..j]
    whose candidate equals it.  The variance is 0 for an empty or
    single-element segment and otherwise the sum, computed in the
    arithmetic and in the order of the data, of the squared deviations
    from the computed mean. *)
Theorem jenks_recurrence_computed (A : arithmetic) (sorted : list number)
  (nClasses i j : nat) :
  1 < i <= nClasses -> i <= j <= length sorted ->
  (exists s, i <= s <= j
     /\ below (machineCand A sorted (Machine.jenksMatrices A sorted nClasses)
                 i j s) (Inf false)) ->
  let m := Machine.jenksMatrices A sorted nClasses in
  let c := machineCand A sorted m i j in
  let l := lowerClassLimits m j i in
  i <= l <= j
  /\ varianceCombinations m j i = c l
  /\ (forall s, i <= s <= j -> ~ below (c s) (c l))
  /\ (forall s, i <= s < l -> c s <> c l)
  /\ (forall s e, e <= s -> Machine.varianceWithin A sorted s e = ofZ 0)
  /\ (forall s e, s < e ->
      Machine.varianceWithin A sorted s e
      = machineSumSqDev A (slice sorted s (e + 1))).
Proof.
  intros Hi Hj (s0 & Hs0 & B0) m c l.
  pose proof (machine_loopI_state A sorted (length sorted) nClasses 1 zeros
                i j ltac:(lia) ltac:(lia) ltac:(lia) Hj) as S.
  cbv zeta in S. fold (Machine.jenksMatrices A sorted nClasses) in S.
  fold m in S. fold c in S. fold l in S.
  destruct S as [[_ Hn] | (Hl & Hv & _ & Hmin & Hfirst)].
  { exfalso. apply (Hn s0); [lia|exact B0]. }
  split; [lia|]. split; [exact Hv|]. rewrite <- Hv. split.
  - intros s Hs. apply Hmin. lia.
  - split; [exact Hfirst|]. split.
    + intros s e H. rewrite machine_varianceWithin_unfold.
      destruct (Nat.leb_spec e s); [reflexivity|lia].
    + intros s e H. rewrite machine_varianceWithin_unfold.
      destruct (Nat.leb_spec e s); [lia|reflexivity].
Qed.

Lemma jenks_recurrence_computed_witness :
  let sorted := [dbl 3; dbl 6; dbl 7; dbl 9; dbl 10] in
  let m := Machine.jenksMatrices binary64 sorted 2 in
  let c := machineCand binary64 sorted m 2 5 in
  let l := lowerClassLimits m 5 2 in
  2 <= l <= 5
  /\ varianceCombinations m 5 2 = c l
  /\ (forall s, 2 <= s <= 5 -> ~ below (c s) (c l))
  /\ (forall s, 2 <= s < l -> c s <> c l).
Proof.
  destruct (jenks_recurrence_computed binary64
              [dbl 3; dbl 6; dbl 7; dbl 9; dbl 10] 2 2 5)
    as (H1 & H2 & H3 & H4 & _).
  - lia.
  - simpl. lia.
  - exists 2. split; [lia|]. vm_compute. reflexivity.
  - cbv zeta. split; [exact H1|]. split; [exact H2|].
    split; [exact H3|exact H4].
Defined.

(** The split that the code records is not always the smallest split
    that attains the minimum of the sums of squared deviations.  On the
    sorted data [3, 6, 7, 9, 10] with two classes, the splits 3 and 4 for
    all five values both give the total 55/6 and no split gives less, so
    the smallest split attaining the minimum is 3; in double arithmetic
    the candidate for the split 4 is computed below the one for the split
    3, and the code records 4. *)
Lemma jenks_recurrence_rounding :
  let qs := [qz 3; qz 6; qz 7; qz 9; qz 10] in
  let total s := (varQ qs 0 (s - 2) + varQ qs (s - 1) 4)%Qc in
  let m := Machine.jenksMatrices binary64 (map Fin qs) 2 in
  total 3 = Q2Qc (55 # 6) /\ total 4 = Q2Qc (55 # 6)
  /\ (forall s, 2 <= s <= 5 -> (total 3 <= total s)%Qc)
  /\ lowerClassLimits m 5 2 = 4
  /\ below (machineCand binary64 (map Fin qs) m 2 5 4)
           (machineCand binary64 (map Fin qs) m 2 5 3).
Proof.
  cbv zeta. split; [vm_compute; reflexivity|].
  split; [vm_compute; reflexivity|]. split.
  - intros s Hs.
    assert (E : s = 2 \/ s = 3 \/ s = 4 \/ s = 5) by lia.
    destruct E as [E|[E|[E|E]]]; subst s; vm_compute; discriminate.
  - split; vm_compute; reflexivity.
Qed.

(** ** The shape of the result *)

(** X1. For every arithmetic, every non-empty finite sample and every
    [k >= 1]: when the run takes the short way or records a split in every
    cell of the dynamic program, [jenksBreaks] returns, and the result is
    a strictly ascending sequence of values of the sample that starts at
    the minimum, ends at the maximum and has at most [k + 1] and at most
    as many entries as the sample has unique values. *)
Theorem jenksBreaks_shape (A : arithmetic) (sample : list Qc) (k : nat) :
  sample <> [] -> 1 <= k -> splitsRecorded A sample k ->
  exists bs : list Qc,
    Machine.jenksBreaks A (map num sample) k = Returns (map num bs)
    /\ StronglySorted Qclt bs
    /\ (forall x, In x bs -> In x sample)
    /\ isMin (hd 0%Qc bs) sample
    /\ isMax (last bs 0%Qc) sample
    /\ length bs <= k + 1
    /\ length bs <= uniqueCount sample.
Proof.
  intros Hne Hk Hrec.
  destruct (machine_candidates A sample k Hne Hk Hrec)
    as (src & HR & Hsrc & HS & HI & Hhd & Hlast & Hlen).
  assert (Hsq : sortQ sample <> []).
  { intros E. apply Hne. apply Permutation_nil.
    apply Permutation_sym. rewrite <- E. apply sortQ_perm. }
  exists (firstOcc [] src).
  assert (HB : StronglySorted Qclt (firstOcc [] src))
    by now apply firstOcc_sorted.
  assert (HIn : forall x, In x (firstOcc [] src) -> In x sample).
  { intros x Hx. apply firstOcc_In in Hx as [Hx _]. now apply HI. }
  split; [exact HR|]. split; [exact HB|]. split; [exact HIn|].
  split.
  { rewrite firstOcc_hd, Hhd. apply (isMin_perm _ (sortQ sample));
      [apply sortQ_In|]. apply sorted_min; [apply sortQ_sorted|exact Hsq]. }
  split.
  { rewrite firstOcc_last by assumption. rewrite Hlast.
    rewrite <- (sortQ_length sample).
    apply (isMax_perm _ (sortQ sample)); [apply sortQ_In|].
    apply sorted_max; [apply sortQ_sorted|exact Hsq]. }
  split.
  { pose proof (firstOcc_length src []). lia. }
  apply uniqueCount_NoDup_incl; [now apply sorted_lt_NoDup|exact HIn].
Qed.

Lemma jenksBreaks_shape_witness :
  exists bs : list Qc,
    Machine.jenksBreaks binary64
      (map num [qz 3; qz 6; qz 7; qz 9; qz 10; qz 6]) 2
    = Returns (map num bs)
    /\ StronglySorted Qclt bs
    /\ (forall x, In x bs -> In x [qz 3; qz 6; qz 7; qz 9; qz 10; qz 6])
    /\ isMin (hd 0%Qc bs) [qz 3; qz 6; qz 7; qz 9; qz 10; qz 6]
    /\ isMax (last bs 0%Qc) [qz 3; qz 6; qz 7; qz 9; qz 10; qz 6]
    /\ length bs <= 2 + 1
    /\ length bs <= uniqueCount [qz 3; qz 6; qz 7; qz 9; qz 10; qz 6].
Proof.
  apply (jenksBreaks_shape binary64 [qz 3; qz 6; qz 7; qz 9; qz 10; qz 6] 2).
  - discriminate.
  - lia.
  - apply splitsRecordedb_spec. vm_compute. reflexivity.
Defined.

(** ** Raw data: when the call returns and when it throws *)

Lemma noInfinityb_spec (raw : list value) :
  noInfinityb raw = true -> noInfinity raw.
Proof.
  unfold noInfinityb. intros H b Hb.
  rewrite forallb_forall in H. specialize (H _ Hb). discriminate H.
Qed.

Lemma machine_jenksBreaks_cleanData (A : arithmetic) (data : list value)
  (nClasses : nat) :
  Machine.jenksBreaks A data nClasses
  = Machine.jenksBreaks A (map Num (cleanData data)) nClasses.
Proof.
  unfold Machine.jenksBreaks. rewrite cleanData_idem, length_map.
  destruct data as [|d data]; [reflexivity|].
  cbn [length Nat.eqb].
  destruct (length (cleanData (d :: data)) =? 0) eqn:E; reflexivity.
Qed.

Lemma machine_jenksBreaks_finiteValues (A : arithmetic) (raw : list value)
  (nClasses : nat) :
  noInfinity raw ->
  Machine.jenksBreaks A raw nClasses
  = Machine.jenksBreaks A (map num (finiteValues raw)) nClasses.
Proof.
  intros H.
  rewrite machine_jenksBreaks_cleanData, cleanData_finiteValues by exact H.
  now rewrite map_num_fin.
Qed.

Lemma machine_jenksBreaks_throws (A : arithmetic) (sample : list Qc)
  (k : nat) :
  2 <= k < length sample ->
  lowerClassLimits
    (Machine.jenksMatrices A (map Fin (sortQ sample)) k) (length sample) k
  = 0 ->
  Machine.jenksBreaks A (map num sample) k = Throws.
Proof.
  intros H E. unfold Machine.jenksBreaks.
  rewrite cleanData_num, !length_map, sortNumbers_fin, length_map,
    sortQ_length.
  destruct (Nat.eqb_spec (length sample) 0) as [E0|_]; [lia|].
  destruct (Nat.leb_spec (length sample) k) as [L|_]; [lia|].
  destruct k as [|[|k]]; [lia|lia|].
  cbn [extractLoop].
  destruct (Z.ltb_spec (Z.of_nat (length sample)) 0) as [L|_]; [lia|].
  rewrite Nat2Z.id, E. reflexivity.
Qed.

(** X3. Raw data, in every arithmetic.  On raw data without infinities and
    with at least one class, when the run takes the short way or records a
    split in every cell of the dynamic program, [jenksBreaks] returns, and
    every break is a finite number that occurs in the data.  With at least
    two classes and more finite values than classes, when no split is
    recorded for the last cell, the one that backtracking reads first,
    [jenksBreaks] throws, because the next step reads row -1.  Infinities
    in the data make that happen: in double arithmetic
    [1, Infinity, Infinity] with two classes throws. *)
Theorem jenksBreaks_returns_or_throws :
  (forall (A : arithmetic) (raw : list value) (k : nat),
      1 <= k -> noInfinity raw -> splitsRecorded A (finiteValues raw) k ->
      exists bs : list Qc,
        Machine.jenksBreaks A raw k = Returns (map num bs)
        /\ forall x, In x bs -> In (num x) raw)
  /\ (forall (A : arithmetic) (sample : list Qc) (k : nat),
      2 <= k < length sample ->
      lowerClassLimits
        (Machine.jenksMatrices A (map Fin (sortQ sample)) k)
        (length sample) k = 0 ->
      Machine.jenksBreaks A (map num sample) k = Throws)
  /\ Machine.jenksBreaks binary64
       [numZ 1; Num (Inf false); Num (Inf false)] 2 = Throws.
Proof.
  split; [|split; [exact machine_jenksBreaks_throws|vm_compute; reflexivity]].
  intros A raw k Hk Hinf Hrec.
  rewrite (machine_jenksBreaks_finiteValues A raw k Hinf).
  destruct (finiteValues raw) as [|q qs] eqn:E.
  { exists []. split; [reflexivity|]. intros x []. }
  rewrite <- E in *.
  assert (Hne : finiteValues raw <> []) by (rewrite E; discriminate).
  destruct (machine_candidates A (finiteValues raw) k Hne Hk Hrec)
    as (src & HR & _ & _ & HI & _).
  exists (firstOcc [] src). split; [exact HR|].
  intros x Hx. apply finiteValues_In.
  apply firstOcc_In in Hx as [Hx _]. now apply HI.
Qed.

Lemma jenksBreaks_returns_or_throws_witness :
  (exists bs : list Qc,
      Machine.jenksBreaks binary64
        [Null; numZ 3; Num NaN; numZ 1; Undefined; numZ 2; numZ 7] 2
      = Returns (map num bs)
      /\ forall x, In x bs ->
         In (num x) [Null; numZ 3; Num NaN; numZ 1; Undefined; numZ 2; numZ 7])
  /\ Machine.jenksBreaks binary64
       (map num (map finite [dbl 0; dbl (10 ^ 200); dbl (3 * 10 ^ 200)])) 2
     = Throws.
Proof.
  destruct jenksBreaks_returns_or_throws as (H1 & H2 & _). split.
  - apply (H1 binary64
             [Null; numZ 3; Num NaN; numZ 1; Undefined; numZ 2; numZ 7] 2).
    + lia.
    + apply noInfinityb_spec. reflexivity.
    + apply splitsRecordedb_spec. vm_compute. reflexivity.
  - apply (H2 binary64
             (map finite [dbl 0; dbl (10 ^ 200); dbl (3 * 10 ^ 200)]) 2).
    + simpl. lia.
    + vm_compute. reflexivity.
Defined.

(** * The pipeline of [App] in any arithmetic *)

Lemma machine_appNaturalBreaks_finite (A : arithmetic) (icios : list value) :
  noInfinity icios ->
  Machine.appNaturalBreaks A icios =
  match finiteValues icios with
  | [] => Returns None
  | _ :: _ =>
      match Machine.jenksBreaks A (map num (finiteValues icios)) 12 with
      | Throws => Throws
      | Returns breaks => Returns (Some breaks)
      end
  end.
Proof.
  intros H. unfold Machine.appNaturalBreaks.
  rewrite appIcioValues_cleanData, cleanData_finiteValues by exact H.
  rewrite map_num_fin, length_map.
  destruct icios as [|d icios]; [reflexivity|]. cbn [length Nat.eqb].
  now destruct (finiteValues (d :: icios)).
Qed.

(** The breaks of a run that records every split. *)
Lemma machine_breaks (A : arithmetic) (qs : list Qc) (nClasses : nat) :
  qs <> [] -> 1 <= nClasses -> splitsRecorded A qs nClasses ->
  exists bs : list Qc,
    Machine.jenksBreaks A (map num qs) nClasses = Returns (map num bs)
    /\ StronglySorted Qclt bs
    /\ (forall x, In x bs -> In x qs)
    /\ isMin (hd 0%Qc bs) qs /\ isMax (last bs 0%Qc) qs
    /\ length bs <= nClasses + 1.
Proof.
  intros Hne Hk Hrec.
  destruct (machine_candidates A qs nClasses Hne Hk Hrec)
    as (src & HR & Hsrc & HS & HI & Hhd & Hlast & Hlen).
  assert (Hsq : sortQ qs <> []).
  { intros E. apply Hne. apply Permutation_nil.
    apply Permutation_sym. rewrite <- E. apply sortQ_perm. }
  exists (firstOcc [] src).
  split; [exact HR|]. split; [now apply firstOcc_sorted|].
  split.
  { intros x Hx. apply firstOcc_In in Hx as [Hx _]. now apply HI. }
  split.
  { rewrite firstOcc_hd, Hhd. apply (isMin_perm _ (sortQ qs));
      [apply sortQ_In|]. apply sorted_min; [apply sortQ_sorted|exact Hsq]. }
  split.
  { rewrite firstOcc_last by assumption. rewrite Hlast.
    rewrite <- (sortQ_length qs).
    apply (isMax_perm _ (sortQ qs)); [apply sortQ_In|].
    apply sorted_max; [apply sortQ_sorted|exact Hsq]. }
  pose proof (firstOcc_length src []). lia.
Qed.

(** The breaks and the palette of [App] on data with at least two
    different finite values. *)
Lemma machine_pipeline_shape (A : arithmetic) (icios : list value) :
  noInfinity icios -> 2 <= uniqueCount (finiteValues icios) ->
  splitsRecorded A (finiteValues icios) 12 ->
  exists bs : list Qc,
    Machine.appNaturalBreaks A icios = Returns (Some (map num bs))
    /\ 2 <= length bs <= 13
    /\ StronglySorted Qclt bs
    /\ isMin (hd 0%Qc bs) (finiteValues icios)
    /\ isMax (last bs 0%Qc) (finiteValues icios)
    /\ appColorPalette (Some (map num bs))
       = generateColorPalette (JS.len bs - 1).
Proof.
  intros Hinf Hu Hrec.
  set (sample := finiteValues icios) in *.
  assert (Hne : sample <> []).
  { intros E. rewrite E in Hu. unfold uniqueCount in Hu. simpl in Hu. lia. }
  destruct (machine_breaks A sample 12 Hne ltac:(lia) Hrec)
    as (bs & HR & HS & HI & Mn & Mx & Hlen).
  assert (L2 : 2 <= length bs)
    by (apply two_entries, (min_lt_max sample); assumption).
  exists bs. split.
  { rewrite machine_appNaturalBreaks_finite by exact Hinf. fold sample.
    destruct sample as [|q t] eqn:ES; [congruence|].
    rewrite <- ES in *. now rewrite HR. }
  split; [lia|]. split; [exact HS|].
  split; [exact Mn|]. split; [exact Mx|].
  unfold appColorPalette. rewrite len_map.
  destruct (Z.ltb_spec (JS.len bs) 2) as [L|_]; [|reflexivity].
  unfold JS.len in L. lia.
Qed.

(** X8. The map pipeline of [App], in every arithmetic, on features whose
    icio values contain no infinity and at least two different finite
    numbers: when the run of [jenksBreaks] with 12 classes takes the short
    way or records a split in every cell, it returns between 2 and 13
    breaks, the palette has one colour per class, and every finite icio
    value of the data is drawn with the palette colour of its class, never
    with the fallback gray. *)
Theorem app_colors_data (A : arithmetic) (icios : list value) :
  noInfinity icios -> 2 <= uniqueCount (finiteValues icios) ->
  splitsRecorded A (finiteValues icios) 12 ->
  exists breaks : list value,
    Machine.appNaturalBreaks A icios = Returns (Some breaks)
    /\ 2 <= length breaks <= 13
    /\ length (appColorPalette (Some breaks)) = length breaks - 1
    /\ forall x : Qc, In (num x) icios ->
       let palette := appColorPalette (Some breaks) in
       (0 <= getClassIndex (num x) breaks < JS.len palette)%Z
       /\ paletteEntry (num x) breaks palette
          = Some (getICIOColor (num x) breaks palette)
       /\ getICIOColor (num x) breaks palette <> gray.
Proof.
  intros Hinf Hu Hrec.
  destruct (machine_pipeline_shape A icios Hinf Hu Hrec)
    as (bs & Hrun & [L2 L13] & HS & Mn & Mx & EP).
  exists (map num bs).
  split; [exact Hrun|].
  split; [rewrite length_map; lia|].
  split.
  { rewrite EP, generateColorPalette_length, length_map.
    unfold JS.len. lia. }
  intros x Hx palette. unfold palette. rewrite EP.
  assert (Hs : In x (finiteValues icios)) by now apply finiteValues_In.
  assert (Hidx : (0 <= getClassIndex (num x) (map num bs)
                  <= JS.len bs - 2)%Z).
  { apply getClassIndex_from_first; [exact L2|].
    rewrite <- hd_bget. now apply Mn. }
  assert (Hpal : JS.len (generateColorPalette (JS.len bs - 1))
                 = (JS.len bs - 1)%Z).
  { unfold JS.len. rewrite generateColorPalette_length. lia. }
  assert (NF : ~ fallsBack (num x) (map num bs)
                 (generateColorPalette (JS.len bs - 1))).
  { intros [[F|[F|F]]|[F|[F|F]]]; try discriminate F.
    - rewrite length_map in F. lia.
    - lia.
    - rewrite Hpal in F. lia. }
  split; [rewrite Hpal; lia|].
  split; [now apply getICIOColor_inside|].
  intros G. apply NF. now apply getICIOColor_generated.
Qed.

Lemma app_colors_data_witness :
  exists breaks : list value,
    Machine.appNaturalBreaks binary64 exampleIcios = Returns (Some breaks)
    /\ 2 <= length breaks <= 13
    /\ length (appColorPalette (Some breaks)) = length breaks - 1
    /\ forall x : Qc, In (num x) exampleIcios ->
       let palette := appColorPalette (Some breaks) in
       (0 <= getClassIndex (num x) breaks < JS.len palette)%Z
       /\ paletteEntry (num x) breaks palette
          = Some (getICIOColor (num x) breaks palette)
       /\ getICIOColor (num x) breaks palette <> gray.
Proof.
  apply (app_colors_data binary64 exampleIcios).
  - apply noInfinityb_spec. vm_compute. reflexivity.
  - vm_compute. lia.
  - apply splitsRecordedb_spec. vm_compute. reflexivity.
Defined.

(** X9. In every arithmetic, when the finite icio values are all equal (or
    there is none) and the run of [jenksBreaks] takes the short way or
    records a split in every cell, the pipeline of [App] has fewer than
    two breaks and therefore an empty palette, and every value gets the
    fallback gray. *)
Theorem app_colors_degenerate (A : arithmetic) (icios : list value) :
  noInfinity icios -> uniqueCount (finiteValues icios) <= 1 ->
  splitsRecorded A (finiteValues icios) 12 ->
  exists naturalBreaks : option (list value),
    Machine.appNaturalBreaks A icios = Returns naturalBreaks
    /\ appColorPalette naturalBreaks = []
    /\ forall (breaks : list value) (icio : value),
       naturalBreaks = Some breaks ->
       getICIOColor icio breaks (appColorPalette naturalBreaks) = gray.
Proof.
  intros Hinf Hu Hrec.
  rewrite machine_appNaturalBreaks_finite by exact Hinf.
  set (sample := finiteValues icios) in *.
  destruct sample as [|q t] eqn:ES.
  { exists None. repeat split. intros breaks icio E. discriminate E. }
  rewrite <- ES in *.
  assert (Hne : sample <> []) by (rewrite ES; discriminate).
  destruct (machine_breaks A sample 12 Hne ltac:(lia) Hrec)
    as (bs & HR & HS & HI & _).
  assert (L1 : length bs <= 1).
  { eapply Nat.le_trans; [|exact Hu].
    apply uniqueCount_NoDup_incl; [now apply sorted_lt_NoDup|exact HI]. }
  exists (Some (map num bs)). rewrite HR.
  assert (EP : appColorPalette (Some (map num bs)) = []).
  { unfold appColorPalette. rewrite len_map.
    destruct (Z.ltb_spec (JS.len bs) 2) as [_|L]; [reflexivity|].
    unfold JS.len in L. lia. }
  split; [reflexivity|]. split; [exact EP|].
  intros breaks icio E. injection E as <-.
  apply getICIOColor_fallback. right. left. rewrite length_map. lia.
Qed.

Lemma app_colors_degenerate_witness :
  exists naturalBreaks : option (list value),
    Machine.appNaturalBreaks binary64
      (Num NaN :: repeat (Num (dbl 3.7)) 14) = Returns naturalBreaks
    /\ appColorPalette naturalBreaks = []
    /\ forall (breaks : list value) (icio : value),
       naturalBreaks = Some breaks ->
       getICIOColor icio breaks (appColorPalette naturalBreaks) = gray.
Proof.
  apply (app_colors_degenerate binary64
           (Num NaN :: repeat (Num (dbl 3.7)) 14)).
  - apply noInfinityb_spec. vm_compute. reflexivity.
  - vm_compute. lia.
  - apply splitsRecordedb_spec. vm_compute. reflexivity.
Defined.

(** X21. The total range shown with the legend agrees with the breaks, in
    every arithmetic.  When the icio values of the features contain no
    infinity and at least one finite number, [loadCSVData] sets the range
    to the least and the greatest finite value, whatever the range was
    before; and when the run of [jenksBreaks] takes the short way or
    records a split in every cell, these are the first and the last break
    of [naturalBreaks]. *)
Theorem app_range_is_breaks (A : arithmetic) (icios : list value)
  (icioRange : number * number) :
  noInfinity icios -> finiteValues icios <> [] ->
  exists lo hi : Qc,
    loadIcioRange icios icioRange = (Fin lo, Fin hi)
    /\ isMin lo (finiteValues icios) /\ isMax hi (finiteValues icios)
    /\ (splitsRecorded A (finiteValues icios) 12 ->
        exists breaks : list Qc,
          Machine.appNaturalBreaks A icios = Returns (Some (map num breaks))
          /\ hd 0%Qc breaks = lo /\ last breaks 0%Qc = hi).
Proof.
  intros Hinf Hne.
  destruct (mathMin_fin _ Hne) as (lo & Hlo & Hlo').
  destruct (mathMax_fin _ Hne) as (hi & Hhi & Hhi').
  exists lo, hi. split.
  { unfold loadIcioRange. rewrite icioValues_finite by exact Hinf.
    rewrite length_map.
    destruct (finiteValues icios) as [|q l] eqn:E; [congruence|].
    cbn [length Nat.ltb Nat.leb]. now rewrite Hlo, Hhi. }
  split; [exact Hlo'|]. split; [exact Hhi'|].
  intros Hrec.
  destruct (machine_breaks A (finiteValues icios) 12 Hne ltac:(lia) Hrec)
    as (bs & Hrun & _ & _ & Hmin & Hmax & _).
  exists bs. split.
  { rewrite machine_appNaturalBreaks_finite by exact Hinf.
    destruct (finiteValues icios); [congruence|]. now rewrite Hrun. }
  split; [eapply isMin_unique|eapply isMax_unique]; eassumption.
Qed.

Lemma app_range_is_breaks_witness :
  exists (breaks : list Qc) (lo hi : Qc),
    loadIcioRange exampleIcios (ofZ 0, ofZ 1) = (Fin lo, Fin hi)
    /\ Machine.appNaturalBreaks binary64 exampleIcios
       = Returns (Some (map num breaks))
    /\ hd 0%Qc breaks = lo /\ last breaks 0%Qc = hi.
Proof.
  destruct (app_range_is_breaks binary64 exampleIcios (ofZ 0, ofZ 1))
    as (lo & hi & R & _ & _ & H).
  - apply noInfinityb_spec. vm_compute. reflexivity.
  - vm_compute. discriminate.
  - destruct H as (bs & B & C & D).
    + apply splitsRecordedb_spec. vm_compute. reflexivity.
    + exists bs, lo, hi. split; [exact R|]. split; [exact B|].
      split; [exact C|exact D].
Defined.

(** X27. The legend agrees with the map, in every arithmetic.  On data
    whose icio values contain no infinity and at least two different
    finite numbers, when the run of [jenksBreaks] takes the short way or
    records a split in every cell: the legend has one entry per class,
    none of them [null]; entry [i] has the palette color of class [i] and
    shows the range from break [i] to break [i + 1], once, or twice when
    there is a single class; and every finite icio value of the data lies
    within the range (bounds included) of the entry that has the color
    with which the value is drawn. *)
Theorem legend_agrees (A : arithmetic) (icios : list value) :
  noInfinity icios -> 2 <= uniqueCount (finiteValues icios) ->
  splitsRecorded A (finiteValues icios) 12 ->
  exists bs : list Qc,
    Machine.appNaturalBreaks A icios = Returns (Some (map num bs))
    /\ let naturalBreaks := Some (map num bs) in
       let colorPalette := appColorPalette naturalBreaks in
       let entries := legend naturalBreaks colorPalette in
       length entries = length bs - 1
       /\ (forall i : nat, i < length bs - 1 ->
           exists shown : list (value * value),
             nth_error entries i
             = Some (Some (nth i colorPalette gray, shown))
             /\ (forall range, In range shown ->
                 range = (num (nth i bs 0%Qc), num (nth (i + 1) bs 0%Qc)))
             /\ length shown = (if length bs =? 2 then 2 else 1))
       /\ (forall x : Qc, In (num x) icios ->
           exists (i : nat) (shown : list (value * value)),
             nth_error entries i
             = Some (Some (getICIOColor (num x) (map num bs) colorPalette,
                           shown))
             /\ (nth i bs 0%Qc <= x)%Qc /\ (x <= nth (i + 1) bs 0%Qc)%Qc).
Proof.
  intros Hinf Hu Hrec.
  destruct (machine_pipeline_shape A icios Hinf Hu Hrec)
    as (bs & Hrun & [L2 L13] & HS & Mn & Mx & EP).
  exists bs. split; [exact Hrun|].
  cbv zeta. rewrite EP.
  set (n := (JS.len bs - 1)%Z).
  assert (Hn : Z.to_nat n = length bs - 1) by (unfold n, JS.len; lia).
  assert (Hpl : length (generateColorPalette n) = length bs - 1)
    by (now rewrite generateColorPalette_length).
  assert (EL : legendColors (Some (map num bs)) (generateColorPalette n)
               = generateColorPalette n).
  { unfold legendColors. rewrite len_map.
    destruct (Z.ltb_spec (JS.len bs) 2) as [L|_];
      [unfold JS.len in L; lia|].
    destruct (Nat.eqb_spec (length (generateColorPalette n)) 0) as [L|_];
      [lia|reflexivity]. }
  assert (Hitem : forall i, i < length bs - 1 ->
            exists shown : list (value * value),
              nth_error (legend (Some (map num bs)) (generateColorPalette n))
                i
              = Some (Some (nth i (generateColorPalette n) gray, shown))
              /\ (forall range, In range shown ->
                  range = (num (nth i bs 0%Qc), num (nth (i + 1) bs 0%Qc)))
              /\ length shown = (if length bs =? 2 then 2 else 1)).
  { intros i Hi. unfold legend. rewrite EL, legendLoop_nth.
    rewrite (nth_error_nth' _ gray) by lia.
    unfold legendItem. rewrite len_map.
    destruct (Z.geb_spec (0 + Z.of_nat i) (JS.len bs - 1)) as [L|_];
      [unfold JS.len in L; lia|].
    rewrite !get_num by (unfold JS.len; lia).
    unfold bget.
    replace (Z.to_nat (0 + Z.of_nat i)) with i by lia.
    replace (Z.to_nat (0 + Z.of_nat i + 1)) with (i + 1) by lia.
    eexists. split; [reflexivity|].
    assert (Hlen : JS.len (generateColorPalette n)
                   = Z.of_nat (length bs - 1))
      by (unfold JS.len; now rewrite Hpl).
    rewrite Hlen. split.
    - intros range Hr.
      destruct (0 + Z.of_nat i =? 0)%Z, (0 <? 0 + Z.of_nat i)%Z,
        (0 + Z.of_nat i <? Z.of_nat (length bs - 1) - 1)%Z,
        (0 + Z.of_nat i =? Z.of_nat (length bs - 1) - 1)%Z;
        simpl in Hr; intuition congruence.
    - destruct (Nat.eqb_spec (length bs) 2) as [E2|N2].
      + assert (i = 0) by lia. subst i. rewrite E2. reflexivity.
      + destruct (Z.eqb_spec (0 + Z.of_nat i) 0),
          (Z.ltb_spec 0 (0 + Z.of_nat i)),
          (Z.ltb_spec (0 + Z.of_nat i) (Z.of_nat (length bs - 1) - 1)),
          (Z.eqb_spec (0 + Z.of_nat i) (Z.of_nat (length bs - 1) - 1));
          simpl; try reflexivity; lia. }
  split.
  { unfold legend. now rewrite EL, legendLoop_length. }
  split; [exact Hitem|].
  intros x Hx.
  assert (Hs : In x (finiteValues icios)) by now apply finiteValues_In.
  assert (H0 : (bget bs 0 <= x)%Qc)
    by (rewrite <- hd_bget; now apply Mn).
  assert (Hidx : (0 <= getClassIndex (num x) (map num bs)
                  <= JS.len bs - 2)%Z)
    by (now apply getClassIndex_from_first).
  set (c := getClassIndex (num x) (map num bs)) in *.
  assert (Hc : Z.to_nat c < length bs - 1) by (unfold JS.len in Hidx; lia).
  destruct (Hitem (Z.to_nat c) Hc) as (shown & Hnth & _).
  exists (Z.to_nat c), shown.
  assert (Ecol : getICIOColor (num x) (map num bs) (generateColorPalette n)
                 = nth (Z.to_nat c) (generateColorPalette n) gray).
  { rewrite getICIOColor_unfold. fold c.
    replace (isMissing (num x)) with false by reflexivity.
    rewrite length_map.
    destruct (Nat.ltb_spec (length bs) 2) as [L|_]; [lia|].
    destruct (Z.eqb_spec c (-1)) as [L|_]; [lia|].
    destruct (Z.leb_spec (JS.len (generateColorPalette n)) c) as [L|_];
      [unfold JS.len in *; lia|].
    reflexivity. }
  rewrite Ecol. split; [exact Hnth|].
  destruct (getClassIndex_sound bs x L2 (proj1 Hidx))
    as [[P Q]|[P Q]]; fold c in P.
  - fold c in Q. unfold bget in P, Q.
    replace (Z.to_nat (c + 1)) with (Z.to_nat c + 1) in Q by lia.
    split; [exact P|now apply Qclt_le_weak].
  - assert (Elast : last bs 0%Qc = nth (Z.to_nat c + 1) bs 0%Qc).
    { rewrite last_is_nth. f_equal. unfold JS.len in P. lia. }
    split.
    + unfold bget in Q.
      apply Qcle_trans with (2 := Q).
      replace (Z.to_nat c) with (Z.to_nat (JS.len bs - 2)) by lia.
      apply (sorted_bget bs (sorted_lt_Sorted_le bs HS));
        unfold JS.len; lia.
    + rewrite <- Elast. now apply Mx.
Qed.

Lemma legend_agrees_witness :
  exists bs : list Qc,
    Machine.appNaturalBreaks binary64 exampleIcios
    = Returns (Some (map num bs))
    /\ length (legend (Some (map num bs))
                 (appColorPalette (Some (map num bs))))
       = length bs - 1.
Proof.
  destruct (legend_agrees binary64 exampleIcios) as (bs & R & L & _).
  - apply noInfinityb_spec. vm_compute. reflexivity.
  - vm_compute. lia.
  - apply splitsRecordedb_spec. vm_compute. reflexivity.
  - exists bs. split; [exact R|exact L].
Defined.

(** * The calculator in any arithmetic *)

(** X20. Keys that are not in the tables, in every arithmetic.  A building
    function that no build type has as its subtype stops the calculation
    with the alert that it was not found.  A special condition or a
    reduction that is not in its table counts as none.  A construction
    type that is not in its table is charged with the full range added to
    the lower PEM value; in double arithmetic that is not always the
    upper PEM value that new construction is charged with: between 946.24
    and 3149.65 it is 3149.6499999999996. *)
Theorem calculateICIO_unknown_keys :
  (forall (A : arithmetic) (buildTypes : list buildType)
     (constructionType buildingFunction specialConditions icioReduction
        : string) (gfa : number) (icio : value),
      buildingFunction <> ""%string ->
      (forall bt, In bt buildTypes -> subtype bt <> buildingFunction) ->
      Machine.calculateICIO A buildTypes constructionType buildingFunction
        gfa specialConditions icioReduction (Some icio)
      = Alert "Building function not found")
  /\ (forall (A : arithmetic) (buildTypes : list buildType)
        (constructionType buildingFunction specialConditions icioReduction
           : string) (gfa : number) (cityData : option value),
        ~ In specialConditions (map fst SPECIAL_CONDITIONS) ->
        Machine.calculateICIO A buildTypes constructionType buildingFunction
          gfa specialConditions icioReduction cityData
        = Machine.calculateICIO A buildTypes constructionType
            buildingFunction gfa "none" icioReduction cityData)
  /\ (forall (A : arithmetic) (buildTypes : list buildType)
        (constructionType buildingFunction specialConditions icioReduction
           : string) (gfa : number) (cityData : option value),
        ~ In icioReduction (map fst ICIO_REDUCTIONS) ->
        Machine.calculateICIO A buildTypes constructionType buildingFunction
          gfa specialConditions icioReduction cityData
        = Machine.calculateICIO A buildTypes constructionType
            buildingFunction gfa specialConditions "none" cityData)
  /\ (let buildTypes :=
        [BuildType "Residential" "Housing" (dbl 946.24) (dbl 3149.65) "" ""] in
      (exists tax : number,
          Machine.calculateICIO binary64 buildTypes "extension" "Housing"
            (dbl 1) "none" "none" (Some (Num (dbl 4)))
          = Results (dbl 3149.6499999999996) tax)
      /\ (exists tax : number,
          Machine.calculateICIO binary64 buildTypes "new_construction"
            "Housing" (dbl 1) "none" "none" (Some (Num (dbl 4)))
          = Results (dbl 3149.65) tax)
      /\ dbl 3149.6499999999996 <> dbl 3149.65).
Proof.
  split; [|split; [|split]].
  - intros A buildTypes constructionType buildingFunction specialConditions
      icioReduction gfa icio Hbf Hnone. unfold Machine.calculateICIO.
    rewrite (proj2 (String.eqb_neq _ _) Hbf).
    now rewrite findBuildType_None.
  - intros A buildTypes constructionType buildingFunction specialConditions
      icioReduction gfa cityData N.
    apply findValue_None in N. unfold Machine.calculateICIO.
    rewrite N. reflexivity.
  - intros A buildTypes constructionType buildingFunction specialConditions
      icioReduction gfa cityData N.
    apply findValue_None in N. unfold Machine.calculateICIO.
    rewrite N. reflexivity.
  - cbv zeta. split; [|split].
    + eexists. vm_compute. reflexivity.
    + eexists. vm_compute. reflexivity.
    + vm_compute. discriminate.
Qed.

Lemma calculateICIO_unknown_keys_witness :
  Machine.calculateICIO binary64
    [BuildType "Residential" "Housing" (ofZ 800) (ofZ 1200) "" ""]
    "new_construction" "Storage" (ofZ 100) "none" "none" (Some (numZ 4))
  = Alert "Building function not found"
  /\ Machine.calculateICIO binary64
       [BuildType "Residential" "Housing" (ofZ 800) (ofZ 1200) "" ""]
       "new_construction" "Housing" (ofZ 100) "flood_zone" "vpo"
       (Some (numZ 4))
     = Machine.calculateICIO binary64
         [BuildType "Residential" "Housing" (ofZ 800) (ofZ 1200) "" ""]
         "new_construction" "Housing" (ofZ 100) "none" "vpo" (Some (numZ 4)).
Proof.
  destruct calculateICIO_unknown_keys as (H1 & H2 & _). split.
  - apply H1; [discriminate|].
    intros bt [<-|[]]. discriminate.
  - apply H2. simpl. intros [E|[E|[E|[E|[E|[E|[E|[]]]]]]]]; discriminate E.
Defined.

(** * Rounding in the breaks solver *)

Lemma fin_eq (x : number) (q : Qc) :
  match x with Fin a => Qeq_bool a q | _ => false end = true -> x = Fin q.
Proof.
  destruct x as [|a|b]; try discriminate. intros H. f_equal.
  apply Qc_is_canon. now apply Qeq_bool_iff.
Qed.

(** X5. The breaks are not always those of a partition of least total
    variance.  On the five values 4000000000000005, ...10, ...12, ...13,
    ...14 with three classes, the classes that start at the positions 1,
    2 and 3 have the total sum of squared deviations 2; in double
    arithmetic the dynamic program records the starts 1, 2 and 4, whose
    total is 5/2, and [jenksBreaks] returns the breaks of that
    partition. *)
Theorem jenksBreaks_not_optimal :
  let qs := map qz [4000000000000005; 4000000000000010; 4000000000000012;
                    4000000000000013; 4000000000000014]%Z in
  let m := Machine.jenksMatrices binary64 (map Fin qs) 3 in
  validPart [3; 2; 1] 5 /\ partCost qs [3; 2; 1] 5 = qz 2
  /\ path (lowerClassLimits m) 3 5 = [1; 2; 4]
  /\ validPart [4; 2; 1] 5 /\ partCost qs [4; 2; 1] 5 = Q2Qc (5 # 2)
  /\ Machine.jenksBreaks binary64 (map num qs) 3
     = Returns (map numZ [4000000000000005; 4000000000000010;
                          4000000000000013; 4000000000000014]%Z).
Proof.
  cbv zeta. split; [simpl; lia|]. split; [vm_compute; reflexivity|].
  split; [vm_compute; reflexivity|].
  split; [simpl; lia|]. split; vm_compute; reflexivity.
Qed.

(** X12. The variance that the code computes is not zero exactly when the
    values of the segment are equal.  In double arithmetic the mean of
    three times 0.1 is not 0.1 and the variance of [0.1, 0.1, 0.1] is
    3 / 2^112, about 5.78e-34; the variance of the different values
    2^-600 and 2^-599 underflows to 0; and the variance of [0, 2e200]
    overflows to Infinity. *)
Theorem varianceWithin_rounding :
  Machine.varianceWithin binary64 [dbl 0.1; dbl 0.1; dbl 0.1] 0 2
  = Fin (Q2Qc (3 # Pos.pow 2 112))
  /\ dbl (1 / 2 ^ 600) <> dbl (2 / 2 ^ 600)
  /\ Machine.varianceWithin binary64
       [dbl (1 / 2 ^ 600); dbl (2 / 2 ^ 600)] 0 1 = ofZ 0
  /\ Machine.varianceWithin binary64 [dbl 0; dbl (2 * 10 ^ 200)] 0 1
     = Inf false.
Proof.
  split; [apply fin_eq; vm_compute; reflexivity|].
  split; [vm_compute; discriminate|].
  split; [apply fin_eq|]; vm_compute; reflexivity.
Qed.

(** X13. Adding a constant to every value does not always add it to every
    break.  In double arithmetic [0, 2, 5, 8, 10] with two classes gives
    the breaks [0, 5, 10], and the same values with 2 added,
    [2, 4, 7, 10, 12], give [2, 10, 12]. *)
Theorem jenksBreaks_not_shifted :
  Machine.jenksBreaks binary64 (map numZ [0; 2; 5; 8; 10]%Z) 2
  = Returns (map numZ [0; 5; 10]%Z)
  /\ Machine.jenksBreaks binary64
       (map numZ (map (Z.add 2) [0; 2; 5; 8; 10]%Z)) 2
     = Returns (map numZ [2; 10; 12]%Z).
Proof. split; vm_compute; reflexivity. Qed.
